(** * py-ssz: hashable structures and their evolvers

    A shallow embedding of [ssz/hashable_structure.py], [ssz/hashable_list.py]
    and [ssz/hashable_vector.py], followed by the serialization classes of
    [ssz/sedes/base.py], [ssz/sedes/tuple.py] and [ssz/sedes/basic.py] in
    modules of their own.

    Python integers are [Z]; [bytes] objects are lists of [byte]; a raised
    exception is the [Raise] branch of [Result].  Objects that the code refers
    to by reference (structures and evolvers) live in a [Heap] and are named by
    their location, so that "the same object" and "an unchanged object" are
    statements about locations and heap cells. *)

From Stdlib Require Import ZArith List Lia Strings.Byte String.
From stdpp Require Import base list.

Open Scope Z_scope.

(** ** Python values and exceptions *)

(** The exception classes the modelled code can raise.  [DanglingReference]
    is an artefact of the model: it is what a heap read returns for a location
    that holds no object, which cannot be written in Python. *)
Inductive PyError : Type :=
| TypeError
| ValueError
| IndexError
| KeyError
| ZeroDivisionError
| AttributeError
| DanglingReference.

Inductive Result (A : Type) : Type :=
| Ok (a : A)
| Raise (e : PyError).

Arguments Ok {A} a.
Arguments Raise {A} e.

Definition rbind {A B : Type} (r : Result A) (k : A → Result B) : Result B :=
  match r with
  | Ok a => k a
  | Raise e => Raise e
  end.

Notation "'let*' x ':=' r 'in' k" := (rbind r (fun x => k))
  (at level 10, x name, r at level 200, k at level 200, only parsing).

Abbreviation bytes := (list byte) (only parsing).

(** [len(seq)] *)
Definition len {A : Type} (seq : list A) : Z := Z.of_nat (length seq).

(** [seq[:stop]]; a negative [stop] counts from the end. *)
Definition slice_to {A : Type} (seq : list A) (stop : Z) : list A :=
  if stop <? 0 then take (Z.to_nat (len seq + stop)) seq
  else take (Z.to_nat stop) seq.

(** [seq[start:]]; a negative [start] counts from the end. *)
Definition slice_from {A : Type} (seq : list A) (start : Z) : list A :=
  if start <? 0 then drop (Z.to_nat (len seq + start)) seq
  else drop (Z.to_nat start) seq.

(** [seq[index]] for [bytes], [list], [tuple] and pyrsistent's [PVector]:
    a negative index counts from the end, anything outside raises
    [IndexError]. *)
Definition getitem {A : Type} (seq : list A) (index : Z) : Result A :=
  let i := if index <? 0 then index + len seq else index in
  if i <? 0 then Raise IndexError
  else match seq !! Z.to_nat i with
       | Some x => Ok x
       | None => Raise IndexError
       end.

(** [a // b] and [a % b]: [Z.div] and [Z.modulo] round like Python's. *)
Definition floordiv (a b : Z) : Result Z :=
  if b =? 0 then Raise ZeroDivisionError else Ok (a / b).

Definition pymod (a b : Z) : Result Z :=
  if b =? 0 then Raise ZeroDivisionError else Ok (a mod b).

(** [enumerate(seq, start=start)] *)
Definition enumerate {A : Type} (seq : list A) (start : Z) : list (Z * A) :=
  imap (fun j x => (start + Z.of_nat j, x)) seq.

(** [for x in seq: f(x)] collecting the results; stops at the first raise. *)
Fixpoint mapM {A B : Type} (f : A → Result B) (seq : list A) : Result (list B) :=
  match seq with
  | [] => Ok []
  | x :: rest => let* y := f x in let* ys := mapM f rest in Ok (y :: ys)
  end.

(** *** Dictionaries

    A Python [dict] keeps its keys in insertion order and the code below
    iterates over dictionaries, so a dictionary is an association list without
    repeated keys, in insertion order. *)
Abbreviation PyDict V := (list (Z * V)) (only parsing).

(** [d[k] = v]: an existing key keeps its place. *)
Fixpoint dict_set {V : Type} (d : PyDict V) (k : Z) (v : V) : PyDict V :=
  match d with
  | [] => [(k, v)]
  | (k', v') :: rest =>
      if k' =? k then (k, v) :: rest else (k', v') :: dict_set rest k v
  end.

Fixpoint dict_get {V : Type} (d : PyDict V) (k : Z) : option V :=
  match d with
  | [] => None
  | (k', v') :: rest => if k' =? k then Some v' else dict_get rest k
  end.

(** [k in d] *)
Definition dict_contains {V : Type} (d : PyDict V) (k : Z) : bool :=
  match dict_get d k with Some _ => true | None => false end.

(** [d[k]] *)
Definition dict_getitem {V : Type} (d : PyDict V) (k : Z) : Result V :=
  match dict_get d k with Some v => Ok v | None => Raise KeyError end.

Definition dict_items {V : Type} (d : PyDict V) : list (Z * V) := d.
Definition dict_keys {V : Type} (d : PyDict V) : list Z := map fst d.
Definition dict_values {V : Type} (d : PyDict V) : list V := map snd d.

(** [d.update(items)] on a copy of [d]. *)
Definition dict_update {V : Type} (d : PyDict V) (items : list (Z * V)) : PyDict V :=
  fold_left (fun acc kv => dict_set acc (fst kv) (snd kv)) items d.

(** [dict(items)], also what [eth_utils.to_dict] does with the pairs a
    generator yields. *)
Definition dict_of_items {V : Type} (items : list (Z * V)) : PyDict V :=
  dict_update [] items.

(** [{**d1, **d2}] *)
Definition dict_merge {V : Type} (d1 d2 : PyDict V) : PyDict V :=
  dict_update d1 (dict_items d2).

(** *** toolz *)

(** [groupby(key, seq)]: a dictionary from each key to the items that have
    it, keys in order of first appearance, items in their original order. *)
Definition groupby (key : Z → Result Z) (seq : list Z) : Result (PyDict (list Z)) :=
  fold_left
    (fun acc item =>
       let* d := acc in
       let* k := key item in
       Ok (dict_set d k (match dict_get d k with
                         | Some items => items ++ [item]
                         | None => [item]
                         end)))
    seq (Ok []).

Fixpoint partition_groups {A : Type} (fuel n : nat) (seq : list A) (pad : A)
  : list (list A) :=
  match fuel with
  | O => []
  | S fuel' =>
      match seq with
      | [] => []
      | _ :: _ =>
          let group := take n seq in
          (group ++ replicate (n - length group) pad)
            :: partition_groups fuel' n (drop n seq) pad
      end
  end.

(** [partition(n, seq, pad=pad)]: [zip_longest] over [n] references to one
    iterator, so consecutive groups of [n] items with the last group filled up
    with [pad]; with [n <= 0] there is nothing to zip and the result is
    empty. *)
Definition partition_pad {A : Type} (n : Z) (seq : list A) (pad : A) : list (list A) :=
  if n <=? 0 then [] else partition_groups (length seq) (Z.to_nat n) seq pad.

(** ** Constants ([ssz.constants])

    Modelled from the spec: the module is not among the sources; the spec
    gives [CHUNK_SIZE = 32] and the all-zero chunk. *)

Definition CHUNK_SIZE : Z := 32.
Definition ZERO_BYTES32 : bytes := replicate 32 x00.

(** ** Chunking ([ssz/hashable_structure.py], lines 39-171) *)

Definition update_element_in_chunk (original_chunk : bytes) (index : Z) (element : bytes)
  : Result bytes :=
  let element_size := len element in
  let chunk_size := len original_chunk in
  if element_size =? 0 then Raise ValueError
  else if negb (chunk_size mod element_size =? 0) then Raise ValueError
  else if negb ((0 <=? index) && (index <? chunk_size / element_size)) then Raise IndexError
  else
    let first_byte_index := index * element_size in
    let last_byte_index := first_byte_index + element_size in
    let prefix := slice_to original_chunk first_byte_index in
    let suffix := slice_from original_chunk last_byte_index in
    Ok (prefix ++ element ++ suffix).

(** [pipe(original_chunk, *partials)]: the items of the dictionary are passed
    one by one, in the dictionary's order. *)
Definition update_elements_in_chunk (original_chunk : bytes) (updated_elements : PyDict bytes)
  : Result bytes :=
  fold_left
    (fun acc item => let* chunk := acc in update_element_in_chunk chunk (fst item) (snd item))
    (dict_items updated_elements) (Ok original_chunk).

Definition get_num_padding_elements
  (num_original_chunks num_original_elements element_size : Z) : Result Z :=
  let total_size := num_original_chunks * CHUNK_SIZE in
  let used_size := num_original_elements * element_size in
  let padding_size := total_size - used_size in
  floordiv padding_size element_size.

Definition get_updated_chunks
  (updated_elements : PyDict bytes) (appended_elements : list bytes)
  (original_chunks : list bytes) (num_original_elements num_padding_elements : Z)
  : Result (PyDict bytes) :=
  let effective_appended_elements := slice_to appended_elements num_padding_elements in
  let some_element :=
    match dict_values updated_elements with
    | v :: _ => Some v
    | [] => match effective_appended_elements with
            | e :: _ => Some e
            | [] => None
            end
    end in
  match some_element with
  | None => Ok []
  | Some some_element =>
      let element_size := len some_element in
      let* elements_per_chunk := floordiv CHUNK_SIZE element_size in
      let padding_elements_with_indices :=
        dict_of_items (enumerate effective_appended_elements num_original_elements) in
      let effective_updated_elements :=
        dict_merge updated_elements padding_elements_with_indices in
      let element_indices := dict_keys effective_updated_elements in
      let* element_indices_by_chunk :=
        groupby (fun element_index => floordiv element_index elements_per_chunk)
                element_indices in
      let* updated :=
        mapM (fun group : Z * list Z =>
                let chunk_index := fst group in
                let* chunk_updates :=
                  mapM (fun element_index =>
                          let* slot := pymod element_index elements_per_chunk in
                          let* element :=
                            dict_getitem effective_updated_elements element_index in
                          Ok (slot, element))
                       (snd group) in
                let* original_chunk := getitem original_chunks chunk_index in
                let* updated_chunk :=
                  update_elements_in_chunk original_chunk (dict_of_items chunk_updates) in
                Ok (chunk_index, updated_chunk))
             (dict_items element_indices_by_chunk) in
      Ok (dict_of_items updated)
  end.

Definition get_appended_chunks (appended_elements : list bytes) (num_padding_elements : Z)
  : Result (list bytes) :=
  if len appended_elements <=? num_padding_elements then Ok []
  else
    let* some_element := getitem appended_elements 0 in
    let element_size := len some_element in
    let* elements_per_chunk := floordiv CHUNK_SIZE element_size in
    let chunk_partitioned_elements :=
      partition_pad elements_per_chunk
                    (slice_from appended_elements num_padding_elements)
                    (replicate (Z.to_nat element_size) x00) in
    Ok (map (fun elements_in_chunk => concat elements_in_chunk) chunk_partitioned_elements).

(** *** Calls by position

    [persistent] and [from_iterable] call the two functions above with
    argument lists that do not have the length of their signatures.  Python
    binds positional arguments when the call is made and raises [TypeError]
    when their number is not the number of parameters; [to_dict] and
    [to_tuple] pass their arguments on unchanged.  A call is therefore
    modelled with the list of values it passes. *)
Inductive PyArg : Type :=
| ArgDict (d : PyDict bytes)
| ArgSeq (s : list bytes)
| ArgInt (n : Z).

Definition call_get_updated_chunks (args : list PyArg) : Result (PyDict bytes) :=
  match args with
  | [ArgDict updated_elements; ArgSeq appended_elements; ArgSeq original_chunks;
     ArgInt num_original_elements; ArgInt num_padding_elements] =>
      get_updated_chunks updated_elements appended_elements original_chunks
                         num_original_elements num_padding_elements
  | _ => Raise TypeError
  end.

Definition call_get_appended_chunks (args : list PyArg) : Result (list bytes) :=
  match args with
  | [ArgSeq appended_elements; ArgInt num_padding_elements] =>
      get_appended_chunks appended_elements num_padding_elements
  | _ => Raise TypeError
  end.

(** ** pyrsistent's [PVector]

    The element sequence of a structure is a [PVector]: an immutable sequence
    whose updating methods return a new vector.  It is a [list] here; reading
    is [getitem] above. *)

(** [v.set(index, val)]: a negative index counts from the end, and the index
    [len(v)] appends. *)
Definition pvector_set {A : Type} (v : list A) (index : Z) (val : A) : Result (list A) :=
  let i := if index <? 0 then index + len v else index in
  if (0 <=? i) && (i <? len v) then Ok (<[Z.to_nat i := val]> v)
  else if i =? len v then Ok (v ++ [val])
  else Raise IndexError.

(** [v.mset(i1, x1, i2, x2, ...)], given as the list of its pairs: the
    arguments at the call sites below are flattened [dict.items()], so their
    number is even. *)
Definition pvector_mset {A : Type} (v : list A) (pairs : list (Z * A)) : Result (list A) :=
  fold_left (fun acc kv => let* v' := acc in pvector_set v' (fst kv) (snd kv))
            pairs (Ok v).

(** [v.extend(items)] *)
Definition pvector_extend {A : Type} (v items : list A) : list A := v ++ items.

(** ** Integers as bytes *)

Definition byte_of_Z (z : Z) : byte :=
  match Byte.of_N (Z.to_N (z mod 256)) with
  | Some b => b
  | None => x00
  end.

(** [n.to_bytes(length, "little")] for [0 <= n < 256 ** length]. *)
Fixpoint to_bytes_little (length : nat) (n : Z) : bytes :=
  match length with
  | O => []
  | S length' => byte_of_Z n :: to_bytes_little length' (n / 256)
  end.

(** [int.from_bytes(b, "little")] *)
Fixpoint from_bytes_little (b : bytes) : Z :=
  match b with
  | [] => 0
  | x :: rest => Z.of_N (Byte.to_N x) + 256 * from_bytes_little rest
  end.

(** ** Hashing ([ssz.hash], [ssz.utils], [ssz.hash_tree])

    None of these modules is among the sources.  SHA-256 itself is never
    computed here: the hash function is a parameter. *)
Class Hasher : Type := hash_eth2 : bytes → bytes.

(** The spec's [le256(k)]: the 32-byte little-endian encoding of [k]. *)
Definition le256 (k : Z) : bytes := to_bytes_little 32 k.

(** Modelled from the spec: [ssz.utils.mix_in_length] is missing from the
    sources; the spec gives the list root as [H(raw_root ‖ le256(len))]. *)
Definition mix_in_length `{Hasher} (root : bytes) (length : Z) : bytes :=
  hash_eth2 (root ++ le256 length).

(** Modelled from the spec: the class [ssz.hash_tree.HashTree] is missing
    from the sources.  The spec describes a padded binary Merkle tree of depth
    [d = ⌈log₂(max(chunk_count, 1))⌉] over a chunk vector, whose missing leaves
    are [ZERO_CHUNK] and whose missing nodes are the zero-hashes
    [Z[k] = H(Z[k-1] ‖ Z[k-1])]; [compute] treats an empty input as
    [[ZERO_CHUNK]] and refuses more chunks than the capacity; [mset] replaces
    chunks at positions inside the chunk vector; [extend] appends chunks up to
    the capacity [2^d].  The tree is represented by what determines it, its
    chunk vector and its capacity, and the root is computed from them. *)
Record HashTree : Type := {
  ht_chunks : list bytes;
  ht_chunk_count : Z;
}.

(** Modelled from the spec: the depth [⌈log₂(max(chunk_count, 1))⌉]. *)
Definition ht_depth (chunk_count : Z) : nat :=
  Z.to_nat (Z.log2_up (Z.max chunk_count 1)).

(** Modelled from the spec: the root of the padded tree of the given depth
    over the chunks; an empty subtree of height [k] hashes to [Z[k]]. *)
Fixpoint merkle_root `{Hasher} (depth : nat) (chunks : list bytes) : bytes :=
  match depth with
  | O => match chunks with
         | chunk :: _ => chunk
         | [] => ZERO_BYTES32
         end
  | S depth' =>
      hash_eth2 (merkle_root depth' (take (2 ^ depth')%nat chunks)
                 ++ merkle_root depth' (drop (2 ^ depth')%nat chunks))
  end.

(** Modelled from the spec: [HashTree.root]. *)
Definition HashTree_root `{Hasher} (tree : HashTree) : bytes :=
  merkle_root (ht_depth (ht_chunk_count tree)) (ht_chunks tree).

(** Modelled from the spec: [HashTree.compute(chunks, chunk_count)]; the
    spec's [CapacityExceeded] is raised as [ValueError]. *)
Definition HashTree_compute (chunks : list bytes) (chunk_count : Z) : Result HashTree :=
  let chunks := match chunks with [] => [ZERO_BYTES32] | _ :: _ => chunks end in
  if Z.max chunk_count 1 <? len chunks then Raise ValueError
  else Ok {| ht_chunks := chunks; ht_chunk_count := chunk_count |}.

(** Modelled from the spec: [HashTree.mset], given the list of its
    (index, chunk) pairs; an index outside the chunk vector raises
    [IndexError]. *)
Definition HashTree_mset (tree : HashTree) (pairs : list (Z * bytes)) : Result HashTree :=
  let* chunks :=
    fold_left
      (fun acc kv =>
         let* chunks := acc in
         if (0 <=? fst kv) && (fst kv <? len chunks)
         then Ok (<[Z.to_nat (fst kv) := snd kv]> chunks)
         else Raise IndexError)
      pairs (Ok (ht_chunks tree)) in
  Ok {| ht_chunks := chunks; ht_chunk_count := ht_chunk_count tree |}.

(** Modelled from the spec: [HashTree.extend(new_chunks)]; the spec's
    [CapacityExceeded] is raised as [ValueError]. *)
Definition HashTree_extend (tree : HashTree) (new_chunks : list bytes) : Result HashTree :=
  let chunks := ht_chunks tree ++ new_chunks in
  if 2 ^ Z.of_nat (ht_depth (ht_chunk_count tree)) <? len chunks then Raise ValueError
  else Ok {| ht_chunks := chunks; ht_chunk_count := ht_chunk_count tree |}.

(** ** Sedes, structures, evolvers and the heap *)

(** What the code uses of a composite sedes ([ssz.sedes], an external
    collaborator): the leaf bytes of an element and the leaf capacity. *)
Record Sedes (TElement : Type) : Type := {
  serialize_element_for_tree : Z → TElement → bytes;
  chunk_count : Z;
}.

Arguments serialize_element_for_tree {TElement} _ _ _.
Arguments chunk_count {TElement} _.

(** The two concrete classes: [HashableVector] derives from
    [BaseHashableStructure], [HashableList] from
    [BaseResizableHashableStructure]. *)
Inductive StructureClass : Type :=
| HashableVector
| HashableList.

(** An object of class [BaseHashableStructure]: the three attributes set by
    [__init__] and never assigned again. *)
Record Structure (TElement : Type) : Type := {
  __class__ : StructureClass;
  _elements : list TElement;
  _hash_tree : HashTree;
  _sedes : Sedes TElement;
}.

Arguments __class__ {TElement} _.
Arguments _elements {TElement} _.
Arguments _hash_tree {TElement} _.
Arguments _sedes {TElement} _.

Inductive EvolverClass : Type :=
| HashableStructureEvolver
| ResizableHashableStructureEvolver.

(** Heap locations. *)
Abbreviation loc := nat (only parsing).

(** An evolver object.  Its dictionary and its list are created by
    [__init__] and referred to by nothing else, so they are stored in the
    evolver's cell. *)
Record Evolver (TElement : Type) : Type := {
  evolver_class : EvolverClass;
  _original_structure : loc;
  _updated_elements : PyDict TElement;
  _appended_elements : list TElement;
}.

Arguments evolver_class {TElement} _.
Arguments _original_structure {TElement} _.
Arguments _updated_elements {TElement} _.
Arguments _appended_elements {TElement} _.

Record Heap (TElement : Type) : Type := {
  structures : list (Structure TElement);
  evolvers : list (Evolver TElement);
}.

Arguments structures {TElement} _.
Arguments evolvers {TElement} _.

(** The variadic arguments of [mset]: indices and values in turn, each tagged
    with its role ([Union[int, TElement]] in the signature). *)
Inductive MsetArg (TElement : Type) : Type :=
| ArgIndex (index : Z)
| ArgValue (value : TElement).

Arguments ArgIndex {TElement} index.
Arguments ArgValue {TElement} value.

(** [partition(2, args)]: consecutive pairs, an incomplete last one dropped. *)
Fixpoint partition2 {A : Type} (args : list A) : list (A * A) :=
  match args with
  | a :: b :: rest => (a, b) :: partition2 rest
  | _ => []
  end.

(** *** The monad of heap computations that may raise *)

Definition M (TElement A : Type) : Type :=
  Heap TElement → Result A * Heap TElement.

Definition ret {TElement A : Type} (a : A) : M TElement A :=
  fun h => (Ok a, h).

Definition raise {TElement A : Type} (e : PyError) : M TElement A :=
  fun h => (Raise e, h).

Definition lift {TElement A : Type} (r : Result A) : M TElement A :=
  fun h => (r, h).

Definition bind {TElement A B : Type} (m : M TElement A) (k : A → M TElement B)
  : M TElement B :=
  fun h =>
    match m h with
    | (Ok a, h') => k a h'
    | (Raise e, h') => (Raise e, h')
    end.

Notation "'let!' x ':=' m 'in' k" := (bind m (fun x => k))
  (at level 10, x name, m at level 200, k at level 200, only parsing).

Fixpoint for_each {TElement A : Type} (body : A → M TElement unit) (seq : list A)
  : M TElement unit :=
  match seq with
  | [] => ret tt
  | x :: rest => let! _ := body x in for_each body rest
  end.

(** What a client can call on an evolver it holds. *)
Inductive EvolverCall (TElement : Type) : Type :=
| CallGetitem (index : Z)
| CallSetitem (index : Z) (element : TElement)
| CallLen
| CallIsDirty
| CallPersistent
| CallAppend (element : TElement)
| CallExtend (elements : list TElement).

Arguments CallGetitem {TElement} index.
Arguments CallSetitem {TElement} index element.
Arguments CallLen {TElement}.
Arguments CallIsDirty {TElement}.
Arguments CallPersistent {TElement}.
Arguments CallAppend {TElement} element.
Arguments CallExtend {TElement} elements.

Section Operations.

Context {TElement : Type}.

(** *** Heap cells *)

Definition get_structure (l : loc) : M TElement (Structure TElement) :=
  fun h =>
    (match structures h !! l with
     | Some s => Ok s
     | None => Raise DanglingReference
     end, h).

Definition get_evolver (l : loc) : M TElement (Evolver TElement) :=
  fun h =>
    (match evolvers h !! l with
     | Some e => Ok e
     | None => Raise DanglingReference
     end, h).

Definition new_structure (s : Structure TElement) : M TElement loc :=
  fun h =>
    (Ok (length (structures h)),
     {| structures := structures h ++ [s]; evolvers := evolvers h |}).

Definition new_evolver (e : Evolver TElement) : M TElement loc :=
  fun h =>
    (Ok (length (evolvers h)),
     {| structures := structures h; evolvers := evolvers h ++ [e] |}).

Definition put_evolver (l : loc) (e : Evolver TElement) : M TElement unit :=
  fun h =>
    (Ok tt, {| structures := structures h; evolvers := <[l := e]> (evolvers h) |}).

(** *** [BaseHashableStructure] (lines 174-250) *)

(** [cls(elements, hash_tree, sedes)] *)
Definition Structure_init (cls : StructureClass) (elements : list TElement)
  (hash_tree : HashTree) (sedes : Sedes TElement) : M TElement loc :=
  new_structure {| __class__ := cls; _elements := elements;
                   _hash_tree := hash_tree; _sedes := sedes |}.

Definition from_iterable (cls : StructureClass) (iterable : list TElement)
  (sedes : Sedes TElement) : M TElement loc :=
  let elements := iterable in
  let serialized_elements :=
    map (fun item => serialize_element_for_tree sedes (fst item) (snd item))
        (enumerate elements 0) in
  let! appended_chunks :=
    lift (call_get_appended_chunks [ArgSeq serialized_elements; ArgInt 0; ArgInt 0]) in
  let! hash_tree :=
    lift (HashTree_compute
            (match appended_chunks with [] => [ZERO_BYTES32] | _ :: _ => appended_chunks end)
            (chunk_count sedes)) in
  Structure_init cls elements hash_tree sedes.

Definition elements (self : loc) : M TElement (list TElement) :=
  let! s := get_structure self in ret (_elements s).

Definition hash_tree (self : loc) : M TElement HashTree :=
  let! s := get_structure self in ret (_hash_tree s).

Definition chunks (self : loc) : M TElement (list bytes) :=
  let! tree := hash_tree self in ret (ht_chunks tree).

Definition raw_root `{Hasher} (self : loc) : M TElement bytes :=
  let! tree := hash_tree self in ret (HashTree_root tree).

Definition sedes (self : loc) : M TElement (Sedes TElement) :=
  let! s := get_structure self in ret (_sedes s).

(** [__len__] *)
Definition Structure_len (self : loc) : M TElement Z :=
  let! elems := elements self in ret (len elems).

(** [__getitem__] *)
Definition Structure_getitem (self : loc) (index : Z) : M TElement TElement :=
  let! elems := elements self in lift (getitem elems index).

(** *** [HashableStructureEvolver] (lines 253-325) and
    [ResizableHashableStructureEvolver] (lines 362-369) *)

(** [__init__] *)
Definition Evolver_init (cls : EvolverClass) (hashable_structure : loc) : M TElement loc :=
  new_evolver {| evolver_class := cls;
                 _original_structure := hashable_structure;
                 _updated_elements := [];
                 _appended_elements := [] |}.

(** [__getitem__] *)
Definition Evolver_getitem (self : loc) (index : Z) : M TElement TElement :=
  let! ev := get_evolver self in
  if dict_contains (_updated_elements ev) index
  then lift (dict_getitem (_updated_elements ev) index)
  else Structure_getitem (_original_structure ev) index.

(** [__len__] *)
Definition Evolver_len (self : loc) : M TElement Z :=
  let! ev := get_evolver self in Structure_len (_original_structure ev).

(** [__setitem__] *)
Definition Evolver_setitem (self : loc) (index : Z) (element : TElement)
  : M TElement unit :=
  let! n := Evolver_len self in
  if (0 <=? index) && (index <? n)
  then
    let! ev := get_evolver self in
    put_evolver self {| evolver_class := evolver_class ev;
                        _original_structure := _original_structure ev;
                        _updated_elements := dict_set (_updated_elements ev) index element;
                        _appended_elements := _appended_elements ev |}
  else raise IndexError.

Definition Evolver_set (self : loc) (index : Z) (element : TElement) : M TElement unit :=
  Evolver_setitem self index element.

Definition Evolver_is_dirty (self : loc) : M TElement bool :=
  let! ev := get_evolver self in
  ret (match _updated_elements ev with
       | _ :: _ => true
       | [] => match _appended_elements ev with _ :: _ => true | [] => false end
       end).

Definition Evolver_persistent (self : loc) : M TElement loc :=
  let! dirty := Evolver_is_dirty self in
  let! ev := get_evolver self in
  let original := _original_structure ev in
  if negb dirty then ret original
  else
    let! original_sedes := sedes original in
    let updated_elements :=
      map (fun item =>
             (fst item, serialize_element_for_tree original_sedes (fst item) (snd item)))
          (dict_items (_updated_elements ev)) in
    let! original_len := Structure_len original in
    let appended_elements :=
      map (fun item => serialize_element_for_tree original_sedes (fst item) (snd item))
          (enumerate (_appended_elements ev) original_len) in
    let! original_tree := hash_tree original in
    let! updated_chunks :=
      lift (call_get_updated_chunks
              [ArgDict updated_elements; ArgSeq appended_elements;
               ArgSeq (ht_chunks original_tree); ArgInt original_len]) in
    let! appended_chunks :=
      lift (call_get_appended_chunks
              [ArgSeq appended_elements; ArgInt (len (ht_chunks original_tree));
               ArgInt original_len]) in
    let! original_elements := elements original in
    let! updated := lift (pvector_mset original_elements (dict_items (_updated_elements ev))) in
    let new_elements := pvector_extend updated (_appended_elements ev) in
    let! updated_tree := lift (HashTree_mset original_tree (dict_items updated_chunks)) in
    let! new_tree := lift (HashTree_extend updated_tree appended_chunks) in
    let! original_object := get_structure original in
    Structure_init (__class__ original_object) new_elements new_tree original_sedes.

(** [append] and [extend] exist on the resizable evolver only; on the base
    class the attribute lookup fails. *)
Definition ResizableEvolver_extend (self : loc) (elements : list TElement)
  : M TElement unit :=
  let! ev := get_evolver self in
  match evolver_class ev with
  | HashableStructureEvolver => raise AttributeError
  | ResizableHashableStructureEvolver =>
      put_evolver self {| evolver_class := evolver_class ev;
                          _original_structure := _original_structure ev;
                          _updated_elements := _updated_elements ev;
                          _appended_elements := _appended_elements ev ++ elements |}
  end.

Definition ResizableEvolver_append (self : loc) (element : TElement) : M TElement unit :=
  ResizableEvolver_extend self [element].

(** *** [evolver], [mset], [set] *)

(** [evolver()]: [BaseResizableHashableStructure] overrides the method of
    [BaseHashableStructure]. *)
Definition Structure_evolver (self : loc) : M TElement loc :=
  let! s := get_structure self in
  match __class__ s with
  | HashableVector => Evolver_init HashableStructureEvolver self
  | HashableList => Evolver_init ResizableHashableStructureEvolver self
  end.

(** [mset]: a pair of arguments that is not an index followed by a value is a
    use outside the signature and ends in [TypeError] here. *)
Definition Structure_mset (self : loc) (args : list (MsetArg TElement)) : M TElement loc :=
  if negb (len args mod 2 =? 0) then raise TypeError
  else
    let! evolver := Structure_evolver self in
    let! _ :=
      for_each (fun pair =>
                  match pair with
                  | (ArgIndex index, ArgValue value) => Evolver_setitem evolver index value
                  | _ => raise TypeError
                  end)
               (partition2 args) in
    Evolver_persistent evolver.

Definition Structure_set (self : loc) (index : Z) (value : TElement) : M TElement loc :=
  Structure_mset self [ArgIndex index; ArgValue value].

(** *** [BaseResizableHashableStructure] (lines 328-359) *)

(** The methods below are attributes of resizable structures only. *)
Definition resizable_method (self : loc) : M TElement unit :=
  let! s := get_structure self in
  match __class__ s with
  | HashableList => ret tt
  | HashableVector => raise AttributeError
  end.

Definition Resizable_append (self : loc) (value : TElement) : M TElement loc :=
  let! _ := resizable_method self in
  let! evolver := Structure_evolver self in
  let! _ := ResizableEvolver_append evolver value in
  Evolver_persistent evolver.

Definition Resizable_extend (self : loc) (values : list TElement) : M TElement loc :=
  let! _ := resizable_method self in
  let! evolver := Structure_evolver self in
  let! _ := ResizableEvolver_extend evolver values in
  Evolver_persistent evolver.

(** [__add__] *)
Definition Resizable_add (self : loc) (values : list TElement) : M TElement loc :=
  Resizable_extend self values.

(** [__mul__], with the concatenation [self + self] left open so that the
    recursion can be read on its own: [frames] is [times] as a natural number,
    [0] standing for every [times <= 0]. *)
Fixpoint mul_frames (add_self : loc → M TElement loc) (frames : nat) (self : loc)
  : M TElement loc :=
  match frames with
  | O => raise ValueError
  | S O => ret self
  | S (S _ as frames') =>
      let! doubled := add_self self in mul_frames add_self frames' doubled
  end.

(** [self + self]: the right operand is iterated over, which reads its
    elements. *)
Definition Resizable_add_self (self : loc) : M TElement loc :=
  let! values := elements self in Resizable_add self values.

Definition Resizable_mul (self : loc) (times : Z) : M TElement loc :=
  let! _ := resizable_method self in
  mul_frames Resizable_add_self (Z.to_nat times) self.

(** *** Roots ([ssz/hashable_list.py], [ssz/hashable_vector.py]) *)

Definition HashableList_root `{Hasher} (self : loc) : M TElement bytes :=
  let! r := raw_root self in
  let! n := Structure_len self in
  ret (mix_in_length r n).

Definition HashableVector_root `{Hasher} (self : loc) : M TElement bytes :=
  raw_root self.

Definition root `{Hasher} (self : loc) : M TElement bytes :=
  let! s := get_structure self in
  match __class__ s with
  | HashableList => HashableList_root self
  | HashableVector => HashableVector_root self
  end.

(** *** Clients of an evolver

    A client holds an evolver and calls its methods one after another; a
    raised exception may be caught, so the calls go on after it. *)
Definition do_call (evolver : loc) (call : EvolverCall TElement) : M TElement unit :=
  match call with
  | CallGetitem index => let! _ := Evolver_getitem evolver index in ret tt
  | CallSetitem index element => Evolver_setitem evolver index element
  | CallLen => let! _ := Evolver_len evolver in ret tt
  | CallIsDirty => let! _ := Evolver_is_dirty evolver in ret tt
  | CallPersistent => let! _ := Evolver_persistent evolver in ret tt
  | CallAppend element => ResizableEvolver_append evolver element
  | CallExtend elements => ResizableEvolver_extend evolver elements
  end.

Fixpoint run_calls (evolver : loc) (calls : list (EvolverCall TElement))
  (h : Heap TElement) : Heap TElement :=
  match calls with
  | [] => h
  | call :: rest => run_calls evolver rest (snd (do_call evolver call h))
  end.

End Operations.

(** ** Vocabulary of the statements *)

(** [result] is [chunk] with the [index]-th slot of [len element] bytes
    replaced by [element] and every other byte unchanged. *)
Definition slot_replaced (chunk : bytes) (index : Z) (element result : bytes) : Prop :=
  length result = length chunk ∧
  ∀ j : nat, (j < length chunk)%nat →
    result !! j =
      if decide (index * len element ≤ Z.of_nat j < (index + 1) * len element)
      then element !! Z.to_nat (Z.of_nat j - index * len element)
      else chunk !! j.

(** From [h] to [h']: every structure of [h] is still there, at its location
    and with its contents, and every evolver of [h] is still an evolver of the
    same class over the same structure. *)
Definition heap_step {TElement : Type} (h h' : Heap TElement) : Prop :=
  structures h `prefix_of` structures h'
  ∧ ∀ e ev, evolvers h !! e = Some ev →
      ∃ ev', evolvers h' !! e = Some ev'
             ∧ _original_structure ev' = _original_structure ev
             ∧ evolver_class ev' = evolver_class ev.

Definition preserves {TElement A : Type} (m : M TElement A) : Prop :=
  ∀ h, heap_step h (snd (m h)).

Definition readonly {TElement A : Type} (m : M TElement A) : Prop :=
  ∀ h, snd (m h) = h.

(** The read of an evolver as the spec words it (section 4.6, [get]): the
    pending update, else the original element, else the pending append at
    [index - len(original)], else [IndexOutOfRange]. *)
Definition spec_get {TElement : Type} (original : list TElement)
  (updated : PyDict TElement) (appended : list TElement) (index : Z) : Result TElement :=
  match dict_get updated index with
  | Some element => Ok element
  | None =>
      if (0 <=? index) && (index <? len original) then getitem original index
      else if (len original <=? index) && (index <? len original + len appended)
           then getitem appended (index - len original)
           else Raise IndexError
  end.

(** A concatenation [self + self] that returns a structure holding the
    elements of [self] twice. *)
Definition doubles_elements {TElement : Type} (add_self : loc → M TElement loc) : Prop :=
  ∀ h l s, structures h !! l = Some s →
    ∃ l' s' h', add_self l h = (Ok l', h')
                ∧ structures h' !! l' = Some s'
                ∧ _elements s' = _elements s ++ _elements s.

(** [l] with each update [(k, v)] written at index [k], in order: what
    [mset] does to an element sequence or a chunk vector when every index is
    in range. *)
Definition insert_all {A : Type} (l : list A) (updates : list (Z * A)) : list A :=
  fold_left (fun acc kv => <[Z.to_nat (fst kv) := snd kv]> acc) updates l.

(** The chunks of an element sequence built from scratch, as [from_iterable]
    computes them when [get_appended_chunks] is called with its two
    parameters: [get_appended_chunks(serialized_elements, 0) or [ZERO_BYTES32]]. *)
Definition packed_chunks (serialized_elements : list (list byte)) : Result (list (list byte)) :=
  let* appended_chunks := get_appended_chunks serialized_elements 0 in
  Ok (match appended_chunks with [] => [ZERO_BYTES32] | _ :: _ => appended_chunks end).

(** The loop of [get_updated_chunks], once the effective updates and the
    number of elements per chunk are known. *)
Definition updated_chunks_loop (effective_updated_elements : list (Z * list byte))
  (original_chunks : list (list byte)) (elements_per_chunk : Z)
  : Result (list (Z * list byte)) :=
  let* element_indices_by_chunk :=
    groupby (fun element_index => floordiv element_index elements_per_chunk)
            (dict_keys effective_updated_elements) in
  let* updated :=
    mapM (fun group : Z * list Z =>
            let chunk_index := fst group in
            let* chunk_updates :=
              mapM (fun element_index =>
                      let* slot := pymod element_index elements_per_chunk in
                      let* element :=
                        dict_getitem effective_updated_elements element_index in
                      Ok (slot, element))
                   (snd group) in
            let* original_chunk := getitem original_chunks chunk_index in
            let* updated_chunk :=
              update_elements_in_chunk original_chunk (dict_of_items chunk_updates) in
            Ok (chunk_index, updated_chunk))
         (dict_items element_indices_by_chunk) in
  Ok (dict_of_items updated).

(** The slot updates of one chunk: the elements of the group, each at its
    slot. *)
Definition group_slot_updates (effective : list (Z * list byte)) (per_chunk : Z)
  (items : list Z) : list (Z * list byte) :=
  map (fun j => (j mod per_chunk, default [] (dict_get effective j))) items.

(** The slots of the chunk of one group after its updates. *)
Definition updated_group (effective : list (Z * list byte)) (per_chunk : Z)
  (groups : list (list (list byte))) (group : Z * list Z) : Z * list (list byte) :=
  (fst group,
   insert_all (default [] (groups !! Z.to_nat (fst group)))
              (group_slot_updates effective per_chunk (snd group))).

(** ** A concrete instance: a list of [uint128] *)

(** The sedes of a list of at most [max_length] 16-byte unsigned integers. *)
Definition uint128_list (max_length : Z) : Sedes Z :=
  {| serialize_element_for_tree := fun _ value => to_bytes_little 16 value;
     chunk_count := (max_length * 16 + 31) / 32 |}.

(** A stand-in for SHA-256 where a statement has to be evaluated. *)
Definition example_hasher : Hasher :=
  fun data => take 32 (rev data ++ ZERO_BYTES32).

(** The list [[7]] with [max_length = 4]: one chunk out of two. *)
Definition example_list : Structure Z :=
  {| __class__ := HashableList;
     _elements := [7];
     _hash_tree := {| ht_chunks := [to_bytes_little 16 7 ++ replicate 16 x00];
                      ht_chunk_count := 2 |};
     _sedes := uint128_list 4 |}.

Definition example_heap : Heap Z :=
  {| structures := [example_list]; evolvers := [] |}.

(** [e = s.evolver(); e[0] = 9] *)
Definition example_heap_updated : Heap Z :=
  snd ((let! evolver := Structure_evolver 0%nat in
        Evolver_setitem evolver 0 9) example_heap).

(** [e = s.evolver(); e.append(8)] *)
Definition example_heap_appended : Heap Z :=
  snd ((let! evolver := Structure_evolver 0%nat in
        ResizableEvolver_append evolver 8) example_heap).

(** [e = s.evolver()] *)
Definition example_heap_evolver : Heap Z :=
  snd (Structure_evolver 0%nat example_heap).

(** [e = s.evolver(); e.append(8); e[1]] *)
Definition read_staged_append : M Z Z :=
  let! evolver := Structure_evolver 0%nat in
  let! _ := ResizableEvolver_append evolver 8 in
  Evolver_getitem evolver 1.

(** [e = s.evolver(); e.append(8); e[1] = 9] *)
Definition set_staged_append : M Z unit :=
  let! evolver := Structure_evolver 0%nat in
  let! _ := ResizableEvolver_append evolver 8 in
  Evolver_setitem evolver 1 9.

(** A concatenation that succeeds, to read the recursion of [__mul__] apart
    from [persistent]: the new structure holds the elements of [self] twice;
    its tree is not read by the statements that use it. *)
Definition concat_self {TElement : Type} (self : loc) : M TElement loc :=
  let! s := get_structure self in
  Structure_init (__class__ s) (pvector_extend (_elements s) (_elements s))
                 (_hash_tree s) (_sedes s).

(** Serialized [uint128] values of the spec's scenarios. *)
Definition A16 : bytes := replicate 16 xaa.
Definition B16 : bytes := replicate 16 xbb.
Definition C16 : bytes := replicate 16 xcc.
Definition D16 : bytes := replicate 16 xdd.
Definition E16 : bytes := replicate 16 xee.

(** ** Vocabulary of the statements on evolver calls and on [mset] *)

(** The value of the last accepted assignment [e[index] = v] among [calls],
    for an evolver over a structure of [n] elements: an assignment is accepted
    when [0 <= index < n]. *)
Fixpoint last_set {TElement : Type} (n : Z) (calls : list (EvolverCall TElement))
  (index : Z) : option TElement :=
  match calls with
  | [] => None
  | call :: rest =>
      match last_set n rest index with
      | Some v => Some v
      | None =>
          match call with
          | CallSetitem i v =>
              if (i =? index) && ((0 <=? i) && (i <? n)) then Some v else None
          | _ => None
          end
      end
  end.

(** The elements handed to [append] and [extend] among [calls], in the order
    of the calls. *)
Definition staged_appends {TElement : Type} (calls : list (EvolverCall TElement))
  : list TElement :=
  flat_map (fun call => match call with
                        | CallAppend element => [element]
                        | CallExtend elements => elements
                        | _ => []
                        end) calls.

(** The class of evolver that [evolver()] returns for a structure. *)
Definition evolver_class_of (cls : StructureClass) : EvolverClass :=
  match cls with
  | HashableVector => HashableStructureEvolver
  | HashableList => ResizableHashableStructureEvolver
  end.

(** The cell of an evolver over a structure of [n] elements after one call:
    what [__setitem__], [append] and [extend] write; the other calls write
    nothing. *)
Definition cell_after {TElement : Type} (n : Z) (ev : Evolver TElement)
  (call : EvolverCall TElement) : Evolver TElement :=
  match call with
  | CallSetitem index element =>
      if (0 <=? index) && (index <? n)
      then {| evolver_class := evolver_class ev;
              _original_structure := _original_structure ev;
              _updated_elements := dict_set (_updated_elements ev) index element;
              _appended_elements := _appended_elements ev |}
      else ev
  | CallAppend element =>
      match evolver_class ev with
      | HashableStructureEvolver => ev
      | ResizableHashableStructureEvolver =>
          {| evolver_class := evolver_class ev;
             _original_structure := _original_structure ev;
             _updated_elements := _updated_elements ev;
             _appended_elements := _appended_elements ev ++ [element] |}
      end
  | CallExtend elements =>
      match evolver_class ev with
      | HashableStructureEvolver => ev
      | ResizableHashableStructureEvolver =>
          {| evolver_class := evolver_class ev;
             _original_structure := _original_structure ev;
             _updated_elements := _updated_elements ev;
             _appended_elements := _appended_elements ev ++ elements |}
      end
  | _ => ev
  end.

(** The arguments of [mset(i1, v1, i2, v2, ...)]. *)
Definition mset_args {TElement : Type} (pairs : list (Z * TElement))
  : list (MsetArg TElement) :=
  flat_map (fun pair => [ArgIndex (fst pair); ArgValue (snd pair)]) pairs.

(** Calls on an evolver of the list [[7]]: two assignments to index 0, one
    out of range, and three staged appends. *)
Definition example_calls : list (EvolverCall Z) :=
  [CallSetitem 0 9; CallAppend 8; CallSetitem 1 5; CallSetitem 0 4; CallPersistent;
   CallExtend [2; 3]; CallGetitem 0].

(** ** Serialization ([ssz/sedes]) *)

(** [seq[start:stop]]: negative bounds count from the end and bounds outside
    the sequence are clamped. *)
Definition slice {A : Type} (seq : list A) (start stop : Z) : list A :=
  let clamp := fun i => if i <? 0 then Z.max (i + len seq) 0 else Z.min i (len seq) in
  take (Z.to_nat (clamp stop - clamp start)) (drop (Z.to_nat (clamp start)) seq).

(** The exceptions of the serialization modules: built-in ones, the two
    classes of [ssz.exceptions], and the plain [Exception] raised for a broken
    invariant. *)
Inductive Exc : Type :=
| Builtin (e : PyError)
| DeserializationError
| SerializationError
| InvariantException
| RuntimeError.

Inductive Outcome (A : Type) : Type :=
| Returns (a : A)
| Raises (e : Exc).

Arguments Returns {A} a.
Arguments Raises {A} e.

Definition obind {A B : Type} (r : Outcome A) (k : A → Outcome B) : Outcome B :=
  match r with
  | Returns a => k a
  | Raises e => Raises e
  end.

Notation "'let+' x ':=' r 'in' k" := (obind r (fun x => k))
  (at level 10, x name, r at level 200, k at level 200, only parsing).

(** A generator expression consumed in order: stops at the first raise. *)
Fixpoint omapM {A B : Type} (f : A → Outcome B) (seq : list A) : Outcome (list B) :=
  match seq with
  | [] => Returns []
  | x :: rest => let+ y := f x in let+ ys := omapM f rest in Returns (y :: ys)
  end.

(** *** [ssz/sedes/base.py] and [ssz/sedes/tuple.py] *)

Module SedesBase.

(** *** [BaseSedes] (lines 29-81) *)

(** The abstract methods of [BaseSedes], as the record of their
    implementations; tree hashing is left out. *)
Record BaseSedes (TSerializable TDeserialized : Type) : Type := {
  serialize : TSerializable → Outcome bytes;
  deserialize_segment : bytes → Z → Outcome (TDeserialized * Z);
  is_variable_length : bool;
  get_fixed_length : Outcome Z;
}.

Arguments serialize {TSerializable TDeserialized} _ _.
Arguments deserialize_segment {TSerializable TDeserialized} _ _ _.
Arguments is_variable_length {TSerializable TDeserialized} _.
Arguments get_fixed_length {TSerializable TDeserialized} _.

Definition deserialize {TSerializable TDeserialized : Type}
  (self : BaseSedes TSerializable TDeserialized) (data : bytes) : Outcome TDeserialized :=
  let+ segment := deserialize_segment self data 0 in
  let value := fst segment in
  let end_index := snd segment in
  let num_leftover_bytes := len data - end_index in
  if num_leftover_bytes >? 0 then Raises DeserializationError
  else if num_leftover_bytes <? 0 then Raises InvariantException
  else Returns value.

Definition consume_bytes (data : bytes) (start_index num_bytes : Z) : Outcome (bytes * Z) :=
  if start_index <? 0 then Raises (Builtin ValueError)
  else if num_bytes <? 0 then Raises (Builtin ValueError)
  else if start_index + num_bytes >? len data then Raises DeserializationError
  else
    let continuation_index := start_index + num_bytes in
    Returns (slice data start_index (start_index + num_bytes), continuation_index).

(** *** [BasicSedes] (lines 84-129) *)

(** An object of a concrete subclass of [BasicSedes]: the attribute set by
    [__init__] and the two methods the subclass defines. *)
Record BasicSedes (TSerializable TDeserialized : Type) : Type := {
  sedes_length : Z;
  serialize_content : TSerializable → Outcome bytes;
  deserialize_content : bytes → Outcome TDeserialized;
}.

Arguments sedes_length {TSerializable TDeserialized} _.
Arguments serialize_content {TSerializable TDeserialized} _ _.
Arguments deserialize_content {TSerializable TDeserialized} _ _.

(** [__init__] *)
Definition BasicSedes_init {TSerializable TDeserialized : Type} (length : Z)
  (serialize_content : TSerializable → Outcome bytes)
  (deserialize_content : bytes → Outcome TDeserialized)
  : Outcome (BasicSedes TSerializable TDeserialized) :=
  if length <=? 0 then Raises (Builtin ValueError)
  else Returns {| sedes_length := length;
                  serialize_content := serialize_content;
                  deserialize_content := deserialize_content |}.

Definition Basic_serialize {TSerializable TDeserialized : Type}
  (self : BasicSedes TSerializable TDeserialized) (value : TSerializable) : Outcome bytes :=
  serialize_content self value.

Definition Basic_deserialize_segment {TSerializable TDeserialized : Type}
  (self : BasicSedes TSerializable TDeserialized) (data : bytes) (start_index : Z)
  : Outcome (TDeserialized * Z) :=
  let+ consumed := consume_bytes data start_index (sedes_length self) in
  let content := fst consumed in
  let continuation_index := snd consumed in
  let+ value := deserialize_content self content in
  Returns (value, continuation_index).

(** A basic sedes seen through the interface of [BaseSedes]. *)
Definition Basic_sedes {TSerializable TDeserialized : Type}
  (self : BasicSedes TSerializable TDeserialized) : BaseSedes TSerializable TDeserialized :=
  {| serialize := Basic_serialize self;
     deserialize_segment := Basic_deserialize_segment self;
     is_variable_length := false;
     get_fixed_length := Returns (sedes_length self) |}.

(** *** [CompositeSedes] (lines 132-167) *)

(** An object of a concrete subclass of [CompositeSedes]: what the subclass
    defines. *)
Record CompositeSedes (TSerializable TDeserialized : Type) : Type := {
  composite_serialize_content : TSerializable → Outcome bytes;
  composite_deserialize_content : bytes → Outcome TDeserialized;
  composite_is_variable_length : bool;
  composite_get_fixed_length : Outcome Z;
}.

Arguments composite_serialize_content {TSerializable TDeserialized} _ _.
Arguments composite_deserialize_content {TSerializable TDeserialized} _ _.
Arguments composite_is_variable_length {TSerializable TDeserialized} _.
Arguments composite_get_fixed_length {TSerializable TDeserialized} _.

Section Composite.

(** [ssz.constants.LENGTH_PREFIX_SIZE], [ssz.utils.validate_content_length]
    and [ssz.utils.get_length_prefix] are not among the sources: they are
    parameters. *)
Variable LENGTH_PREFIX_SIZE : Z.
Variable validate_content_length : bytes → Outcome unit.
Variable get_length_prefix : bytes → Outcome bytes.

Context {TSerializable TDeserialized : Type}.

Definition Composite_serialize (self : CompositeSedes TSerializable TDeserialized)
  (value : TSerializable) : Outcome bytes :=
  let+ content := composite_serialize_content self value in
  if negb (composite_is_variable_length self) then Returns content
  else
    let+ _ := validate_content_length content in
    let+ length_prefix := get_length_prefix content in
    Returns (length_prefix ++ content).

Definition Composite_deserialize_segment (self : CompositeSedes TSerializable TDeserialized)
  (data : bytes) (start_index : Z) : Outcome (TDeserialized * Z) :=
  if negb (composite_is_variable_length self) then
    let+ content_size := composite_get_fixed_length self in
    let+ consumed := consume_bytes data start_index content_size in
    let content := fst consumed in
    let continuation_index := snd consumed in
    let+ value := composite_deserialize_content self content in
    Returns (value, continuation_index)
  else
    let+ consumed_prefix := consume_bytes data start_index LENGTH_PREFIX_SIZE in
    let prefix := fst consumed_prefix in
    let content_start_index := snd consumed_prefix in
    let length := from_bytes_little prefix in
    let+ consumed := consume_bytes data content_start_index length in
    let content := fst consumed in
    let continuation_index := snd consumed in
    let+ value := composite_deserialize_content self content in
    Returns (value, continuation_index).

(** A composite sedes seen through the interface of [BaseSedes]. *)
Definition Composite_sedes (self : CompositeSedes TSerializable TDeserialized)
  : BaseSedes TSerializable TDeserialized :=
  {| serialize := Composite_serialize self;
     deserialize_segment := Composite_deserialize_segment self;
     is_variable_length := composite_is_variable_length self;
     get_fixed_length := composite_get_fixed_length self |}.

End Composite.

(** *** [Tuple] ([ssz/sedes/tuple.py]) *)

Record Tuple (TSerializableElement TDeserializedElement : Type) : Type := {
  number_of_elements : Z;
  element_sedes : BaseSedes TSerializableElement TDeserializedElement;
}.

Arguments number_of_elements {TSerializableElement TDeserializedElement} _.
Arguments element_sedes {TSerializableElement TDeserializedElement} _.

Section TupleMethods.

Context {TSerializableElement TDeserializedElement : Type}.
Implicit Types self : Tuple TSerializableElement TDeserializedElement.

(** The value is a sequence of elements: the [isinstance] test that turns
    away [bytes], [bytearray] and [str] is decided by its type. *)
Definition Tuple_serialize_content self (value : list TSerializableElement)
  : Outcome bytes :=
  if negb (len value =? number_of_elements self) then Raises SerializationError
  else
    let+ parts := omapM (serialize (element_sedes self)) value in
    Returns (concat parts).

(** The loop [for element_index in range(self.number_of_elements)]; [count]
    is the number of iterations left.  Returns the elements yielded and the
    final [element_start_index]. *)
Fixpoint Tuple_deserialize_elements self (content : bytes) (count : nat)
  (element_start_index : Z) : Outcome (list TDeserializedElement * Z) :=
  match count with
  | O => Returns ([], element_start_index)
  | S count' =>
      let+ segment := deserialize_segment (element_sedes self) content element_start_index in
      let element := fst segment in
      let next_element_start_index := snd segment in
      if next_element_start_index <=? element_start_index then Raises InvariantException
      else
        let+ rest := Tuple_deserialize_elements self content count' next_element_start_index in
        Returns (element :: fst rest, snd rest)
  end.

Definition Tuple_deserialize_content self (content : bytes)
  : Outcome (list TDeserializedElement) :=
  let+ looped :=
    Tuple_deserialize_elements self content (Z.to_nat (number_of_elements self)) 0 in
  let element_start_index := snd looped in
  if element_start_index >? len content then Raises InvariantException
  else if element_start_index <? len content then Raises DeserializationError
  else Returns (fst looped).

Definition Tuple_is_variable_length self : bool :=
  (0 <? number_of_elements self) && is_variable_length (element_sedes self).

Definition Tuple_get_fixed_length self : Outcome Z :=
  if Tuple_is_variable_length self then Raises (Builtin ValueError)
  else get_fixed_length (element_sedes self).

(** A tuple sedes as the [CompositeSedes] it is. *)
Definition Tuple_composite self
  : CompositeSedes (list TSerializableElement) (list TDeserializedElement) :=
  {| composite_serialize_content := Tuple_serialize_content self;
     composite_deserialize_content := Tuple_deserialize_content self;
     composite_is_variable_length := Tuple_is_variable_length self;
     composite_get_fixed_length := Tuple_get_fixed_length self |}.

End TupleMethods.

(** What the statements ask of an element sedes at a value: it serializes the
    value to a non-empty string, and reads the value back from wherever this
    string stands in a longer one, stopping right after it. *)
Definition reads_back {TSerializable : Type} (sedes : BaseSedes TSerializable TSerializable)
  (value : TSerializable) (serialized : bytes) : Prop :=
  serialize sedes value = Returns serialized
  ∧ serialized ≠ []
  ∧ ∀ before after,
      deserialize_segment sedes (before ++ serialized ++ after) (len before)
      = Returns (value, len before + len serialized).

(** A one-byte unsigned integer, as a concrete basic sedes. *)
Definition uint8 : BasicSedes Z Z :=
  {| sedes_length := 1;
     serialize_content := fun value =>
       if (0 <=? value) && (value <? 256) then Returns (to_bytes_little 1 value)
       else Raises SerializationError;
     deserialize_content := fun content => Returns (from_bytes_little content) |}.

(** A pair of one-byte integers. *)
Definition uint8_pair : Tuple Z Z :=
  {| number_of_elements := 2; element_sedes := Basic_sedes uint8 |}.

(** A byte string kept as it is, as a concrete composite sedes of variable
    length. *)
Definition byte_string : CompositeSedes bytes bytes :=
  {| composite_serialize_content := fun value => Returns value;
     composite_deserialize_content := fun content => Returns content;
     composite_is_variable_length := true;
     composite_get_fixed_length := Raises (Builtin ValueError) |}.

End SedesBase.

(** [toolz.accumulate(binop, seq, initial)]: the initial value, then the
    running results. *)
Fixpoint accumulate {A B : Type} (binop : A → B → A) (seq : list B) (initial : A) : list A :=
  initial :: match seq with
             | [] => []
             | x :: rest => accumulate binop rest (binop initial x)
             end.

(** *** [ssz/sedes/basic.py] *)

Module SedesBasic.

(** What [CompositeSedes.serialize] uses of the sedes of an item. *)
Record ItemSedes (Item : Type) : Type := {
  is_fixed_sized : bool;
  get_fixed_size : Outcome Z;
  serialize : Item → Outcome bytes;
}.

Arguments is_fixed_sized {Item} _.
Arguments get_fixed_size {Item} _.
Arguments serialize {Item} _ _.

(** The attribute [_fixed_size_section_length_cache] of a value: missing,
    [None], or a number. *)
Inductive CacheAttribute : Type :=
| NoAttribute
| CacheNone
| Cached (fixed_size_section_length : Z).

Section CompositeSedes.

(** [ssz.constants.OFFSET_SIZE] and [ssz.utils.encode_offset] are not among
    the sources: they are parameters. *)
Variable OFFSET_SIZE : Z.
Variable encode_offset : Z → Outcome bytes.

Context {Item : Type}.

(** The abstract method and the hook of [CompositeSedes]. *)
Variable _get_item_sedes_pairs : list Item → Outcome (list (Item * ItemSedes Item)).
Variable _validate_serializable : list Item → Outcome unit.

Definition _compute_fixed_size_section_length (element_sedes : list (ItemSedes Item))
  : Outcome Z :=
  let+ sizes :=
    omapM (fun sedes => if is_fixed_sized sedes then get_fixed_size sedes
                        else Returns OFFSET_SIZE)
          element_sedes in
  Returns (foldr Z.add 0 sizes).

(** The generator of the fixed size section: [offsets_iter] is what is left
    of the iterator over the offsets, and is returned as the loop leaves it.
    [next] on an exhausted iterator, inside a generator, ends in
    [RuntimeError]. *)
Fixpoint fixed_size_section (pairs : list (Item * ItemSedes Item)) (offsets_iter : list Z)
  : Outcome (list bytes * list Z) :=
  match pairs with
  | [] => Returns ([], offsets_iter)
  | (item, sedes) :: rest =>
      let+ step :=
        if is_fixed_sized sedes then
          let+ part := serialize sedes item in Returns (part, offsets_iter)
        else
          match offsets_iter with
          | [] => Raises RuntimeError
          | offset :: offsets_iter' =>
              let+ part := encode_offset offset in Returns (part, offsets_iter')
          end in
      let+ looped := fixed_size_section rest (snd step) in
      Returns (fst step :: fst looped, snd looped)
  end.

(** [serialize] from the point where [fixed_size_section_length] is known. *)
Definition serialize_sections (pairs : list (Item * ItemSedes Item))
  (fixed_size_section_length : Z) : Outcome bytes :=
  let+ variable_size_section_parts :=
    omapM (fun pair => serialize (snd pair) (fst pair))
          (List.filter (fun pair => negb (is_fixed_sized (snd pair))) pairs) in
  let offsets :=
    match variable_size_section_parts with
    | _ :: _ =>
        accumulate Z.add (map len (slice_to variable_size_section_parts (-1)))
                   fixed_size_section_length
    | [] => []
    end in
  let+ looped := fixed_size_section pairs offsets in
  let fixed_size_section_parts := fst looped in
  match snd looped with
  | _ :: _ => Raises DeserializationError
  | [] => Returns (concat (fixed_size_section_parts ++ variable_size_section_parts))
  end.

(** [serialize(value)]: the value is the sequence of its items together with
    its cache attribute; the attribute after the call is returned too. *)
Definition Composite_serialize (value : list Item) (cache : CacheAttribute)
  : Outcome bytes * CacheAttribute :=
  match _validate_serializable value with
  | Raises e => (Raises e, cache)
  | Returns _ =>
      if len value =? 0 then (Returns [], cache)
      else
        match _get_item_sedes_pairs value with
        | Raises e => (Raises e, cache)
        | Returns pairs =>
            let element_sedes := map snd pairs in
            match cache with
            | CacheNone =>
                match _compute_fixed_size_section_length element_sedes with
                | Raises e => (Raises e, cache)
                | Returns fixed_size_section_length =>
                    (serialize_sections pairs fixed_size_section_length,
                     Cached fixed_size_section_length)
                end
            | Cached fixed_size_section_length =>
                (serialize_sections pairs fixed_size_section_length, cache)
            | NoAttribute =>
                (let+ fixed_size_section_length :=
                   _compute_fixed_size_section_length element_sedes in
                 serialize_sections pairs fixed_size_section_length, cache)
            end
        end
  end.

End CompositeSedes.

(** The layout the statements compare with.  [parts] are the serializations
    of the items of [pairs], in order. *)

(** The serializations of the items that are not of fixed size. *)
Fixpoint variable_section {Item : Type} (pairs : list (Item * ItemSedes Item))
  (parts : list bytes) : list bytes :=
  match pairs, parts with
  | (_, sedes) :: pairs', part :: parts' =>
      if is_fixed_sized sedes then variable_section pairs' parts'
      else part :: variable_section pairs' parts'
  | _, _ => []
  end.

(** The fixed size section when the variable size section starts at
    [offset]: the serialization of an item of fixed size, the encoded start
    of the serialization of any other item. *)
Fixpoint fixed_section {Item : Type} (encode : Z → bytes)
  (pairs : list (Item * ItemSedes Item)) (parts : list bytes) (offset : Z) : list bytes :=
  match pairs, parts with
  | (_, sedes) :: pairs', part :: parts' =>
      if is_fixed_sized sedes then part :: fixed_section encode pairs' parts' offset
      else encode offset :: fixed_section encode pairs' parts' (offset + len part)
  | _, _ => []
  end.

(** [parts] are the serializations of the items of [pairs]. *)
Definition serialized_by {Item : Type} (pairs : list (Item * ItemSedes Item))
  (parts : list bytes) : Prop :=
  Forall2 (fun pair part => serialize (snd pair) (fst pair) = Returns part) pairs parts.

(** The offsets that [serialize] computes for the parts of the variable size
    section, which starts at [base]. *)
Definition offsets_of (variable_size_section_parts : list bytes) (base : Z) : list Z :=
  match variable_size_section_parts with
  | _ :: _ => accumulate Z.add (map len (slice_to variable_size_section_parts (-1))) base
  | [] => []
  end.

(** Sedes of a one-byte integer and of a byte string, and an encoding of
    offsets in four bytes, to evaluate the statements. *)
Definition byte_sedes : ItemSedes (list byte) :=
  {| is_fixed_sized := true; get_fixed_size := Returns 1;
     serialize := fun item => Returns (take 1 (item ++ [x00])) |}.

Definition bytes_sedes : ItemSedes (list byte) :=
  {| is_fixed_sized := false; get_fixed_size := Raises (Builtin ValueError);
     serialize := fun item => Returns item |}.

Definition encode_offset4 (offset : Z) : Outcome bytes :=
  Returns (to_bytes_little 4 offset).

(** The items [b"a", b"xyz", b"b", b"uv"], the first and the third of fixed
    size. *)
Definition example_value : list (list byte) :=
  [list_byte_of_string "a"; list_byte_of_string "xyz";
   list_byte_of_string "b"; list_byte_of_string "uv"].

Definition example_sedes : list (ItemSedes (list byte)) :=
  [byte_sedes; bytes_sedes; byte_sedes; bytes_sedes].

End SedesBasic.

(** * Theorems *)

(** ** Sanity checks on the chunking functions *)

Example update_element_in_chunk_docstring :
  update_element_in_chunk (list_byte_of_string "aabbcc") 1 (list_byte_of_string "xx")
  = Ok (list_byte_of_string "aaxxcc").
Proof. reflexivity. Qed.

Example get_appended_chunks_three_uint128 :
  get_appended_chunks [replicate 16 xaa; replicate 16 xbb; replicate 16 xcc] 0
  = Ok [replicate 16 xaa ++ replicate 16 xbb; replicate 16 xcc ++ replicate 16 x00].
Proof. reflexivity. Qed.

Example get_updated_chunks_one_update :
  get_updated_chunks [(1, replicate 16 xdd)] []
    [replicate 16 xaa ++ replicate 16 xbb; replicate 16 xcc ++ replicate 16 x00] 3 1
  = Ok [(0, replicate 16 xaa ++ replicate 16 xdd)].
Proof. reflexivity. Qed.

(** ** Replacing an element in a chunk *)

Lemma len_nonneg {A} (l : list A) : 0 ≤ len l.
Proof. unfold len. lia. Qed.

Lemma slot_within_chunk (chunk_size element_size index : Z) :
  0 < element_size → chunk_size mod element_size = 0 →
  0 ≤ index < chunk_size / element_size →
  0 ≤ index * element_size ∧ index * element_size + element_size ≤ chunk_size.
Proof.
  intros Hpos Hmod [Hlo Hhi].
  assert (chunk_size = element_size * (chunk_size / element_size)) as Hcs.
  { rewrite (Z.div_mod chunk_size element_size) at 1 by lia. lia. }
  split; [nia|].
  rewrite Hcs at 1. nia.
Qed.

Lemma update_element_in_chunk_cases (chunk : bytes) (index : Z) (element : bytes) :
  update_element_in_chunk chunk index element =
    if decide (len element = 0 ∨ len chunk mod len element ≠ 0) then Raise ValueError
    else if decide (0 ≤ index < len chunk / len element)
         then Ok (take (Z.to_nat (index * len element)) chunk ++ element
                  ++ drop (Z.to_nat (index * len element + len element)) chunk)
         else Raise IndexError.
Proof.
  unfold update_element_in_chunk.
  destruct (Z.eqb_spec (len element) 0) as [He|He].
  { rewrite decide_True by auto. done. }
  destruct (Z.eqb_spec (len chunk mod len element) 0) as [Hm|Hm]; simpl.
  2: { rewrite decide_True by auto. done. }
  rewrite decide_False by lia.
  destruct (Z.leb_spec 0 index) as [Hlo|Hlo]; simpl.
  2: { rewrite decide_False by lia. done. }
  destruct (Z.ltb_spec index (len chunk / len element)) as [Hhi|Hhi]; simpl.
  2: { rewrite decide_False by lia. done. }
  rewrite decide_True by lia.
  pose proof (len_nonneg element).
  destruct (slot_within_chunk (len chunk) (len element) index) as [H1 H2]; [lia..|].
  unfold slice_to, slice_from.
  destruct (Z.ltb_spec (index * len element) 0); [lia|].
  destruct (Z.ltb_spec (index * len element + len element) 0); [lia|].
  done.
Qed.

Lemma update_element_in_chunk_replaces (chunk : bytes) (index : Z) (element : bytes) :
  len element ≠ 0 → len chunk mod len element = 0 →
  0 ≤ index < len chunk / len element →
  slot_replaced chunk index element
    (take (Z.to_nat (index * len element)) chunk ++ element
     ++ drop (Z.to_nat (index * len element + len element)) chunk).
Proof.
  intros He Hm Hidx.
  pose proof (len_nonneg element) as Hn.
  destruct (slot_within_chunk (len chunk) (len element) index) as [H1 H2]; [lia..|].
  unfold slot_replaced, len in *.
  split.
  - rewrite !length_app, length_take, length_drop. lia.
  - intros j Hj.
    case_decide as Hslot.
    + rewrite lookup_app_r by (rewrite length_take; lia).
      rewrite length_take.
      rewrite lookup_app_l by lia.
      f_equal. lia.
    + destruct (decide (Z.of_nat j < index * Z.of_nat (length element))) as [Hlt|Hge].
      * rewrite lookup_app_l by (rewrite length_take; lia).
        rewrite lookup_take_lt by lia. done.
      * rewrite lookup_app_r by (rewrite length_take; lia).
        rewrite length_take.
        rewrite lookup_app_r by lia.
        rewrite lookup_drop. f_equal. lia.
Qed.

Lemma update_element_in_chunk_ok (chunk : bytes) (index : Z) (element : bytes) :
  len element ≠ 0 → len chunk mod len element = 0 →
  0 ≤ index < len chunk / len element →
  ∃ result, update_element_in_chunk chunk index element = Ok result
            ∧ slot_replaced chunk index element result.
Proof.
  intros He Hm Hidx. rewrite update_element_in_chunk_cases.
  rewrite decide_False by tauto. rewrite decide_True by done.
  eexists; split; [done|]. by apply update_element_in_chunk_replaces.
Qed.

(** C6.  On a chunk of [CHUNK_SIZE] bytes, [update_element_in_chunk] raises
    [ValueError] (the spec's [InvalidElementSize]) exactly when the element is
    empty or its size does not divide the chunk size; it raises [IndexError]
    (the spec's [IndexOutOfRange]) exactly when the size is valid and the
    index is outside [[0, CHUNK_SIZE / element_size)]; otherwise it returns
    the chunk with the [index]-th slot replaced by the element and every other
    byte unchanged. *)
Theorem update_element_in_chunk_spec (chunk : bytes) (index : Z) (element : bytes) :
  len chunk = CHUNK_SIZE →
  (update_element_in_chunk chunk index element = Raise ValueError
   ↔ len element = 0 ∨ CHUNK_SIZE mod len element ≠ 0)
  ∧ (update_element_in_chunk chunk index element = Raise IndexError
     ↔ len element ≠ 0 ∧ CHUNK_SIZE mod len element = 0
       ∧ ¬ (0 ≤ index < CHUNK_SIZE / len element))
  ∧ (len element ≠ 0 → CHUNK_SIZE mod len element = 0 →
     0 ≤ index < CHUNK_SIZE / len element →
     ∃ result, update_element_in_chunk chunk index element = Ok result
               ∧ slot_replaced chunk index element result).
Proof.
  intros Hsize. rewrite update_element_in_chunk_cases, Hsize.
  destruct (decide (len element = 0 ∨ CHUNK_SIZE mod len element ≠ 0)) as [Hbad|Hgood].
  { split_and!; [tauto | intuition discriminate | tauto]. }
  assert (len element ≠ 0 ∧ CHUNK_SIZE mod len element = 0) as [He Hm].
  { split; [tauto|]. destruct (decide (CHUNK_SIZE mod len element = 0)); tauto. }
  destruct (decide (0 ≤ index < CHUNK_SIZE / len element)) as [Hin|Hout].
  - split_and!; [intuition discriminate | intuition discriminate |].
    intros _ _ _. eexists; split; [done|].
    rewrite <- Hsize in *. by apply update_element_in_chunk_replaces.
  - split_and!; [intuition discriminate | tauto | tauto].
Qed.

(** ** The heap *)

Section HeapLemmas.

Context {TElement : Type}.
Implicit Types (h : Heap TElement) (e l : nat).

Lemma heap_step_refl h : heap_step h h.
Proof. split; [done|]. intros e ev Hev. by exists ev. Qed.

Lemma heap_step_trans h1 h2 h3 : heap_step h1 h2 → heap_step h2 h3 → heap_step h1 h3.
Proof.
  intros [Hp12 He12] [Hp23 He23]. split; [by etrans|].
  intros e ev Hev.
  destruct (He12 e ev Hev) as (ev2 & Hev2 & Ho2 & Hc2).
  destruct (He23 e ev2 Hev2) as (ev3 & Hev3 & Ho3 & Hc3).
  exists ev3. split_and!; [done|congruence..].
Qed.

Lemma heap_step_structure h h' l (s : Structure TElement) :
  heap_step h h' → structures h !! l = Some s → structures h' !! l = Some s.
Proof. intros [Hp _] Hl. by eapply prefix_lookup_Some. Qed.

Lemma readonly_preserves {A} (m : M TElement A) : readonly m → preserves m.
Proof. intros Hm h. rewrite Hm. apply heap_step_refl. Qed.

Lemma readonly_ret {A} (a : A) : readonly (ret (TElement:=TElement) a).
Proof. done. Qed.

Lemma readonly_raise {A} err : readonly (raise (TElement:=TElement) (A:=A) err).
Proof. done. Qed.

Lemma readonly_lift {A} (r : Result A) : readonly (lift (TElement:=TElement) r).
Proof. done. Qed.

Lemma readonly_bind {A B} (m : M TElement A) (k : A → M TElement B) :
  readonly m → (∀ a, readonly (k a)) → readonly (bind m k).
Proof.
  intros Hm Hk h. unfold bind. specialize (Hm h).
  destruct (m h) as [[a|err] h1]; simpl in *; subst; [apply Hk|done].
Qed.

Lemma preserves_bind {A B} (m : M TElement A) (k : A → M TElement B) :
  preserves m → (∀ a, preserves (k a)) → preserves (bind m k).
Proof.
  intros Hm Hk h. unfold bind. specialize (Hm h).
  destruct (m h) as [[a|err] h1]; simpl in *; [|done].
  eapply heap_step_trans; [done|apply Hk].
Qed.

Lemma readonly_get_structure l : readonly (get_structure (TElement:=TElement) l).
Proof. done. Qed.

Lemma readonly_get_evolver e : readonly (get_evolver (TElement:=TElement) e).
Proof. done. Qed.

Lemma preserves_new_structure (s : Structure TElement) : preserves (new_structure s).
Proof.
  intros h. split; simpl; [by apply prefix_app_r|].
  intros e ev Hev. by exists ev.
Qed.

Lemma preserves_new_evolver (ev : Evolver TElement) : preserves (new_evolver ev).
Proof.
  intros h. split; simpl; [done|].
  intros e ev0 Hev. exists ev0. by rewrite lookup_app_l by by eapply lookup_lt_Some.
Qed.

Lemma heap_step_put_evolver h e (ev ev' : Evolver TElement) :
  evolvers h !! e = Some ev →
  _original_structure ev' = _original_structure ev →
  evolver_class ev' = evolver_class ev →
  heap_step h (snd (put_evolver e ev' h)).
Proof.
  intros Hev Ho Hc. split; simpl; [done|].
  intros e0 ev0 Hev0. destruct (decide (e0 = e)) as [->|Hne].
  - exists ev'. rewrite list_lookup_insert_eq by by eapply lookup_lt_Some.
    split_and!; congruence.
  - exists ev0. by rewrite list_lookup_insert_ne.
Qed.


Ltac readonly_step :=
  first
    [ apply readonly_ret | apply readonly_raise | apply readonly_lift
    | apply readonly_get_structure | apply readonly_get_evolver
    | apply readonly_bind; [|intros ?]
    | assumption ].

Ltac readonly_tac := repeat first [ readonly_step | case_match ].

Lemma readonly_elements l : readonly (elements (TElement:=TElement) l).
Proof. unfold elements. readonly_tac. Qed.

Lemma readonly_hash_tree l : readonly (hash_tree (TElement:=TElement) l).
Proof. unfold hash_tree. readonly_tac. Qed.

Lemma readonly_chunks l : readonly (chunks (TElement:=TElement) l).
Proof. unfold chunks. apply readonly_bind; [apply readonly_hash_tree|]. intros; readonly_tac. Qed.

Lemma readonly_sedes l : readonly (sedes (TElement:=TElement) l).
Proof. unfold sedes. readonly_tac. Qed.

Lemma readonly_Structure_len l : readonly (Structure_len (TElement:=TElement) l).
Proof. unfold Structure_len. apply readonly_bind; [apply readonly_elements|]. intros; readonly_tac. Qed.

Lemma readonly_Structure_getitem l index :
  readonly (Structure_getitem (TElement:=TElement) l index).
Proof.
  unfold Structure_getitem. apply readonly_bind; [apply readonly_elements|]. intros; readonly_tac.
Qed.

Lemma readonly_Evolver_len e : readonly (Evolver_len (TElement:=TElement) e).
Proof.
  unfold Evolver_len. apply readonly_bind; [readonly_tac|]. intros. apply readonly_Structure_len.
Qed.

Lemma readonly_Evolver_getitem e index :
  readonly (Evolver_getitem (TElement:=TElement) e index).
Proof.
  unfold Evolver_getitem. apply readonly_bind; [readonly_tac|]. intros.
  case_match; [readonly_tac|apply readonly_Structure_getitem].
Qed.

Lemma readonly_Evolver_is_dirty e : readonly (Evolver_is_dirty (TElement:=TElement) e).
Proof. unfold Evolver_is_dirty. apply readonly_bind; readonly_tac. Qed.

Create HintDb heap_frame.

#[local] Hint Resolve readonly_ret readonly_raise readonly_lift readonly_get_structure
  readonly_get_evolver readonly_elements readonly_hash_tree readonly_chunks readonly_sedes
  readonly_Structure_len readonly_Structure_getitem readonly_Evolver_len
  readonly_Evolver_getitem readonly_Evolver_is_dirty : heap_frame.

#[local] Hint Resolve readonly_preserves preserves_new_structure preserves_new_evolver
  : heap_frame.

Ltac preserves_tac :=
  repeat first
    [ apply preserves_bind; [|intros ?]
    | solve [eauto with heap_frame]
    | case_match ].

(** What the evolver's methods compute on a heap that holds the evolver and
    its original structure. *)

Lemma Evolver_len_eq h e ev (s : Structure TElement) :
  evolvers h !! e = Some ev →
  structures h !! _original_structure ev = Some s →
  Evolver_len e h = (Ok (len (_elements s)), h).
Proof.
  intros Hev Hs.
  unfold Evolver_len, Structure_len, elements, bind, get_evolver, get_structure, ret.
  by rewrite Hev, Hs.
Qed.

Lemma Evolver_getitem_eq h e ev (s : Structure TElement) index :
  evolvers h !! e = Some ev →
  structures h !! _original_structure ev = Some s →
  Evolver_getitem e index h =
    (match dict_get (_updated_elements ev) index with
     | Some element => Ok element
     | None => getitem (_elements s) index
     end, h).
Proof.
  intros Hev Hs.
  unfold Evolver_getitem, Structure_getitem, elements, bind, get_evolver, get_structure,
    ret, lift, dict_contains, dict_getitem.
  rewrite Hev. destruct (dict_get _ _); [done|]. by rewrite Hs.
Qed.

Lemma Evolver_setitem_eq h e ev (s : Structure TElement) index element :
  evolvers h !! e = Some ev →
  structures h !! _original_structure ev = Some s →
  Evolver_setitem e index element h =
    if (0 <=? index) && (index <? len (_elements s))
    then (Ok tt,
          {| structures := structures h;
             evolvers :=
               <[e := {| evolver_class := evolver_class ev;
                         _original_structure := _original_structure ev;
                         _updated_elements :=
                           dict_set (_updated_elements ev) index element;
                         _appended_elements := _appended_elements ev |}]>
                 (evolvers h) |})
    else (Raise IndexError, h).
Proof.
  intros Hev Hs. unfold Evolver_setitem, bind.
  rewrite (Evolver_len_eq h e ev s Hev Hs).
  destruct (_ && _); [|done].
  unfold get_evolver, put_evolver. by rewrite Hev.
Qed.

Lemma ResizableEvolver_extend_eq h e (ev : Evolver TElement) elems :
  evolvers h !! e = Some ev →
  ResizableEvolver_extend e elems h =
    match evolver_class ev with
    | HashableStructureEvolver => (Raise AttributeError, h)
    | ResizableHashableStructureEvolver =>
        (Ok tt,
         {| structures := structures h;
            evolvers :=
              <[e := {| evolver_class := evolver_class ev;
                        _original_structure := _original_structure ev;
                        _updated_elements := _updated_elements ev;
                        _appended_elements := _appended_elements ev ++ elems |}]>
                (evolvers h) |})
    end.
Proof.
  intros Hev. unfold ResizableEvolver_extend, bind, get_evolver. rewrite Hev.
  by destruct (evolver_class ev).
Qed.

Lemma preserves_Evolver_setitem e index (element : TElement) :
  preserves (Evolver_setitem e index element).
Proof.
  intros h. unfold Evolver_setitem, bind.
  pose proof (readonly_Evolver_len e h) as Hro.
  destruct (Evolver_len e h) as [[n|err] h1]; simpl in *; subst h1;
    [|apply heap_step_refl].
  destruct (_ && _); [|apply heap_step_refl].
  unfold get_evolver. destruct (evolvers h !! e) as [ev|] eqn:Hev;
    [|apply heap_step_refl].
  by eapply heap_step_put_evolver.
Qed.

Lemma preserves_ResizableEvolver_extend e (elems : list TElement) :
  preserves (ResizableEvolver_extend e elems).
Proof.
  intros h. unfold ResizableEvolver_extend, bind, get_evolver.
  destruct (evolvers h !! e) as [ev|] eqn:Hev; [|apply heap_step_refl].
  destruct (evolver_class ev) eqn:Hc; [apply heap_step_refl|].
  by eapply heap_step_put_evolver.
Qed.

Lemma preserves_Structure_init cls elems tree (sd : Sedes TElement) :
  preserves (Structure_init cls elems tree sd).
Proof. apply preserves_new_structure. Qed.

Lemma preserves_Evolver_persistent e : preserves (Evolver_persistent (TElement:=TElement) e).
Proof.
  unfold Evolver_persistent.
  pose proof preserves_Structure_init.
  preserves_tac.
Qed.

Lemma preserves_Structure_evolver l : preserves (Structure_evolver (TElement:=TElement) l).
Proof. unfold Structure_evolver, Evolver_init. preserves_tac. Qed.

Lemma preserves_for_each {A} (body : A → M TElement unit) (seq : list A) :
  (∀ x, preserves (body x)) → preserves (for_each body seq).
Proof.
  intros Hbody. induction seq as [|x rest IH]; simpl.
  - apply readonly_preserves, readonly_ret.
  - apply preserves_bind; [apply Hbody|]. intros _. apply IH.
Qed.

Lemma preserves_Structure_mset l (args : list (MsetArg TElement)) :
  preserves (Structure_mset l args).
Proof.
  unfold Structure_mset.
  case_match; [eauto with heap_frame|].
  apply preserves_bind; [apply preserves_Structure_evolver|]. intros evolver.
  apply preserves_bind; [|intros _; apply preserves_Evolver_persistent].
  apply preserves_for_each. intros [[index|value] [index'|value']];
    eauto using preserves_Evolver_setitem with heap_frame.
Qed.

Lemma preserves_Structure_set l index (value : TElement) :
  preserves (Structure_set l index value).
Proof. apply preserves_Structure_mset. Qed.

Lemma preserves_resizable_method l : preserves (resizable_method (TElement:=TElement) l).
Proof. unfold resizable_method. preserves_tac. Qed.

Lemma preserves_Resizable_extend l (values : list TElement) :
  preserves (Resizable_extend l values).
Proof.
  unfold Resizable_extend.
  apply preserves_bind; [apply preserves_resizable_method|]. intros _.
  apply preserves_bind; [apply preserves_Structure_evolver|]. intros evolver.
  apply preserves_bind; [apply preserves_ResizableEvolver_extend|]. intros _.
  apply preserves_Evolver_persistent.
Qed.

Lemma preserves_Resizable_append l (value : TElement) :
  preserves (Resizable_append l value).
Proof.
  unfold Resizable_append, ResizableEvolver_append.
  apply preserves_bind; [apply preserves_resizable_method|]. intros _.
  apply preserves_bind; [apply preserves_Structure_evolver|]. intros evolver.
  apply preserves_bind; [apply preserves_ResizableEvolver_extend|]. intros _.
  apply preserves_Evolver_persistent.
Qed.

Lemma preserves_mul_frames (add_self : nat → M TElement nat) frames l :
  (∀ l', preserves (add_self l')) → preserves (mul_frames add_self frames l).
Proof.
  intros Hadd. revert l. induction frames as [|[|frames] IH]; intros l.
  - apply readonly_preserves, readonly_raise.
  - apply readonly_preserves, readonly_ret.
  - change (preserves (bind (add_self l) (fun doubled => mul_frames add_self (S frames) doubled))).
    apply preserves_bind; [apply Hadd|]. intros doubled. apply IH.
Qed.

Lemma preserves_Resizable_mul l times : preserves (Resizable_mul (TElement:=TElement) l times).
Proof.
  unfold Resizable_mul.
  apply preserves_bind; [apply preserves_resizable_method|]. intros _.
  apply preserves_mul_frames. intros l'. unfold Resizable_add_self, Resizable_add.
  apply preserves_bind; [eauto with heap_frame|]. intros values.
  apply preserves_Resizable_extend.
Qed.

Lemma preserves_do_call e (call : EvolverCall TElement) : preserves (do_call e call).
Proof.
  destruct call; simpl; unfold ResizableEvolver_append;
    eauto using preserves_Evolver_setitem, preserves_ResizableEvolver_extend;
    (apply preserves_bind; [|intros; eauto with heap_frame]);
    eauto using preserves_Evolver_persistent with heap_frame.
Qed.

Lemma heap_step_run_calls e (calls : list (EvolverCall TElement)) h :
  heap_step h (run_calls e calls h).
Proof.
  revert h. induction calls as [|call rest IH]; intros h; simpl.
  - apply heap_step_refl.
  - eapply heap_step_trans; [apply preserves_do_call|apply IH].
Qed.

End HeapLemmas.

Lemma dict_get_set_eq {V} (d : list (Z * V)) k v : dict_get (dict_set d k v) k = Some v.
Proof.
  induction d as [|[k' v'] rest IH]; simpl.
  - by rewrite Z.eqb_refl.
  - destruct (Z.eqb_spec k' k) as [->|Hne]; simpl.
    + by rewrite Z.eqb_refl.
    + by destruct (Z.eqb_spec k' k).
Qed.

Lemma dict_get_set_ne {V} (d : list (Z * V)) k k0 v :
  k ≠ k0 → dict_get (dict_set d k v) k0 = dict_get d k0.
Proof.
  intros Hne. induction d as [|[k' v'] rest IH]; simpl.
  - by destruct (Z.eqb_spec k k0).
  - destruct (Z.eqb_spec k' k) as [->|Hne']; simpl.
    + by destruct (Z.eqb_spec k k0).
    + by rewrite IH.
Qed.

Lemma getitem_in_range {A} (seq : list A) index :
  0 ≤ index < len seq →
  ∃ x, seq !! Z.to_nat index = Some x ∧ getitem seq index = Ok x.
Proof.
  intros Hidx. unfold getitem, len in *.
  assert ((index <? 0) = false) as Hnonneg by (apply Z.ltb_ge; lia).
  rewrite Hnonneg. cbv beta iota zeta. rewrite Hnonneg.
  destruct (lookup_lt_is_Some_2 seq (Z.to_nat index)) as [x Hx]; [lia|].
  exists x. by rewrite Hx.
Qed.

Lemma getitem_negative {A} (seq : list A) index :
  - len seq ≤ index < 0 →
  ∃ x, seq !! Z.to_nat (len seq + index) = Some x ∧ getitem seq index = Ok x.
Proof.
  intros Hidx. unfold getitem, len in *.
  assert ((index <? 0) = true) as Hneg by (apply Z.ltb_lt; lia).
  assert ((index + Z.of_nat (length seq) <? 0) = false) as Hwrap by (apply Z.ltb_ge; lia).
  rewrite Hneg. cbv beta iota zeta. rewrite Hwrap.
  destruct (lookup_lt_is_Some_2 seq (Z.to_nat (Z.of_nat (length seq) + index))) as [x Hx];
    [lia|].
  exists x. split; [done|]. by rewrite Z.add_comm, Hx.
Qed.

Lemma getitem_out_of_range {A} (seq : list A) index :
  index < - len seq ∨ len seq ≤ index → getitem seq index = Raise IndexError.
Proof.
  intros Hidx. unfold getitem, len in *.
  destruct (Z.ltb_spec index 0) as [Hneg|Hnonneg]; cbv beta iota zeta.
  - assert ((index + Z.of_nat (length seq) <? 0) = true) as -> by (apply Z.ltb_lt; lia).
    done.
  - assert ((index <? 0) = false) as -> by (apply Z.ltb_ge; lia).
    rewrite lookup_ge_None_2 by lia. done.
Qed.

Lemma byte_of_Z_to_N z : Z.of_N (Byte.to_N (byte_of_Z z)) = z mod 256.
Proof.
  unfold byte_of_Z.
  assert (0 ≤ z mod 256 < 256) as Hb by (apply Z.mod_pos_bound; lia).
  destruct (Byte.of_N (Z.to_N (z mod 256))) as [b|] eqn:Hb'.
  - apply Byte.to_of_N in Hb'. rewrite Hb'. lia.
  - apply Byte.of_N_None_iff in Hb'. lia.
Qed.

Lemma length_to_bytes_little n z : length (to_bytes_little n z) = n.
Proof. revert z. induction n as [|n IH]; intros z; simpl; [done|]. by rewrite IH. Qed.

Lemma from_to_bytes_little n z :
  from_bytes_little (to_bytes_little n z) = z mod 256 ^ Z.of_nat n.
Proof.
  revert z. induction n as [|n IH]; intros z.
  - simpl. by rewrite Z.mod_1_r.
  - cbn [to_bytes_little from_bytes_little]. rewrite byte_of_Z_to_N, IH.
    rewrite Nat2Z.inj_succ, Z.pow_succ_r by lia.
    rewrite Z.rem_mul_r by lia. lia.
Qed.

Ltac heap_eval :=
  repeat match goal with
         | Hcell : _ !! _ = Some _ |- _ => rewrite Hcell
         | _ => progress cbv beta iota
         end.

Section Claims.

Context {TElement : Type} `{Hasher}.
Implicit Types (h : Heap TElement) (s : Structure TElement) (ev : Evolver TElement).

(** C1.  What [persistent] does on every evolver that has recorded an edit:
    the call of [get_updated_chunks] passes four arguments to a function of
    five parameters, so [TypeError] is raised and no structure is built; the
    heap is left as it was.  The spec expects a structure whose root equals
    that of a rebuild. *)
Theorem persistent_of_dirty_evolver_raises h e ev s :
  evolvers h !! e = Some ev →
  structures h !! _original_structure ev = Some s →
  _updated_elements ev ≠ [] ∨ _appended_elements ev ≠ [] →
  Evolver_persistent e h = (Raise TypeError, h).
Proof.
  intros Hev Hs Hdirty.
  unfold Evolver_persistent, Evolver_is_dirty, sedes, Structure_len, elements, hash_tree,
    bind, get_evolver, get_structure, ret, lift.
  rewrite Hev. cbv beta iota.
  destruct (_updated_elements ev) as [|u us] eqn:Hu;
    [destruct (_appended_elements ev) as [|a app] eqn:Ha; [by destruct Hdirty|]|];
    cbn [negb]; heap_eval; reflexivity.
Qed.

(** C2.  What [from_iterable] does on every iterable and sedes: the call of
    [get_appended_chunks] passes three arguments to a function of two
    parameters, so [TypeError] is raised and no structure is built.  The spec
    expects a structure whose root equals the root computed from scratch. *)
Theorem from_iterable_raises cls (iterable : list TElement) sd h :
  from_iterable cls iterable sd h = (Raise TypeError, h).
Proof. reflexivity. Qed.

(** C3, amended.  A read [e[index]] of an evolver [e] over [s] returns the
    pending update at [index] if one was recorded; else [s[index]] when
    [0 <= index < len(s)], and [s[len(s) + index]] when
    [-len(s) <= index < 0]; every other index raises [IndexError], the indices
    of staged appends included: the read never looks at them.  The heap is
    not changed by a read. *)
Theorem evolver_getitem_spec h e ev s index :
  evolvers h !! e = Some ev →
  structures h !! _original_structure ev = Some s →
  (∀ element, dict_get (_updated_elements ev) index = Some element →
     Evolver_getitem e index h = (Ok element, h))
  ∧ (dict_get (_updated_elements ev) index = None →
     (0 ≤ index < len (_elements s) →
        ∃ x, _elements s !! Z.to_nat index = Some x
             ∧ Evolver_getitem e index h = (Ok x, h))
     ∧ (- len (_elements s) ≤ index < 0 →
        ∃ x, _elements s !! Z.to_nat (len (_elements s) + index) = Some x
             ∧ Evolver_getitem e index h = (Ok x, h))
     ∧ (index < - len (_elements s) ∨ len (_elements s) ≤ index →
        Evolver_getitem e index h = (Raise IndexError, h))).
Proof.
  intros Hev Hs. rewrite (Evolver_getitem_eq h e ev s index Hev Hs).
  split.
  - by intros element ->.
  - intros ->. split_and!.
    + intros Hidx. destruct (getitem_in_range (_elements s) index Hidx) as (x & Hx & ->).
      by exists x.
    + intros Hidx. destruct (getitem_negative (_elements s) index Hidx) as (x & Hx & ->).
      by exists x.
    + intros Hidx. by rewrite getitem_out_of_range.
Qed.

(** C4, amended.  Within one evolver over [s], for [0 <= index < len(s)]:
    [e[index] = v] then [e[index] = w] both succeed and [e[index]] is then
    [w].  Within a resizable evolver, [append(v)] succeeds and a following
    [e[len(s)] = w] raises [IndexError]; the staged append [v] and the
    recorded updates stay as they were. *)
Theorem evolver_set_ordering h e ev s index v w :
  evolvers h !! e = Some ev →
  structures h !! _original_structure ev = Some s →
  (0 ≤ index < len (_elements s) →
     ∃ h1 h2, Evolver_setitem e index v h = (Ok tt, h1)
              ∧ Evolver_setitem e index w h1 = (Ok tt, h2)
              ∧ Evolver_getitem e index h2 = (Ok w, h2))
  ∧ (evolver_class ev = ResizableHashableStructureEvolver →
     ∃ h1 ev1, ResizableEvolver_append e v h = (Ok tt, h1)
               ∧ Evolver_setitem e (len (_elements s)) w h1 = (Raise IndexError, h1)
               ∧ evolvers h1 !! e = Some ev1
               ∧ _appended_elements ev1 = _appended_elements ev ++ [v]
               ∧ _updated_elements ev1 = _updated_elements ev).
Proof.
  intros Hev Hs. pose proof (lookup_lt_Some _ _ _ Hev) as Hlt. split.
  - intros Hidx.
    assert ((0 <=? index) && (index <? len (_elements s)) = true) as Hguard.
    { apply andb_true_iff. split; [apply Z.leb_le|apply Z.ltb_lt]; lia. }
    set (ev1 := {| evolver_class := evolver_class ev;
                   _original_structure := _original_structure ev;
                   _updated_elements := dict_set (_updated_elements ev) index v;
                   _appended_elements := _appended_elements ev |}).
    set (h1 := {| structures := structures h; evolvers := <[e := ev1]> (evolvers h) |}).
    set (ev2 := {| evolver_class := evolver_class ev1;
                   _original_structure := _original_structure ev1;
                   _updated_elements := dict_set (_updated_elements ev1) index w;
                   _appended_elements := _appended_elements ev1 |}).
    set (h2 := {| structures := structures h1; evolvers := <[e := ev2]> (evolvers h1) |}).
    assert (evolvers h1 !! e = Some ev1) as Hev1 by by apply list_lookup_insert_eq.
    assert (evolvers h2 !! e = Some ev2) as Hev2.
    { apply list_lookup_insert_eq. simpl. by rewrite length_insert. }
    exists h1, h2. split_and!.
    + by rewrite (Evolver_setitem_eq h e ev s index v Hev Hs), Hguard.
    + by rewrite (Evolver_setitem_eq h1 e ev1 s index w Hev1 Hs), Hguard.
    + rewrite (Evolver_getitem_eq h2 e ev2 s index Hev2 Hs). simpl.
      by rewrite dict_get_set_eq.
  - intros Hcls.
    set (ev1 := {| evolver_class := evolver_class ev;
                   _original_structure := _original_structure ev;
                   _updated_elements := _updated_elements ev;
                   _appended_elements := _appended_elements ev ++ [v] |}).
    set (h1 := {| structures := structures h; evolvers := <[e := ev1]> (evolvers h) |}).
    assert (evolvers h1 !! e = Some ev1) as Hev1 by by apply list_lookup_insert_eq.
    exists h1, ev1. split_and!; try done.
    + unfold ResizableEvolver_append.
      rewrite (ResizableEvolver_extend_eq h e ev [v] Hev). unfold h1, ev1.
      by rewrite Hcls.
    + rewrite (Evolver_setitem_eq h1 e ev1 s _ w Hev1 Hs).
      by rewrite Z.ltb_irrefl, andb_false_r.
Qed.

(** C5.  The root of a [HashableList] is the hash of its raw root followed
    by the 32-byte little-endian encoding of its length: [le256] gives 32
    bytes that decode to the length. *)
Theorem HashableList_root_mixes_in_length h l s :
  structures h !! l = Some s →
  __class__ s = HashableList →
  ∃ r n, raw_root l h = (Ok r, h)
         ∧ Structure_len l h = (Ok n, h)
         ∧ root l h = (Ok (hash_eth2 (r ++ le256 n)), h)
         ∧ length (le256 n) = 32%nat
         ∧ (n < 2 ^ 256 → from_bytes_little (le256 n) = n).
Proof.
  intros Hs Hcls.
  exists (HashTree_root (_hash_tree s)), (len (_elements s)).
  unfold root, HashableList_root, raw_root, Structure_len, hash_tree, elements, bind,
    get_structure, ret, mix_in_length.
  heap_eval. rewrite Hcls. heap_eval. split_and!; [done..| |].
  - apply length_to_bytes_little.
  - intros Hn. unfold le256. rewrite from_to_bytes_little.
    pose proof (len_nonneg (_elements s)).
    apply Z.mod_small. change (256 ^ Z.of_nat 32) with (2 ^ 256). lia.
Qed.

Lemma heap_step_observations h h' l s :
  heap_step h h' → structures h !! l = Some s →
  structures h' !! l = Some s
  ∧ fst (root l h') = fst (root l h)
  ∧ fst (chunks l h') = fst (chunks l h)
  ∧ ∀ j, fst (Structure_getitem l j h') = fst (Structure_getitem l j h).
Proof.
  intros Hstep Hs. pose proof (heap_step_structure h h' l s Hstep Hs) as Hs'.
  unfold root, HashableList_root, HashableVector_root, raw_root, Structure_len, chunks,
    Structure_getitem, hash_tree, elements, bind, get_structure, ret, lift.
  heap_eval. split_and!; try done. destruct (__class__ s); by heap_eval.
Qed.

(** C8.  A structure [s] at location [l] is unchanged by what is derived
    from it: after [s.set], [s.mset], [s.append], [s.extend], [s * times], and
    after any
    sequence of calls on any evolver ([persistent] included), whether they
    return or raise, the cell of [s] holds the same object, and its root, its
    chunks and its elements at every index read as before. *)
Theorem predecessor_unchanged h l s h' :
  structures h !! l = Some s →
  (∃ index value, h' = snd (Structure_set l index value h))
  ∨ (∃ args, h' = snd (Structure_mset l args h))
  ∨ (∃ value, h' = snd (Resizable_append l value h))
  ∨ (∃ values, h' = snd (Resizable_extend l values h))
  ∨ (∃ times, h' = snd (Resizable_mul l times h))
  ∨ (∃ e calls, h' = run_calls e calls h) →
  structures h' !! l = Some s
  ∧ fst (root l h') = fst (root l h)
  ∧ fst (chunks l h') = fst (chunks l h)
  ∧ ∀ j, fst (Structure_getitem l j h') = fst (Structure_getitem l j h).
Proof.
  intros Hs Hderived. apply heap_step_observations; [|done].
  destruct Hderived as [(index & value & ->)|[(args & ->)|[(value & ->)|[(values & ->)|
    [(times & ->)|(e & calls & ->)]]]]].
  - apply preserves_Structure_set.
  - apply preserves_Structure_mset.
  - apply preserves_Resizable_append.
  - apply preserves_Resizable_extend.
  - apply preserves_Resizable_mul.
  - apply heap_step_run_calls.
Qed.

(** C9.  After any sequence of calls on an evolver over [s], appends and
    extends included, [len(evolver)] is [len(s)], and [evolver[index] = element]
    succeeds for [0 <= index < len(s)] and raises [IndexError] for every other
    index. *)
Theorem evolver_len_ignores_staged_appends h e ev s calls :
  evolvers h !! e = Some ev →
  structures h !! _original_structure ev = Some s →
  Evolver_len e (run_calls e calls h) = (Ok (len (_elements s)), run_calls e calls h)
  ∧ ∀ index element,
      (0 ≤ index < len (_elements s) →
         fst (Evolver_setitem e index element (run_calls e calls h)) = Ok tt)
      ∧ (¬ 0 ≤ index < len (_elements s) →
         Evolver_setitem e index element (run_calls e calls h)
         = (Raise IndexError, run_calls e calls h)).
Proof.
  intros Hev Hs.
  destruct (heap_step_run_calls e calls h) as [Hprefix Hevs].
  destruct (Hevs e ev Hev) as (ev' & Hev' & Horig & _).
  assert (structures (run_calls e calls h) !! _original_structure ev' = Some s) as Hs'.
  { rewrite Horig. by eapply prefix_lookup_Some. }
  split; [by apply (Evolver_len_eq _ e ev' s)|].
  intros index element. rewrite (Evolver_setitem_eq _ e ev' s) by done. split.
  - intros Hidx.
    destruct (Z.leb_spec 0 index); [|lia].
    destruct (Z.ltb_spec index (len (_elements s))); [done|lia].
  - intros Hidx.
    destruct (Z.leb_spec 0 index); [|done].
    destruct (Z.ltb_spec index (len (_elements s))); [lia|done].
Qed.

(** C10.  [s.mset()] without arguments returns the location of [s] itself
    and allocates no structure; an evolver without recorded updates and
    appends is not dirty, and its [persistent()] returns its original
    structure and leaves the heap as it is. *)
Theorem mset_without_arguments_returns_self h l s :
  structures h !! l = Some s →
  (∃ h', Structure_mset l [] h = (Ok l, h') ∧ structures h' = structures h)
  ∧ (∀ h0 e ev, evolvers h0 !! e = Some ev →
       _updated_elements ev = [] → _appended_elements ev = [] →
       Evolver_is_dirty e h0 = (Ok false, h0)
       ∧ Evolver_persistent e h0 = (Ok (_original_structure ev), h0)).
Proof.
  intros Hs. split.
  - unfold Structure_mset, Structure_evolver, Evolver_init, Evolver_persistent,
      Evolver_is_dirty, bind, get_structure, get_evolver, new_evolver, ret. simpl.
    rewrite Hs. destruct (__class__ s); simpl;
      repeat (rewrite list_lookup_middle by done; simpl); by eexists.
  - intros h0 e ev Hev Hu Ha.
    unfold Evolver_persistent, Evolver_is_dirty, bind, get_evolver, ret.
    repeat first [rewrite Hev | rewrite Hu | rewrite Ha | progress cbn beta iota delta [negb]];
      done.
Qed.

End Claims.

(** ** The recursion of [__mul__] *)

Section Repetition.

Context {TElement : Type}.

Lemma concat_self_doubles : doubles_elements (concat_self (TElement:=TElement)).
Proof.
  intros h l s Hs.
  exists (length (structures h)),
    {| __class__ := __class__ s; _elements := _elements s ++ _elements s;
       _hash_tree := _hash_tree s; _sedes := _sedes s |}.
  eexists. unfold concat_self, Structure_init, bind, get_structure, new_structure.
  rewrite Hs. split_and!; [done| |done].
  simpl. by apply list_lookup_middle.
Qed.

(** X1.  With a concatenation that works, [s * times] for [times = frames + 1]
    holds [2 ^ frames * len(s)] elements: each level of the recursion
    [(self + self) * (times - 1)] doubles the structure it is called on. *)
Theorem mul_frames_doubles (add_self : nat → M TElement nat) frames
  (h : Heap TElement) l (s : Structure TElement) :
  doubles_elements add_self →
  structures h !! l = Some s →
  ∃ l' s' h', mul_frames add_self (S frames) l h = (Ok l', h')
              ∧ structures h' !! l' = Some s'
              ∧ len (_elements s') = 2 ^ Z.of_nat frames * len (_elements s).
Proof.
  intros Hadd. revert h l s. induction frames as [|frames IH]; intros h l s Hs.
  - exists l, s, h. split_and!; [done..|]. simpl. lia.
  - destruct (Hadd h l s Hs) as (l1 & s1 & h1 & Hrun & Hs1 & Helems).
    destruct (IH h1 l1 s1 Hs1) as (l' & s' & h' & Hrec & Hs' & Hlen).
    exists l', s', h'. split_and!; [|done|].
    + change (mul_frames add_self (S (S frames)) l h)
        with (bind (add_self l) (fun doubled => mul_frames add_self (S frames) doubled) h).
      unfold bind. by rewrite Hrun.
    + rewrite Hlen, Helems. unfold len. rewrite length_app.
      rewrite Nat2Z.inj_succ, Z.pow_succ_r by lia. lia.
Qed.

End Repetition.

(** ** Evaluations on the concrete list *)

Lemma persistent_of_dirty_evolver_raises_witness :
  Evolver_persistent 0%nat example_heap_updated = (Raise TypeError, example_heap_updated).
Proof.
  apply (persistent_of_dirty_evolver_raises example_heap_updated 0%nat
           {| evolver_class := ResizableHashableStructureEvolver;
              _original_structure := 0%nat;
              _updated_elements := [(0, 9)];
              _appended_elements := [] |}
           example_list).
  - reflexivity.
  - reflexivity.
  - left. discriminate.
Defined.

(** C7.  [HashableList([7]) * 3] and [* 2] go through [self + self], whose
    [persistent] raises [TypeError]; [* 1] returns the list itself and [* 0]
    raises [ValueError] (the spec's [ArgumentError]).  The spec expects
    [3 * len(s)] and [2 * len(s)] elements. *)
Theorem repeat_of_nonempty_list_raises :
  fst (Resizable_mul 0%nat 3 example_heap) = Raise TypeError
  ∧ fst (Resizable_mul 0%nat 2 example_heap) = Raise TypeError
  ∧ fst (Resizable_mul 0%nat 1 example_heap) = Ok 0%nat
  ∧ fst (Resizable_mul 0%nat 0 example_heap) = Raise ValueError.
Proof. repeat split; reflexivity. Qed.

Lemma mul_frames_doubles_witness :
  ∃ l' s' h', mul_frames concat_self 3 0%nat example_heap = (Ok l', h')
              ∧ structures h' !! l' = Some s'
              ∧ len (_elements s') = 2 ^ Z.of_nat 2 * len (_elements example_list).
Proof.
  apply (mul_frames_doubles concat_self 2 example_heap 0%nat example_list).
  - apply concat_self_doubles.
  - reflexivity.
Defined.

(** C3 as stated fails: over [s = [7]] with [8] appended, index [1] is in
    the appended range and the spec's read gives [8]; the evolver raises
    [IndexError]. *)
Lemma evolver_getitem_appended_index_raises :
  spec_get (_elements example_list) [] [8] 1 = Ok 8
  ∧ fst (read_staged_append example_heap) = Raise IndexError.
Proof. split; reflexivity. Qed.

Lemma evolver_getitem_spec_witness :
  Evolver_getitem 0%nat 0 example_heap_updated = (Ok 9, example_heap_updated)
  ∧ Evolver_getitem 0%nat 1 example_heap_appended = (Raise IndexError, example_heap_appended)
  ∧ Evolver_getitem 0%nat (-1) example_heap_appended = (Ok 7, example_heap_appended).
Proof.
  split_and!.
  - apply (evolver_getitem_spec example_heap_updated 0%nat
             {| evolver_class := ResizableHashableStructureEvolver;
                _original_structure := 0%nat;
                _updated_elements := [(0, 9)];
                _appended_elements := [] |}
             example_list 0 eq_refl eq_refl).
    reflexivity.
  - apply (evolver_getitem_spec example_heap_appended 0%nat
             {| evolver_class := ResizableHashableStructureEvolver;
                _original_structure := 0%nat;
                _updated_elements := [];
                _appended_elements := [8] |}
             example_list 1 eq_refl eq_refl); [reflexivity|].
    right. vm_compute. discriminate.
  - reflexivity.
Defined.

(** C4 as stated fails: over [s = [7]], [append(8)] followed by
    [e[len(s)] = 9] raises [IndexError]. *)
Lemma set_after_append_raises :
  fst (set_staged_append example_heap) = Raise IndexError.
Proof. reflexivity. Qed.

Lemma evolver_set_ordering_witness :
  ∃ h1 h2, Evolver_setitem 0%nat 0 5 example_heap_evolver = (Ok tt, h1)
           ∧ Evolver_setitem 0%nat 0 6 h1 = (Ok tt, h2)
           ∧ Evolver_getitem 0%nat 0 h2 = (Ok 6, h2).
Proof.
  apply (evolver_set_ordering example_heap_evolver 0%nat
           {| evolver_class := ResizableHashableStructureEvolver;
              _original_structure := 0%nat;
              _updated_elements := [];
              _appended_elements := [] |}
           example_list 0 5 6 eq_refl eq_refl).
  vm_compute. split; [discriminate|reflexivity].
Defined.

Lemma HashableList_root_mixes_in_length_witness :
  ∃ r n, raw_root (H:=example_hasher) 0%nat example_heap = (Ok r, example_heap)
         ∧ Structure_len 0%nat example_heap = (Ok n, example_heap)
         ∧ root (H:=example_hasher) 0%nat example_heap
           = (Ok (example_hasher (r ++ le256 n)), example_heap)
         ∧ length (le256 n) = 32%nat
         ∧ (n < 2 ^ 256 → from_bytes_little (le256 n) = n).
Proof.
  apply (HashableList_root_mixes_in_length (H:=example_hasher) example_heap 0%nat
           example_list); reflexivity.
Defined.

Lemma update_element_in_chunk_spec_witness :
  len ZERO_BYTES32 = CHUNK_SIZE
  ∧ ∃ result, update_element_in_chunk ZERO_BYTES32 1 (replicate 16 xaa) = Ok result
              ∧ slot_replaced ZERO_BYTES32 1 (replicate 16 xaa) result.
Proof.
  split; [reflexivity|].
  apply (update_element_in_chunk_spec ZERO_BYTES32 1 (replicate 16 xaa) eq_refl).
  - vm_compute. discriminate.
  - reflexivity.
  - vm_compute. split; [discriminate|reflexivity].
Defined.

Lemma predecessor_unchanged_witness :
  structures (snd (Structure_set 0%nat 0 9 example_heap)) !! 0%nat = Some example_list
  ∧ fst (root (H:=example_hasher) 0%nat (snd (Structure_set 0%nat 0 9 example_heap)))
    = fst (root (H:=example_hasher) 0%nat example_heap)
  ∧ fst (chunks 0%nat (snd (Structure_set 0%nat 0 9 example_heap)))
    = fst (chunks 0%nat example_heap)
  ∧ ∀ j, fst (Structure_getitem 0%nat j (snd (Structure_set 0%nat 0 9 example_heap)))
         = fst (Structure_getitem 0%nat j example_heap).
Proof.
  apply (predecessor_unchanged (H:=example_hasher) example_heap 0%nat example_list).
  - reflexivity.
  - left. exists 0, 9. reflexivity.
Defined.

Lemma evolver_len_ignores_staged_appends_witness :
  _appended_elements
    <$> evolvers
          (run_calls 0%nat [CallAppend 8; CallExtend [9; 10]; CallSetitem 0 5; CallPersistent]
             example_heap_evolver) !! 0%nat
  = Some [8; 9; 10]
  ∧ Evolver_len 0%nat
      (run_calls 0%nat [CallAppend 8; CallExtend [9; 10]; CallSetitem 0 5; CallPersistent]
         example_heap_evolver)
    = (Ok 1,
       run_calls 0%nat [CallAppend 8; CallExtend [9; 10]; CallSetitem 0 5; CallPersistent]
         example_heap_evolver).
Proof.
  split; [reflexivity|].
  apply (evolver_len_ignores_staged_appends example_heap_evolver 0%nat
           {| evolver_class := ResizableHashableStructureEvolver;
              _original_structure := 0%nat;
              _updated_elements := [];
              _appended_elements := [] |}
           example_list
           [CallAppend 8; CallExtend [9; 10]; CallSetitem 0 5; CallPersistent]
           eq_refl eq_refl).
Defined.

Lemma mset_without_arguments_returns_self_witness :
  ∃ h', Structure_mset 0%nat [] example_heap = (Ok 0%nat, h')
        ∧ structures h' = structures example_heap.
Proof.
  apply (mset_without_arguments_returns_self example_heap 0%nat example_list).
  reflexivity.
Defined.

(** * The chunk edits of a changeset *)

(** ** Partitioning into groups *)

Lemma partition_groups_nil {A} (fuel n : nat) (pad : A) :
  partition_groups fuel n [] pad = [].
Proof. by destruct fuel. Qed.

Lemma partition_groups_cons {A} (fuel n : nat) (seq : list A) (pad : A) :
  seq ≠ [] →
  partition_groups (S fuel) n seq pad
  = (take n seq ++ replicate (n - length (take n seq)) pad)
      :: partition_groups fuel n (drop n seq) pad.
Proof. by destruct seq. Qed.

(** [partition_groups] with enough fuel: groups of [n], the last one padded. *)
Lemma partition_groups_spec {A} (fuel n : nat) (seq : list A) (pad : A) :
  (0 < n)%nat → (length seq ≤ fuel)%nat →
  Forall (λ group, length group = n) (partition_groups fuel n seq pad)
  ∧ (∃ m, (m < n)%nat
          ∧ concat (partition_groups fuel n seq pad) = seq ++ replicate m pad
          ∧ (length seq + m = n * length (partition_groups fuel n seq pad))%nat).
Proof.
  intros Hn. revert seq. induction fuel as [|fuel IH]; intros seq Hfuel.
  { destruct seq; [|simpl in Hfuel; lia]. simpl. split; [constructor|].
    exists 0%nat. simpl. split_and!; [lia|done|lia]. }
  destruct (decide (seq = [])) as [->|Hne].
  { simpl. split; [constructor|]. exists 0%nat. simpl. split_and!; [lia|done|lia]. }
  assert (0 < length seq)%nat as Hpos by (destruct seq; [done|simpl; lia]).
  rewrite partition_groups_cons by done.
  destruct (decide (length seq ≤ n)%nat) as [Hshort|Hlong].
  - rewrite (take_ge seq n), (drop_ge seq n), partition_groups_nil by done.
    split.
    + constructor; [|constructor]. rewrite length_app, length_replicate. lia.
    + exists (n - length seq)%nat. simpl. rewrite app_nil_r.
      split_and!; [lia|done|lia].
  - destruct (IH (drop n seq)) as (Hall & m & Hm & Hcat & Hlen).
    { rewrite length_drop. lia. }
    assert (length (take n seq) = n) as Htake by (rewrite length_take; lia).
    split.
    + constructor; [|done]. rewrite length_app, length_replicate. lia.
    + exists m. split; [done|]. simpl.
      rewrite Htake, Nat.sub_diag. simpl. rewrite app_nil_r, Hcat.
      rewrite app_assoc, take_drop. split; [done|].
      rewrite length_drop in Hlen. lia.
Qed.

Lemma concat_replicate_zero (m es : nat) :
  concat (replicate m (replicate es x00)) = replicate (m * es) x00.
Proof.
  induction m as [|m IH]; simpl; [done|]. by rewrite IH, replicate_add.
Qed.

Lemma concat_map_concat {A} (groups : list (list (list A))) :
  concat (map (λ group, concat group) groups) = concat (concat groups).
Proof.
  induction groups as [|g rest IH]; simpl; [done|]. by rewrite concat_app, IH.
Qed.


(** *** Lists of lists of one length *)

Section Uniform.

Context {A : Type}.
Implicit Types (ls : list (list A)) (n k i : nat).

Lemma take_concat_uniform n ls k :
  Forall (λ l, length l = n) ls → take (k * n) (concat ls) = concat (take k ls).
Proof.
  intros Hls. revert k. induction Hls as [|l ls Hl _ IH]; intros k.
  - simpl. by rewrite !take_nil.
  - destruct k as [|k]; simpl; [done|].
    rewrite <- Hl at 1. by rewrite take_app_add, IH.
Qed.

Lemma drop_concat_uniform n ls k :
  Forall (λ l, length l = n) ls → drop (k * n) (concat ls) = concat (drop k ls).
Proof.
  intros Hls. revert k. induction Hls as [|l ls Hl _ IH]; intros k.
  - simpl. by rewrite !drop_nil.
  - destruct k as [|k]; simpl; [done|].
    rewrite <- Hl at 1. by rewrite drop_app_add, IH.
Qed.

Lemma length_concat_uniform n ls :
  Forall (λ l, length l = n) ls → length (concat ls) = (n * length ls)%nat.
Proof.
  induction 1 as [|l ls Hl _ IH]; simpl; [lia|]. rewrite length_app, IH, Hl. lia.
Qed.

Lemma lookup_concat_uniform n ls i :
  (0 < n)%nat → Forall (λ l, length l = n) ls →
  concat ls !! i = ls !! (i / n)%nat ≫= (λ l, l !! (i mod n)%nat).
Proof.
  intros Hn Hls. revert i. induction Hls as [|l ls Hl _ IH]; intros i; simpl; [done|].
  destruct (decide (i < n)%nat) as [Hlt|Hge].
  - rewrite lookup_app_l by lia.
    by rewrite Nat.div_small, Nat.mod_small by done.
  - rewrite lookup_app_r by lia. rewrite IH, Hl.
    pose proof (Nat.div_add (i - n) 1 n ltac:(lia)) as Hdiv.
    pose proof (Nat.Div0.mod_add (i - n) 1 n) as Hmod.
    replace (i - n + 1 * n)%nat with i in * by lia.
    by rewrite Hdiv, Hmod, Nat.add_1_r.
Qed.

Lemma concat_uniform_inj n ls1 ls2 :
  (0 < n)%nat →
  Forall (λ l, length l = n) ls1 → Forall (λ l, length l = n) ls2 →
  concat ls1 = concat ls2 → ls1 = ls2.
Proof.
  intros Hn Hls1. revert ls2. induction Hls1 as [|l1 ls1 Hl1 _ IH]; intros ls2 Hls2 Heq.
  - destruct Hls2 as [|l2 ls2 Hl2 _]; [done|].
    apply (f_equal length) in Heq. simpl in Heq. rewrite length_app in Heq. lia.
  - destruct Hls2 as [|l2 ls2 Hl2 Hls2].
    { apply (f_equal length) in Heq. simpl in Heq. rewrite length_app in Heq. lia. }
    simpl in Heq. apply app_inj_1 in Heq as [-> Heq]; [|congruence].
    f_equal. by apply IH.
Qed.

End Uniform.

(** *** Dictionaries *)

Section Dicts.

Context {V : Type}.
Implicit Types (d : list (Z * V)) (k : Z) (v : V).

Lemma dict_get_None d k : k ∉ map fst d → dict_get d k = None.
Proof.
  induction d as [|[k' v'] rest IH]; simpl; [done|]. intros Hk.
  destruct (Z.eqb_spec k' k) as [->|Hne]; [exfalso; apply Hk; left|].
  apply IH. intros Hin. apply Hk. by right.
Qed.

Lemma dict_get_Some_elem d k v : dict_get d k = Some v → (k, v) ∈ d.
Proof.
  induction d as [|[k' v'] rest IH]; simpl; [done|].
  destruct (Z.eqb_spec k' k) as [->|Hne].
  - intros [= ->]. left.
  - intros Hget. right. by apply IH.
Qed.

Lemma dict_get_elem d k v : NoDup (map fst d) → (k, v) ∈ d → dict_get d k = Some v.
Proof.
  induction d as [|[k' v'] rest IH]; simpl; [by intros _ ?%elem_of_nil|].
  intros [Hk' Hnd]%NoDup_cons [[= -> ->]|Hin]%elem_of_cons.
  - by rewrite Z.eqb_refl.
  - destruct (Z.eqb_spec k' k) as [->|Hne]; [|by apply IH].
    exfalso. apply Hk'. apply list_elem_of_fmap. by exists (k, v).
Qed.

Lemma dict_get_app d1 d2 k :
  dict_get (d1 ++ d2) k
  = match dict_get d1 k with Some v => Some v | None => dict_get d2 k end.
Proof.
  induction d1 as [|[k' v'] rest IH]; simpl; [done|]. by destruct (k' =? k).
Qed.

Lemma dict_set_fresh d k v : k ∉ map fst d → dict_set d k v = d ++ [(k, v)].
Proof.
  induction d as [|[k' v'] rest IH]; simpl; [done|]. intros Hk.
  destruct (Z.eqb_spec k' k) as [->|Hne]; [exfalso; apply Hk; left|].
  rewrite IH; [done|]. intros Hin. apply Hk. by right.
Qed.

Lemma dict_set_keys d k v :
  map fst (dict_set d k v) = if dict_contains d k then map fst d else map fst d ++ [k].
Proof.
  unfold dict_contains. induction d as [|[k' v'] rest IH]; simpl; [done|].
  destruct (Z.eqb_spec k' k) as [->|Hne]; simpl; [done|].
  rewrite IH. by destruct (dict_get rest k).
Qed.

Lemma dict_set_NoDup d k v : NoDup (map fst d) → NoDup (map fst (dict_set d k v)).
Proof.
  intros Hnd. rewrite dict_set_keys. unfold dict_contains.
  destruct (dict_get d k) eqn:Hget; [done|].
  apply NoDup_app. split_and!; [done| |apply NoDup_singleton].
  intros k' Hk' ->%list_elem_of_singleton.
  apply list_elem_of_fmap in Hk' as [[k0 v0] [-> Hin]].
  apply dict_get_elem in Hin; [|done]. simpl in *. congruence.
Qed.

Lemma dict_update_fresh d (items : list (Z * V)) :
  NoDup (map fst (d ++ items)) → dict_update d items = d ++ items.
Proof.
  unfold dict_update. revert d. induction items as [|[k v] rest IH]; intros d Hnd; simpl.
  - by rewrite app_nil_r.
  - rewrite dict_set_fresh.
    + rewrite IH; [by rewrite <- app_assoc|]. by rewrite <- app_assoc.
    + rewrite map_app in Hnd. apply NoDup_app in Hnd as (_ & Hdisj & _).
      intros Hk. apply (Hdisj k Hk). simpl. left.
Qed.

Lemma dict_of_items_NoDup (items : list (Z * V)) : NoDup (map fst items) → dict_of_items items = items.
Proof. intros Hnd. unfold dict_of_items. by rewrite dict_update_fresh. Qed.

End Dicts.

Lemma insert_all_length {A} (l : list A) updates : length (insert_all l updates) = length l.
Proof.
  unfold insert_all. revert l. induction updates as [|[k v] rest IH]; intros l; simpl; [done|].
  by rewrite IH, length_insert.
Qed.

Lemma insert_all_lookup {A} (l : list A) (updates : list (Z * A)) (i : nat) :
  NoDup (map fst updates) → Forall (λ kv, 0 ≤ fst kv) updates → (i < length l)%nat →
  insert_all l updates !! i
  = match dict_get updates (Z.of_nat i) with Some v => Some v | None => l !! i end.
Proof.
  unfold insert_all. revert l.
  induction updates as [|[k v] rest IH]; intros l Hnd Hkeys Hi; simpl; [done|].
  apply NoDup_cons in Hnd as [Hk Hnd]. apply Forall_cons in Hkeys as [Hk0 Hkeys].
  simpl in *. rewrite IH by (rewrite ?length_insert; done).
  destruct (Z.eqb_spec k (Z.of_nat i)) as [->|Hne].
  - rewrite dict_get_None by done. rewrite Nat2Z.id. by apply list_lookup_insert_eq.
  - destruct (dict_get rest (Z.of_nat i)); [done|].
    apply list_lookup_insert_ne. lia.
Qed.

Lemma insert_all_Forall {A} (P : A → Prop) (l : list A) updates :
  Forall P l → Forall (λ kv, P (snd kv)) updates → Forall P (insert_all l updates).
Proof.
  unfold insert_all. revert l. induction updates as [|[k v] rest IH]; intros l Hl Hu; simpl;
    [done|].
  apply Forall_cons in Hu as [Hv Hu]. apply IH; [|done]. by apply Forall_insert.
Qed.

Lemma mapM_total {A B} (f : A → Result B) (g : A → B) (seq : list A) :
  Forall (λ x, f x = Ok (g x)) seq → mapM f seq = Ok (map g seq).
Proof.
  induction 1 as [|x rest Hx _ IH]; simpl; [done|]. by rewrite Hx, IH.
Qed.

(** *** [groupby], [enumerate] and the slots of a chunk *)

Lemma groupby_spec (key : Z → Result Z) (f : Z → Z) (seq : list Z) :
  (∀ x, key x = Ok (f x)) →
  ∃ groups, groupby key seq = Ok groups
            ∧ NoDup (map fst groups)
            ∧ ∀ c, dict_get groups c
                   = match filter (λ x, f x = c) seq with
                     | [] => None
                     | items => Some items
                     end.
Proof.
  intros Hkey. unfold groupby. induction seq as [|x seq IH] using rev_ind.
  - exists []. split_and!; [done|constructor|done].
  - destruct IH as (groups & Hrun & Hnd & Hget).
    rewrite fold_left_app, Hrun. simpl. rewrite Hkey. simpl.
    eexists. split; [done|]. split; [by apply dict_set_NoDup|].
    intros c. rewrite filter_app.
    destruct (decide (f x = c)) as [<-|Hne].
    + rewrite dict_get_set_eq, Hget.
      rewrite (filter_cons_True _ x []) by done.
      by destruct (filter (λ x0, f x0 = f x) seq).
    + rewrite dict_get_set_ne by done. rewrite Hget.
      rewrite (filter_cons_False _ x []) by done.
      by rewrite filter_nil, app_nil_r.
Qed.

Lemma enumerate_cons {A} (x : A) (seq : list A) start :
  enumerate (x :: seq) start = (start, x) :: enumerate seq (start + 1).
Proof.
  unfold enumerate. simpl. f_equal; [f_equal; lia|].
  apply imap_ext. intros j y _. simpl. f_equal. lia.
Qed.

Lemma enumerate_get {A} (seq : list A) start k :
  dict_get (enumerate seq start) k
  = if decide (start ≤ k) then seq !! Z.to_nat (k - start) else None.
Proof.
  revert start. induction seq as [|x seq IH]; intros start.
  - simpl. by case_decide.
  - rewrite enumerate_cons. simpl. rewrite IH.
    destruct (Z.eqb_spec start k) as [->|Hne].
    + rewrite decide_True by lia. by rewrite Z.sub_diag.
    + repeat case_decide; try lia; [|done].
      replace (Z.to_nat (k - start)) with (S (Z.to_nat (k - (start + 1)))) by lia. done.
Qed.

Lemma enumerate_keys {A} (seq : list A) start :
  NoDup (map fst (enumerate seq start))
  ∧ Forall (λ kv, start ≤ fst kv < start + len seq) (enumerate seq start).
Proof.
  revert start. induction seq as [|x seq IH]; intros start.
  - split; constructor.
  - rewrite enumerate_cons. destruct (IH (start + 1)) as [Hnd Hrange]. split.
    + simpl. constructor; [|done]. intros Hin.
      apply list_elem_of_fmap in Hin as [[k v] [Hk Hin]]. simpl in Hk. subst k.
      rewrite Forall_forall in Hrange. specialize (Hrange _ Hin). simpl in Hrange. lia.
    + constructor; [unfold len; simpl; lia|].
      eapply Forall_impl; [done|]. unfold len. simpl. intros; lia.
Qed.

Lemma enumerate_values {A} (P : A → Prop) (seq : list A) start :
  Forall P seq → Forall (λ kv, P (snd kv)) (enumerate seq start).
Proof.
  intros Hseq. revert start. induction Hseq as [|x seq Hx _ IH]; intros start.
  - constructor.
  - rewrite enumerate_cons. by constructor.
Qed.

Lemma len_concat_uniform (E : nat) (slots : list (list byte)) :
  Forall (λ s, length s = E) slots → len (concat slots) = Z.of_nat E * len slots.
Proof. intros Hs. unfold len. rewrite (length_concat_uniform E) by done. lia. Qed.

Lemma update_element_in_chunk_slots (E : nat) (slots : list (list byte)) (k : Z)
  (e : list byte) :
  (0 < E)%nat → Forall (λ s, length s = E) slots → 0 ≤ k < len slots → length e = E →
  update_element_in_chunk (concat slots) k e = Ok (concat (<[Z.to_nat k := e]> slots)).
Proof.
  intros HE Hslots Hk He. rewrite update_element_in_chunk_cases.
  rewrite (len_concat_uniform E) by done.
  assert (len e = Z.of_nat E) as -> by (unfold len; lia).
  rewrite (Z.mul_comm (Z.of_nat E)), Z.mod_mul, Z.div_mul by lia.
  rewrite decide_False by lia. rewrite decide_True by done.
  f_equal.
  replace (Z.to_nat (k * Z.of_nat E)) with (Z.to_nat k * E)%nat by lia.
  replace (Z.to_nat (k * Z.of_nat E + Z.of_nat E)) with (S (Z.to_nat k) * E)%nat by lia.
  rewrite (take_concat_uniform E), (drop_concat_uniform E) by done.
  rewrite insert_take_drop by (unfold len in *; lia).
  by rewrite concat_app.
Qed.

Lemma update_elements_in_chunk_slots (E : nat) (slots : list (list byte))
  (updates : list (Z * list byte)) :
  (0 < E)%nat → Forall (λ s, length s = E) slots →
  Forall (λ kv, 0 ≤ fst kv < len slots ∧ length (snd kv) = E) updates →
  update_elements_in_chunk (concat slots) updates = Ok (concat (insert_all slots updates)).
Proof.
  intros HE. unfold update_elements_in_chunk, dict_items, insert_all. revert slots.
  induction updates as [|[k e] rest IH]; intros slots Hslots Hupdates; simpl; [done|].
  apply Forall_cons in Hupdates as [[Hk He] Hrest]. simpl in *.
  rewrite (update_element_in_chunk_slots E) by done.
  apply IH; [by apply Forall_insert|].
  eapply Forall_impl; [done|]. unfold len. intros kv. by rewrite length_insert.
Qed.

Lemma pvector_mset_insert_all {A} (v : list A) (pairs : list (Z * A)) :
  Forall (λ kv, 0 ≤ fst kv < len v) pairs → pvector_mset v pairs = Ok (insert_all v pairs).
Proof.
  unfold pvector_mset, insert_all. revert v.
  induction pairs as [|[k x] rest IH]; intros v Hpairs; simpl; [done|].
  apply Forall_cons in Hpairs as [Hk Hrest]. simpl in *.
  unfold pvector_set at 2.
  destruct (Z.ltb_spec k 0); [lia|].
  destruct (Z.leb_spec 0 k); [|lia]. destruct (Z.ltb_spec k (len v)); [|lia]. simpl.
  apply IH. eapply Forall_impl; [done|]. unfold len. intros kv. by rewrite length_insert.
Qed.

Lemma HashTree_mset_insert_all (tree : HashTree) (pairs : list (Z * list byte)) :
  Forall (λ kv, 0 ≤ fst kv < len (ht_chunks tree)) pairs →
  HashTree_mset tree pairs
  = Ok {| ht_chunks := insert_all (ht_chunks tree) pairs;
          ht_chunk_count := ht_chunk_count tree |}.
Proof.
  intros Hpairs. unfold HashTree_mset, insert_all.
  generalize (ht_chunks tree) Hpairs. clear Hpairs.
  assert (∀ (chunks : list (list byte)),
            Forall (λ kv : Z * list byte, 0 ≤ kv.1 < len chunks) pairs →
            fold_left
              (λ acc kv, rbind acc (λ chunks0,
                 if (0 <=? kv.1) && (kv.1 <? len chunks0)
                 then Ok (<[Z.to_nat kv.1:=kv.2]> chunks0) else Raise IndexError))
              pairs (Ok chunks)
            = Ok (fold_left (λ acc kv, <[Z.to_nat kv.1:=kv.2]> acc) pairs chunks)) as Hfold.
  { induction pairs as [|[k x] rest IH]; intros chunks Hpairs; simpl; [done|].
    apply Forall_cons in Hpairs as [Hk Hrest]. simpl in *.
    destruct (Z.leb_spec 0 k); [|lia]. destruct (Z.ltb_spec k (len chunks)); [|lia]. simpl.
    apply IH. eapply Forall_impl; [done|]. unfold len. intros kv. by rewrite length_insert. }
  intros chunks Hpairs. by rewrite Hfold.
Qed.

(** ** [get_updated_chunks] on the slots of the chunks *)

Lemma get_updated_chunks_unfold updated_elements appended_elements original_chunks n p :
  get_updated_chunks updated_elements appended_elements original_chunks n p
  = match dict_values updated_elements, slice_to appended_elements p with
    | v :: _, _ | [], v :: _ =>
        let* elements_per_chunk := floordiv CHUNK_SIZE (len v) in
        updated_chunks_loop
          (dict_merge updated_elements
             (dict_of_items (enumerate (slice_to appended_elements p) n)))
          original_chunks elements_per_chunk
    | [], [] => Ok []
    end.
Proof.
  unfold get_updated_chunks.
  destruct (dict_values updated_elements); [|done].
  by destruct (slice_to appended_elements p).
Qed.

Lemma insert_all_fmap {A B} (h : A → B) (l : list A) (updates : list (Z * A)) :
  map h (insert_all l updates)
  = insert_all (map h l) (map (λ kv, (fst kv, h (snd kv))) updates).
Proof.
  unfold insert_all. revert l. induction updates as [|[k v] rest IH]; intros l; simpl; [done|].
  rewrite IH. f_equal. apply (list_fmap_insert h).
Qed.

Lemma dict_get_map_values {A B} (h : Z → A → B) (d : list (Z * A)) k :
  dict_get (map (λ kv, (fst kv, h (fst kv) (snd kv))) d) k = h k <$> dict_get d k.
Proof.
  induction d as [|[k' v'] rest IH]; simpl; [done|].
  destruct (Z.eqb_spec k' k) as [->|Hne]; [done|]. apply IH.
Qed.

Section SlotView.

Variables (E N : nat).
Hypothesis (HE : (0 < E)%nat) (HN : (0 < N)%nat).

Variable groups0 : list (list (list byte)).
Hypothesis Hlen0 : Forall (λ g, length g = N) groups0.
Hypothesis Hsize0 : Forall (Forall (λ s, length s = E)) groups0.

Variable eff : list (Z * list byte).
Hypothesis Hnd : NoDup (map fst eff).
Hypothesis Heff :
  Forall (λ kv, 0 ≤ fst kv < Z.of_nat N * len groups0 ∧ length (snd kv) = E) eff.

Let per_chunk : Z := Z.of_nat N.

Lemma eff_key_get j : j ∈ map fst eff → ∃ e, dict_get eff j = Some e ∧ length e = E
                                         ∧ 0 ≤ j < Z.of_nat N * len groups0.
Proof using All.
  intros Hj. apply list_elem_of_fmap in Hj as [[k e] [-> Hin]]. simpl.
  exists e. rewrite Forall_forall in Heff. destruct (Heff _ Hin) as [Hk He].
  split; [by apply dict_get_elem|]. done.
Qed.

Lemma quotient_in_range j :
  0 ≤ j < Z.of_nat N * len groups0 → 0 ≤ j / per_chunk < len groups0.
Proof using All.
  intros Hj. subst per_chunk. split; [apply Z.div_pos; lia|].
  apply Z.div_lt_upper_bound; lia.
Qed.

Lemma group_slot_updates_spec c items :
  items = filter (λ x, x / per_chunk = c) (map fst eff) →
  NoDup (map fst (group_slot_updates eff per_chunk items))
  ∧ Forall (λ kv, 0 ≤ fst kv < Z.of_nat N ∧ length (snd kv) = E)
           (group_slot_updates eff per_chunk items)
  ∧ mapM (fun element_index =>
            let* slot := pymod element_index per_chunk in
            let* element := dict_getitem eff element_index in
            Ok (slot, element)) items
    = Ok (group_slot_updates eff per_chunk items).
Proof using All.
  intros ->. 
  assert (NoDup (filter (λ x, x / per_chunk = c) (map fst eff))) as Hnd'
    by by apply NoDup_filter.
  assert (Forall (λ j, j ∈ map fst eff ∧ j / per_chunk = c)
            (filter (λ x, x / per_chunk = c) (map fst eff))) as Hall.
  { apply Forall_forall. intros j Hj. apply list_elem_of_filter in Hj. tauto. }
  revert Hnd' Hall. generalize (filter (λ x, x / per_chunk = c) (map fst eff)).
  intros items Hnd' Hall. unfold group_slot_updates. split_and!.
  - rewrite map_map. simpl.
    induction items as [|j items IH]; simpl; [constructor|].
    apply NoDup_cons in Hnd' as [Hj Hnd']. apply Forall_cons in Hall as [[_ Hqj] Hall].
    constructor; [|by apply IH].
    intros Hin. apply list_elem_of_fmap in Hin as [j' [Hmod Hj']].
    rewrite Forall_forall in Hall. destruct (Hall _ Hj') as [_ Hqj'].
    assert (j = j'); [|by subst].
    rewrite (Z.div_mod j per_chunk), (Z.div_mod j' per_chunk) by (subst per_chunk; lia).
    by rewrite Hqj, Hqj', Hmod.
  - apply Forall_map. eapply Forall_impl; [exact Hall|]. intros j [Hj _]. simpl.
    destruct (eff_key_get j Hj) as (e & -> & He & _). simpl. split; [|done].
    subst per_chunk. apply Z.mod_pos_bound. lia.
  - apply mapM_total. eapply Forall_impl; [exact Hall|]. intros j [Hj _]. simpl.
    destruct (eff_key_get j Hj) as (e & Hget & _).
    unfold pymod, dict_getitem. rewrite Hget. simpl.
    destruct (Z.eqb_spec per_chunk 0); [subst per_chunk; lia|]. done.
Qed.


Lemma group_facts (groups : list (Z * list Z)) c items :
  (∀ c', dict_get groups c'
         = match filter (λ x, x / per_chunk = c') (map fst eff) with
           | [] => None
           | items' => Some items'
           end) →
  dict_get groups c = Some items →
  items = filter (λ x, x / per_chunk = c) (map fst eff)
  ∧ 0 ≤ c < len groups0
  ∧ ∃ slots, groups0 !! Z.to_nat c = Some slots
             ∧ length slots = N ∧ Forall (λ s, length s = E) slots.
Proof using All.
  intros Hget Hc. rewrite Hget in Hc.
  destruct (filter (λ x, x / per_chunk = c) (map fst eff)) as [|j rest] eqn:Hfilter; [done|].
  injection Hc as <-. split; [done|].
  assert (j ∈ filter (λ x, x / per_chunk = c) (map fst eff)) as Hj by (rewrite Hfilter; left).
  apply list_elem_of_filter in Hj as [Hq Hj].
  destruct (eff_key_get j Hj) as (_ & _ & _ & Hrange).
  apply quotient_in_range in Hrange. rewrite Hq in Hrange. split; [done|].
  destruct (lookup_lt_is_Some_2 groups0 (Z.to_nat c)) as [slots Hslots];
    [unfold len in *; lia|].
  exists slots. split; [done|].
  rewrite Forall_forall in Hlen0, Hsize0.
  apply list_elem_of_lookup_2 in Hslots. auto.
Qed.

Lemma updated_chunks_loop_spec :
  ∃ groups,
    NoDup (map fst groups)
    ∧ (∀ c, dict_get groups c
            = match filter (λ x, x / per_chunk = c) (map fst eff) with
              | [] => None
              | items => Some items
              end)
    ∧ updated_chunks_loop eff (map (λ g, concat g) groups0) per_chunk
      = Ok (map (λ kv, (fst kv, concat (snd kv)))
                (map (updated_group eff per_chunk groups0) groups)).
Proof using All.
  destruct (groupby_spec (λ j, floordiv j per_chunk) (λ j, j / per_chunk) (map fst eff))
    as (groups & Hrun & Hndg & Hget).
  { intros j. unfold floordiv. destruct (Z.eqb_spec per_chunk 0); [subst per_chunk; lia|done]. }
  exists groups. split; [done|]. split; [done|].
  unfold updated_chunks_loop, dict_keys, dict_items. rewrite Hrun. cbn [rbind].
  rewrite (mapM_total _ (λ group, (fst group,
             concat (snd (updated_group eff per_chunk groups0 group))))).
  - cbn [rbind]. rewrite map_map. simpl. rewrite dict_of_items_NoDup; [done|].
    by rewrite map_map.
  - apply Forall_forall. intros [c items] Hin. simpl.
    apply (dict_get_elem _ _ _ Hndg) in Hin.
    destruct (group_facts groups c items Hget Hin) as (Hitems & Hc & slots & Hslots & Hn & He).
    destruct (group_slot_updates_spec c items Hitems) as (Hnds & Hupd & ->). cbn [rbind].
    rewrite dict_of_items_NoDup by done.
    destruct (getitem_in_range (map (λ g, concat g) groups0) c) as (chunk & Hchunk & ->).
    { unfold len in *. by rewrite length_map. }
    change (map (λ g, concat g) groups0) with ((λ g, concat g) <$> groups0) in Hchunk.
    rewrite list_lookup_fmap, Hslots in Hchunk. injection Hchunk as <-. cbn [rbind].
    rewrite (update_elements_in_chunk_slots E); [by rewrite Hslots|done|done|].
    eapply Forall_impl; [exact Hupd|]. unfold len. simpl. intros kv. by rewrite Hn.
Qed.


Lemma updated_group_keys (groups : list (Z * list Z)) :
  map fst (map (updated_group eff per_chunk groups0) groups) = map fst groups.
Proof using Type. by rewrite map_map. Qed.

Lemma updated_groups_facts (groups : list (Z * list Z)) :
  NoDup (map fst groups) →
  (∀ c, dict_get groups c
        = match filter (λ x, x / per_chunk = c) (map fst eff) with
          | [] => None
          | items => Some items
          end) →
  Forall (λ kv, 0 ≤ fst kv < len groups0 ∧ length (snd kv) = N
                ∧ Forall (λ s, length s = E) (snd kv))
         (map (updated_group eff per_chunk groups0) groups).
Proof using All.
  intros Hndg Hget. apply Forall_map, Forall_forall. intros [c items] Hin.
  apply (dict_get_elem _ _ _ Hndg) in Hin.
  destruct (group_facts groups c items Hget Hin) as (Hitems & Hc & slots & Hslots & Hn & He).
  destruct (group_slot_updates_spec c items Hitems) as (_ & Hupd & _).
  unfold updated_group. simpl. rewrite Hslots. simpl. split_and!; [lia..| |].
  - by rewrite insert_all_length.
  - apply insert_all_Forall; [done|]. eapply Forall_impl; [exact Hupd|]. by intros kv [_ ?].
Qed.

Lemma updated_groups_concat (groups : list (Z * list Z)) :
  NoDup (map fst groups) →
  (∀ c, dict_get groups c
        = match filter (λ x, x / per_chunk = c) (map fst eff) with
          | [] => None
          | items => Some items
          end) →
  concat (insert_all groups0 (map (updated_group eff per_chunk groups0) groups))
  = insert_all (concat groups0) eff.
Proof using All.
  intros Hndg Hget.
  pose proof (updated_groups_facts groups Hndg Hget) as Hfacts.
  set (groups1 := insert_all groups0 (map (updated_group eff per_chunk groups0) groups)).
  assert (Forall (λ g, length g = N) groups1) as Hlen1.
  { apply insert_all_Forall; [done|]. eapply Forall_impl; [exact Hfacts|]. by intros kv (_ & ? & _). }
  assert (length groups1 = length groups0) as Hcount by apply insert_all_length.
  apply list_eq. intros i.
  destruct (decide (i < length (concat groups0))%nat) as [Hi|Hi].
  2: { rewrite !lookup_ge_None_2; [done| |].
       - rewrite insert_all_length. lia.
       - rewrite (length_concat_uniform N) by done.
         rewrite (length_concat_uniform N) in Hi by done. lia. }
  rewrite (length_concat_uniform N) in Hi by done.
  assert (i / N < length groups0)%nat as Hc by (apply Nat.Div0.div_lt_upper_bound; lia).
  assert (i mod N < N)%nat as Hr by (apply Nat.mod_upper_bound; lia).
  assert (Z.of_nat i / per_chunk = Z.of_nat (i / N)) as Hq by (by rewrite Nat2Z.inj_div).
  assert (Z.of_nat i mod per_chunk = Z.of_nat (i mod N)) as Hm by (by rewrite Nat2Z.inj_mod).
  rewrite insert_all_lookup; [|done| |].
  2: { eapply Forall_impl; [exact Heff|]. intros kv [? _]. lia. }
  2: { rewrite (length_concat_uniform N) by done. lia. }
  rewrite !(lookup_concat_uniform N) by done.
  unfold groups1. rewrite insert_all_lookup; [| | |done].
  2: { by rewrite updated_group_keys. }
  2: { eapply Forall_impl; [exact Hfacts|]. intros kv [? _]. lia. }
  unfold updated_group.
  rewrite (dict_get_map_values
             (λ c items, insert_all (default [] (groups0 !! Z.to_nat c))
                                    (group_slot_updates eff per_chunk items))).
  destruct (dict_get groups (Z.of_nat (i / N))) as [items|] eqn:Hgroup; simpl.
  - destruct (group_facts groups _ items Hget Hgroup)
      as (Hitems & _ & slots & Hslots & Hn & He).
    rewrite Nat2Z.id in Hslots. rewrite Nat2Z.id, Hslots. simpl.
    destruct (group_slot_updates_spec _ items Hitems) as (Hnds & Hupd & _).
    rewrite insert_all_lookup; [|done| |lia].
    2: { eapply Forall_impl; [exact Hupd|]. intros kv [? _]. lia. }
    destruct (dict_get eff (Z.of_nat i)) as [e|] eqn:Heffi.
    + rewrite (dict_get_elem _ (Z.of_nat (i mod N)) e); [done|done|].
      unfold group_slot_updates. apply list_elem_of_fmap. exists (Z.of_nat i).
      rewrite Heffi, Hm. split; [done|].
      rewrite Hitems. apply list_elem_of_filter. split; [done|].
      apply dict_get_Some_elem in Heffi. apply list_elem_of_fmap. by exists (Z.of_nat i, e).
    + rewrite dict_get_None; [done|].
      unfold group_slot_updates. rewrite map_map. simpl. intros Hin.
      apply list_elem_of_fmap in Hin as [j [Hjm Hj]].
      rewrite Hitems in Hj. apply list_elem_of_filter in Hj as [Hjq Hj].
      assert (j = Z.of_nat i) as ->.
      { rewrite (Z.div_mod j per_chunk), (Z.div_mod (Z.of_nat i) per_chunk)
          by (subst per_chunk; lia).
        rewrite Hjq, Hq, <- Hjm, Hm. done. }
      destruct (eff_key_get _ Hj) as (e & Hsome & _). congruence.
  - destruct (dict_get eff (Z.of_nat i)) as [e|] eqn:Heffi; [|done].
    exfalso. rewrite Hget in Hgroup.
    assert (Z.of_nat i ∈ filter (λ x, x / per_chunk = Z.of_nat (i / N)) (map fst eff)) as Hin.
    { apply list_elem_of_filter. split; [done|].
      apply dict_get_Some_elem in Heffi. apply list_elem_of_fmap. by exists (Z.of_nat i, e). }
    destruct (filter _ _); [by apply elem_of_nil in Hin|done].
Qed.

End SlotView.

(** ** Packing and rebuilding *)

Section Packing.

Variables (E N : nat).
Hypothesis (HE : (0 < E)%nat) (HN : (0 < N)%nat) (HNE : (N * E = 32)%nat).

Let pad : list byte := replicate E x00.

Lemma elements_per_chunk_eq : CHUNK_SIZE / Z.of_nat E = Z.of_nat N.
Proof using All.
  unfold CHUNK_SIZE. replace 32 with (Z.of_nat N * Z.of_nat E) by lia.
  apply Z.div_mul. lia.
Qed.

Lemma get_appended_chunks_groups (appended_elements : list (list byte)) (p : Z) :
  0 ≤ p → Forall (λ e, length e = E) appended_elements →
  ∃ groups m,
    get_appended_chunks appended_elements p = Ok (map (λ g, concat g) groups)
    ∧ Forall (λ g, length g = N) groups
    ∧ Forall (Forall (λ s, length s = E)) groups
    ∧ (m < N)%nat
    ∧ concat groups = drop (Z.to_nat p) appended_elements ++ replicate m pad
    ∧ (len appended_elements ≤ p → groups = [] ∧ m = 0%nat).
Proof using All.
  intros Hp Hsizes. unfold get_appended_chunks.
  destruct (Z.leb_spec (len appended_elements) p) as [Hfew|Hmany].
  { exists [], 0%nat. rewrite drop_ge by (unfold len in *; lia).
    split_and!; [done|constructor|constructor|lia|done|done]. }
  destruct appended_elements as [|first rest]; [unfold len in *; simpl in *; lia|].
  set (elems := first :: rest) in *.
  assert (len first = Z.of_nat E) as Hfirst.
  { apply Forall_cons in Hsizes as [Hf _]. unfold len. lia. }
  change (getitem elems 0) with (Ok (A:=list byte) first). cbn [rbind].
  rewrite Hfirst. unfold floordiv.
  destruct (Z.eqb_spec (Z.of_nat E) 0) as [|_]; [lia|]. cbn [rbind].
  rewrite elements_per_chunk_eq. unfold partition_pad, slice_from.
  destruct (Z.leb_spec (Z.of_nat N) 0) as [|_]; [lia|].
  destruct (Z.ltb_spec p 0) as [|_]; [lia|].
  rewrite !Nat2Z.id. fold pad.
  set (tail := drop (Z.to_nat p) elems).
  destruct (partition_groups_spec (length tail) N tail pad) as (Hall & m & Hm & Hcat & _);
    [lia|done|].
  exists (partition_groups (length tail) N tail pad), m.
  split_and!; [done|done| |done|done|lia].
  apply Forall_concat. rewrite Hcat. apply Forall_app. split.
  - by apply Forall_drop.
  - apply Forall_replicate. apply length_replicate.
Qed.

Lemma ZERO_BYTES32_slots : ZERO_BYTES32 = concat (replicate N pad).
Proof using All. subst pad. rewrite concat_replicate_zero. unfold ZERO_BYTES32. by rewrite HNE. Qed.

Lemma packed_chunks_groups (elems : list (list byte)) :
  Forall (λ e, length e = E) elems →
  ∃ groups m,
    packed_chunks elems = Ok (map (λ g, concat g) groups)
    ∧ Forall (λ g, length g = N) groups
    ∧ Forall (Forall (λ s, length s = E)) groups
    ∧ concat groups = elems ++ replicate m pad
    ∧ (elems ≠ [] → m < N)%nat
    ∧ (elems = [] → m = N).
Proof using All.
  intros Hsizes. unfold packed_chunks.
  destruct (get_appended_chunks_groups elems 0 ltac:(lia) Hsizes)
    as (groups & m & -> & Hlen & Hsize & Hm & Hcat & _).
  cbn [rbind]. rewrite drop_0 in Hcat.
  destruct groups as [|g groups].
  - simpl in Hcat. symmetry in Hcat. apply app_eq_nil in Hcat as [-> _].
    exists [replicate N pad], N. simpl. rewrite app_nil_r, <- ZERO_BYTES32_slots.
    split_and!; [done| | |done|done|done].
    + constructor; [apply length_replicate|constructor].
    + constructor; [|constructor]. apply Forall_replicate, length_replicate.
  - exists (g :: groups), m. split_and!; [done..| |].
    + done.
    + intros ->. apply (f_equal length) in Hcat.
      apply Forall_cons in Hlen as [Hg _].
      simpl in Hcat. rewrite length_app, length_replicate, Hg in Hcat. lia.
Qed.

End Packing.

Lemma insert_all_app {A} (l : list A) (updates1 updates2 : list (Z * A)) :
  insert_all l (updates1 ++ updates2) = insert_all (insert_all l updates1) updates2.
Proof. unfold insert_all. apply fold_left_app. Qed.

Lemma insert_all_app_l {A} (l tail : list A) (updates : list (Z * A)) :
  Forall (λ kv, 0 ≤ fst kv < len l) updates →
  insert_all (l ++ tail) updates = insert_all l updates ++ tail.
Proof.
  unfold insert_all. revert l. induction updates as [|[k v] rest IH]; intros l Hu; simpl;
    [done|].
  apply Forall_cons in Hu as [Hk Hrest]. simpl in *.
  rewrite insert_app_l by (unfold len in *; lia).
  apply IH. eapply Forall_impl; [done|]. unfold len. intros kv. by rewrite length_insert.
Qed.

Lemma insert_all_enumerate {A} (l new tail : list A) :
  (length new ≤ length tail)%nat →
  insert_all (l ++ tail) (enumerate new (len l)) = l ++ new ++ drop (length new) tail.
Proof.
  revert l tail. induction new as [|x new IH]; intros l tail Hlen; [done|].
  rewrite enumerate_cons. destruct tail as [|y tail]; [simpl in Hlen; lia|].
  unfold insert_all. simpl. fold (insert_all (<[Z.to_nat (len l):=x]> (l ++ y :: tail))
                                    (enumerate new (len l + 1))).
  unfold len at 1. rewrite Nat2Z.id.
  rewrite (insert_app_r_alt l (y :: tail)), Nat.sub_diag by done. simpl.
  replace (len l + 1) with (len (l ++ [x])) by (unfold len; rewrite length_app; simpl; lia).
  rewrite (cons_middle x l tail), app_assoc.
  rewrite IH by (simpl in Hlen; lia).
  by rewrite <- app_assoc.
Qed.

Section ChunkEdits.

Variables (E N : nat).
Hypothesis (HE : (0 < E)%nat) (HN : (0 < N)%nat) (HNE : (N * E = 32)%nat).

Let pad : list byte := replicate E x00.

(** [get_updated_chunks] on chunks that hold the slots [groups0]. *)
Lemma get_updated_chunks_slots (groups0 : list (list (list byte)))
  (u : list (Z * list byte)) (a : list (list byte)) (n p : Z) :
  Forall (λ g, length g = N) groups0 →
  Forall (Forall (λ s, length s = E)) groups0 →
  Forall (λ kv, length (snd kv) = E) u →
  Forall (λ e, length e = E) a →
  let eff := dict_merge u (dict_of_items (enumerate (slice_to a p) n)) in
  NoDup (map fst eff) →
  Forall (λ kv, 0 ≤ fst kv < Z.of_nat N * len groups0 ∧ length (snd kv) = E) eff →
  ∃ d groups1,
    get_updated_chunks u a (map (λ g, concat g) groups0) n p = Ok d
    ∧ Forall (λ kv, 0 ≤ fst kv < len (map (λ g, concat g) groups0)) d
    ∧ insert_all (map (λ g, concat g) groups0) d = map (λ g, concat g) groups1
    ∧ Forall (λ g, length g = N) groups1
    ∧ concat groups1 = insert_all (concat groups0) eff.
Proof using All.
  intros Hlen0 Hsize0 Hu Ha eff Hnd Heff.
  rewrite get_updated_chunks_unfold. fold eff.
  assert (∀ v : list byte, length v = E →
            (let* elements_per_chunk := floordiv CHUNK_SIZE (len v) in
             updated_chunks_loop eff (map (λ g, concat g) groups0) elements_per_chunk)
            = updated_chunks_loop eff (map (λ g, concat g) groups0) (Z.of_nat N)) as Hloop.
  { intros v Hv. unfold floordiv, len. rewrite Hv.
    destruct (Z.eqb_spec (Z.of_nat E) 0); [lia|].
    by rewrite (elements_per_chunk_eq E N). }
  destruct (updated_chunks_loop_spec E N HE HN groups0 Hlen0 Hsize0 eff Hnd Heff)
    as (groups & Hndg & Hget & Hrun).
  pose proof (updated_groups_facts E N HE HN groups0 Hlen0 Hsize0 eff Hnd Heff groups Hndg Hget)
    as Hfacts.
  pose proof (updated_groups_concat E N HE HN groups0 Hlen0 Hsize0 eff Hnd Heff groups Hndg Hget)
    as Hconcat.
  assert (∃ d groups1,
            updated_chunks_loop eff (map (λ g, concat g) groups0) (Z.of_nat N) = Ok d
            ∧ Forall (λ kv, 0 ≤ fst kv < len (map (λ g, concat g) groups0)) d
            ∧ insert_all (map (λ g, concat g) groups0) d = map (λ g, concat g) groups1
            ∧ Forall (λ g, length g = N) groups1
            ∧ concat groups1 = insert_all (concat groups0) eff) as Hmain.
  { eexists _, _. split; [exact Hrun|]. split_and!.
    - apply Forall_map. eapply Forall_impl; [exact Hfacts|]. simpl.
      unfold len. rewrite length_map. by intros kv [? _].
    - by rewrite insert_all_fmap.
    - apply insert_all_Forall; [done|]. eapply Forall_impl; [exact Hfacts|].
      by intros kv (_ & ? & _).
    - done. }
  destruct (dict_values u) as [|v vs] eqn:Hvalues.
  - destruct (slice_to a p) as [|v vs] eqn:Hslice.
    + exists [], groups0. split_and!; [done|constructor|done|done|].
      destruct u; [|done]. subst eff. rewrite ?Hslice. done.
    + rewrite Hloop; [done|].
      assert (Forall (λ e, length e = E) (slice_to a p)) as Hs.
      { unfold slice_to. destruct (p <? 0); by apply Forall_take. }
      rewrite Hslice in Hs. by apply Forall_cons in Hs as [? _].
  - rewrite Hloop; [done|].
    destruct u as [|[k v'] u']; [done|]. simpl in Hvalues. injection Hvalues as -> _.
    by apply Forall_cons in Hu as [? _].
Qed.

(** The chunk edits computed for a changeset, applied to the chunks packed
    from the original elements, give the chunks packed from the edited
    elements (stated with the sizes as natural numbers). *)
Theorem chunk_edits_equal_rebuild (original : list (list byte))
  (u : list (Z * list byte)) (a : list (list byte)) (chunks0 : list (list byte)) :
  Forall (λ e, length e = E) original →
  Forall (λ e, length e = E) a →
  NoDup (map fst u) →
  Forall (λ kv, 0 ≤ fst kv < len original ∧ length (snd kv) = E) u →
  packed_chunks original = Ok chunks0 →
  ∃ p d ac,
    get_num_padding_elements (len chunks0) (len original) (Z.of_nat E) = Ok p
    ∧ get_updated_chunks u a chunks0 (len original) p = Ok d
    ∧ get_appended_chunks a p = Ok ac
    ∧ Forall (λ kv, 0 ≤ fst kv < len chunks0) d
    ∧ packed_chunks (insert_all original u ++ a) = Ok (insert_all chunks0 d ++ ac).
Proof using All.
  intros Horig Ha Hnd Hu Hpacked.
  destruct (packed_chunks_groups E N HE HN HNE original Horig)
    as (groups0 & m & Hpack0 & Hlen0 & Hsize0 & Hcat0 & Hm_ne & Hm_e).
  rewrite Hpack0 in Hpacked. injection Hpacked as <-.
  fold pad in Hcat0.
  assert (length original + m = N * length groups0)%nat as Hcount0.
  { apply (f_equal length) in Hcat0.
    rewrite (length_concat_uniform N), length_app, length_replicate in Hcat0 by done. lia. }
  (* the number of padding elements *)
  assert (get_num_padding_elements (len (map (λ g, concat g) groups0)) (len original)
            (Z.of_nat E) = Ok (Z.of_nat m)) as Hp.
  { unfold get_num_padding_elements, floordiv, len. rewrite length_map.
    destruct (Z.eqb_spec (Z.of_nat E) 0); [lia|]. f_equal.
    replace (Z.of_nat (length groups0) * CHUNK_SIZE - Z.of_nat (length original) * Z.of_nat E)
      with (Z.of_nat m * Z.of_nat E) by (unfold CHUNK_SIZE; nia).
    apply Z.div_mul. lia. }
  exists (Z.of_nat m). rewrite Hp.
  (* the effective updates *)
  assert (slice_to a (Z.of_nat m) = take m a) as Hslice.
  { unfold slice_to. destruct (Z.ltb_spec (Z.of_nat m) 0); [lia|]. by rewrite Nat2Z.id. }
  set (spill := take m a).
  destruct (enumerate_keys spill (len original)) as [Hnd_spill Hrange_spill].
  assert (dict_merge u (dict_of_items (enumerate (slice_to a (Z.of_nat m)) (len original)))
          = u ++ enumerate spill (len original)) as Heff.
  { rewrite Hslice. fold spill. rewrite dict_of_items_NoDup by done.
    unfold dict_merge, dict_items. apply dict_update_fresh.
    rewrite map_app. apply NoDup_app. split_and!; [done| |done].
    intros k Hk1 Hk2.
    apply list_elem_of_fmap in Hk1 as [[k1 v1] [-> Hin1]].
    apply list_elem_of_fmap in Hk2 as [[k2 v2] [Heq Hin2]]. simpl in *. subst k2.
    rewrite Forall_forall in Hu, Hrange_spill.
    specialize (Hu _ Hin1). specialize (Hrange_spill _ Hin2). simpl in *. lia. }
  assert (length spill ≤ m)%nat as Hspill_len by (unfold spill; rewrite length_take; lia).
  assert (Forall (λ e, length e = E) spill) as Hspill by by apply Forall_take.
  destruct (get_updated_chunks_slots groups0 u a (len original) (Z.of_nat m))
    as (d & groups1 & Hd & Hd_range & Hmset & Hlen1 & Hcat1); [done|done| |done| | |].
  { eapply Forall_impl; [exact Hu|]. by intros kv [_ ?]. }
  { rewrite Heff, map_app. apply NoDup_app. split_and!; [done| |done].
    intros k Hk1 Hk2.
    apply list_elem_of_fmap in Hk1 as [[k1 v1] [-> Hin1]].
    apply list_elem_of_fmap in Hk2 as [[k2 v2] [Heq Hin2]]. simpl in *. subst k2.
    rewrite Forall_forall in Hu, Hrange_spill.
    specialize (Hu _ Hin1). specialize (Hrange_spill _ Hin2). simpl in *. lia. }
  { rewrite Heff. apply Forall_app. split.
    - eapply Forall_impl; [exact Hu|]. unfold len. intros kv [? ?]. split; [lia|done].
    - pose proof (enumerate_values (λ e, length e = E) spill (len original) Hspill) as Hvals.
      eapply Forall_impl; [exact (List.Forall_and Hrange_spill Hvals)|].
      unfold len. intros kv [? ?]. simpl in *. split; [lia|done]. }
  rewrite Heff in Hcat1.
  exists d. rewrite Hd.
  (* the appended chunks *)
  destruct (get_appended_chunks_groups E N HE HN HNE a (Z.of_nat m) ltac:(lia) Ha)
    as (groups_a & m_a & Hac & Hlen_a & Hsize_a & Hm_a & Hcat_a & Hfew).
  fold pad in Hcat_a. rewrite Nat2Z.id in Hcat_a.
  exists (map (λ g, concat g) groups_a). rewrite Hac.
  split_and!; [done..|].
  (* the slots after the edits *)
  rewrite Hmset, <- map_app.
  rewrite Hcat0, insert_all_app in Hcat1.
  rewrite insert_all_app_l in Hcat1 by (eapply Forall_impl; [exact Hu|]; by intros kv [? _]).
  assert (len original = len (insert_all original u)) as Hlen_u
    by (unfold len; by rewrite insert_all_length).
  rewrite Hlen_u, insert_all_enumerate in Hcat1 by (by rewrite length_replicate).
  rewrite drop_replicate in Hcat1.
  set (original' := insert_all original u) in *.
  assert (Forall (λ e, length e = E) original') as Horig'.
  { apply insert_all_Forall; [done|]. eapply Forall_impl; [exact Hu|]. by intros kv [_ ?]. }
  (* the slots of the new chunks *)
  assert (length original' = length original) as Hlen' by apply insert_all_length.
  assert (∃ k, concat (groups1 ++ groups_a) = (original' ++ a) ++ replicate k pad
               ∧ (original' ++ a ≠ [] → k < N)%nat
               ∧ (original' ++ a = [] → k = N)) as (k & Hcat_new & Hk_ne & Hk_e).
  { rewrite concat_app, Hcat1, Hcat_a.
    destruct (decide (length a ≤ m)%nat) as [Hshort|Hlong].
    - destruct Hfew as [_ ->]; [unfold len; lia|].
      unfold spill. rewrite take_ge, drop_ge by done. simpl.
      exists (m - length a)%nat. rewrite !app_nil_r, <- !app_assoc. split; [done|].
      split.
      + intros Hne. destruct original as [|x original].
        * specialize (Hm_e eq_refl). destruct a; [|simpl; lia].
          destruct original'; [done|simpl in Hlen'; lia].
        * assert (m < N)%nat by (by apply Hm_ne). lia.
      + intros [Ho ->]%app_eq_nil.
        destruct original; [|rewrite Ho in Hlen'; simpl in Hlen'; lia].
        specialize (Hm_e eq_refl). simpl. lia.
    - assert (length spill = m) as -> by (unfold spill; rewrite length_take; lia).
      rewrite Nat.sub_diag. simpl. rewrite app_nil_r.
      exists m_a. unfold spill. split.
      + rewrite <- !app_assoc. f_equal. by rewrite (app_assoc (take m a)), take_drop.
      + split; [done|]. intros [_ ->]%app_eq_nil. simpl in Hlong. lia. }
  (* the rebuilt chunks *)
  destruct (packed_chunks_groups E N HE HN HNE (original' ++ a)) as
    (groups_t & m_t & Hpack_t & Hlen_t & Hsize_t & Hcat_t & Hmt_ne & Hmt_e).
  { by apply Forall_app. }
  fold pad in Hcat_t. rewrite Hpack_t. do 2 f_equal.
  assert (Forall (λ g, length g = N) (groups1 ++ groups_a)) as Hlen_new by by apply Forall_app.
  apply (concat_uniform_inj N); [done|done|done|].
  rewrite Hcat_t, Hcat_new. do 2 f_equal.
  (* both paddings fill up to a multiple of [N] *)
  apply (f_equal length) in Hcat_t. apply (f_equal length) in Hcat_new.
  rewrite (length_concat_uniform N), !length_app, length_replicate in Hcat_t by done.
  rewrite (length_concat_uniform N), !length_app, length_replicate in Hcat_new by done.
  destruct (decide (original' ++ a = [])) as [Hempty|Hnonempty].
  - rewrite Hmt_e, Hk_e by done. done.
  - specialize (Hmt_ne Hnonempty). specialize (Hk_ne Hnonempty). nia.
Qed.

End ChunkEdits.

Lemma element_size_nat (element_size : Z) :
  0 < element_size → CHUNK_SIZE mod element_size = 0 →
  (0 < Z.to_nat element_size)%nat
  ∧ (0 < Z.to_nat (CHUNK_SIZE / element_size))%nat
  ∧ (Z.to_nat (CHUNK_SIZE / element_size) * Z.to_nat element_size = 32)%nat.
Proof.
  intros Hes Hmod.
  pose proof (Z.div_mod CHUNK_SIZE element_size ltac:(lia)) as Hdm.
  rewrite Hmod in Hdm. unfold CHUNK_SIZE in *.
  assert (0 < 32 / element_size) by nia.
  split_and!; [lia|lia|]. apply Nat2Z.inj. rewrite Nat2Z.inj_mul, !Z2Nat.id by lia. lia.
Qed.

Lemma Forall_len_length (element_size : Z) (elems : list (list byte)) :
  Forall (λ e, len e = element_size) elems →
  Forall (λ e, length e = Z.to_nat element_size) elems.
Proof. intros Hsizes. eapply Forall_impl; [exact Hsizes|]. unfold len. intros e He. lia. Qed.

(** X2.  [get_appended_chunks] packs: for elements of one size that divides
    the chunk size, every chunk it returns has [CHUNK_SIZE] bytes, and the
    chunks, read as one byte string, are the elements after the first
    [num_padding_elements] followed by fewer than 32 zero bytes. *)
Theorem get_appended_chunks_packs (appended_elements : list (list byte))
  (element_size num_padding_elements : Z) :
  0 < element_size → CHUNK_SIZE mod element_size = 0 → 0 ≤ num_padding_elements →
  Forall (λ element, len element = element_size) appended_elements →
  ∃ chunks zeros,
    get_appended_chunks appended_elements num_padding_elements = Ok chunks
    ∧ Forall (λ chunk, len chunk = CHUNK_SIZE) chunks
    ∧ (zeros < 32)%nat
    ∧ concat chunks
      = concat (drop (Z.to_nat num_padding_elements) appended_elements)
        ++ replicate zeros x00.
Proof.
  intros Hes Hmod Hp Hsizes.
  destruct (element_size_nat element_size Hes Hmod) as (HE & HN & HNE).
  destruct (get_appended_chunks_groups _ _ HE HN HNE appended_elements num_padding_elements
              Hp (Forall_len_length _ _ Hsizes))
    as (groups & m & Hrun & Hlen & Hsize & Hm & Hcat & _).
  exists (map (λ g, concat g) groups), (m * Z.to_nat element_size)%nat.
  split_and!; [done| |nia|].
  - apply Forall_map.
    eapply Forall_impl; [exact (List.Forall_and Hlen Hsize)|].
    intros g [Hg1 Hg2]. simpl. unfold len, CHUNK_SIZE.
    rewrite (length_concat_uniform (Z.to_nat element_size)) by done. lia.
  - by rewrite concat_map_concat, Hcat, concat_app, concat_replicate_zero.
Qed.

(** X3.  Incremental packing: let the original chunks be the chunks packed
    from the original serialized elements, all of one size that divides the
    chunk size, and let a changeset update elements in range and append
    elements of that size.  With [num_padding_elements] computed by
    [get_num_padding_elements], [get_updated_chunks] and [get_appended_chunks]
    succeed, every updated chunk index is in range, and replacing the updated
    chunks and appending the appended ones gives exactly the chunks packed from
    scratch from the edited element sequence. *)
Theorem chunk_edits_rebuild_packed_chunks (element_size : Z)
  (original_elements : list (list byte)) (updated_elements : list (Z * list byte))
  (appended_elements original_chunks : list (list byte)) :
  0 < element_size → CHUNK_SIZE mod element_size = 0 →
  Forall (λ element, len element = element_size) original_elements →
  Forall (λ element, len element = element_size) appended_elements →
  NoDup (dict_keys updated_elements) →
  Forall (λ item, 0 ≤ fst item < len original_elements ∧ len (snd item) = element_size)
         updated_elements →
  packed_chunks original_elements = Ok original_chunks →
  ∃ num_padding_elements updated_chunks appended_chunks,
    get_num_padding_elements (len original_chunks) (len original_elements) element_size
    = Ok num_padding_elements
    ∧ get_updated_chunks updated_elements appended_elements original_chunks
        (len original_elements) num_padding_elements
      = Ok updated_chunks
    ∧ get_appended_chunks appended_elements num_padding_elements = Ok appended_chunks
    ∧ Forall (λ item, 0 ≤ fst item < len original_chunks) updated_chunks
    ∧ packed_chunks (insert_all original_elements updated_elements ++ appended_elements)
      = Ok (insert_all original_chunks updated_chunks ++ appended_chunks).
Proof.
  intros Hes Hmod Horig Happ Hnd Hupd Hpacked.
  destruct (element_size_nat element_size Hes Hmod) as (HE & HN & HNE).
  destruct (chunk_edits_equal_rebuild _ _ HE HN HNE original_elements updated_elements
              appended_elements original_chunks)
    as (p & d & ac & Hp & Hd & Hac & Hrange & Hrebuild);
    [by apply Forall_len_length|by apply Forall_len_length|done| |done|].
  { eapply Forall_impl; [exact Hupd|]. unfold len. intros kv [? ?]. split; [done|lia]. }
  rewrite Z2Nat.id in Hp by lia. by exists p, d, ac.
Qed.

Lemma chunk_edits_rebuild_packed_chunks_witness :
  ∃ num_padding_elements updated_chunks appended_chunks,
    get_num_padding_elements (len [A16 ++ B16; C16 ++ replicate 16 x00]) (len [A16; B16; C16]) 16
    = Ok num_padding_elements
    ∧ get_updated_chunks [(1, D16)] [E16; A16] [A16 ++ B16; C16 ++ replicate 16 x00]
        (len [A16; B16; C16]) num_padding_elements
      = Ok updated_chunks
    ∧ get_appended_chunks [E16; A16] num_padding_elements = Ok appended_chunks
    ∧ Forall (λ item, 0 ≤ fst item < len [A16 ++ B16; C16 ++ replicate 16 x00]) updated_chunks
    ∧ packed_chunks (insert_all [A16; B16; C16] [(1, D16)] ++ [E16; A16])
      = Ok (insert_all [A16 ++ B16; C16 ++ replicate 16 x00] updated_chunks ++ appended_chunks).
Proof.
  apply (chunk_edits_rebuild_packed_chunks 16 [A16; B16; C16] [(1, D16)] [E16; A16]).
  - reflexivity.
  - reflexivity.
  - repeat constructor.
  - repeat constructor.
  - apply NoDup_singleton.
  - apply Forall_singleton. vm_compute. split_and!; [discriminate|reflexivity|reflexivity].
  - reflexivity.
Defined.

Example chunk_edits_example :
  get_updated_chunks [(1, D16)] [E16; A16] [A16 ++ B16; C16 ++ replicate 16 x00] 3 1
  = Ok [(0, A16 ++ D16); (1, C16 ++ E16)]
  ∧ get_appended_chunks [E16; A16] 1 = Ok [A16 ++ replicate 16 x00]
  ∧ packed_chunks [A16; D16; C16; E16; A16]
    = Ok [A16 ++ D16; C16 ++ E16; A16 ++ replicate 16 x00].
Proof. repeat split; reflexivity. Qed.

(** ** Small changesets *)

(** X5.  Without updates, and with no appended element that fits into the
    padding, [get_updated_chunks] returns the empty dictionary. *)
Theorem get_updated_chunks_empty_changeset
  (appended_elements original_chunks : list (list byte)) (n p : Z) :
  get_updated_chunks [] [] original_chunks n p = Ok []
  ∧ get_updated_chunks [] appended_elements original_chunks n 0 = Ok [].
Proof.
  split.
  - unfold get_updated_chunks, slice_to. destruct (p <? 0); by rewrite take_nil.
  - unfold get_updated_chunks, slice_to. done.
Qed.

(** X6.  [get_num_padding_elements] is the free space of the chunks divided by
    the element size; it is [0] for elements of one chunk each. *)
Theorem get_num_padding_elements_spec (num_chunks num_elements es : Z) :
  es ≠ 0 →
  get_num_padding_elements num_chunks num_elements es
  = Ok ((num_chunks * CHUNK_SIZE - num_elements * es) / es)
  ∧ (es = CHUNK_SIZE → num_chunks = num_elements →
     get_num_padding_elements num_chunks num_elements es = Ok 0).
Proof.
  intros Hes. unfold get_num_padding_elements, floordiv.
  destruct (Z.eqb_spec es 0); [done|]. split; [done|].
  intros -> ->. by rewrite Z.sub_diag.
Qed.

(** X4.  One updated element changes one chunk: the chunk at
    [index // elements_per_chunk], with the slot [index % elements_per_chunk]
    replaced. *)
Theorem get_updated_chunks_single_update
  (original_chunks : list (list byte)) (index : Z) (element chunk : list byte) (n p : Z) :
  0 < len element → CHUNK_SIZE mod len element = 0 → 0 ≤ index →
  original_chunks !! Z.to_nat (index / (CHUNK_SIZE / len element)) = Some chunk →
  len chunk = CHUNK_SIZE →
  ∃ updated_chunk,
    get_updated_chunks [(index, element)] [] original_chunks n p
    = Ok [(index / (CHUNK_SIZE / len element), updated_chunk)]
    ∧ slot_replaced chunk (index mod (CHUNK_SIZE / len element)) element updated_chunk.
Proof.
  intros Hes Hmod Hindex Hchunk Hsize.
  set (epc := CHUNK_SIZE / len element) in *.
  assert (0 < epc ∧ len element * epc = CHUNK_SIZE) as [Hepc Hmul].
  { subst epc. pose proof (Z.div_mod CHUNK_SIZE (len element) ltac:(lia)) as Hdm.
    rewrite Hmod in Hdm. unfold CHUNK_SIZE in *. split; [nia|lia]. }
  assert (0 ≤ index / epc) as Hq by (apply Z.div_pos; lia).
  assert (0 ≤ index mod epc < epc) as Hr by (apply Z.mod_pos_bound; lia).
  destruct (update_element_in_chunk_ok chunk (index mod epc) element)
    as (updated_chunk & Hupdate & Hreplaced); [lia|by rewrite Hsize|by rewrite Hsize|].
  exists updated_chunk. split; [|done].
  unfold get_updated_chunks.
  assert (slice_to (A:=list byte) [] p = []) as ->.
  { unfold slice_to. destruct (p <? 0); by rewrite take_nil. }
  cbn [dict_values map snd]. unfold floordiv at 1.
  destruct (Z.eqb_spec (len element) 0); [lia|]. fold epc. cbn [rbind].
  cbn [enumerate imap dict_of_items dict_update fold_left dict_items dict_merge dict_keys
       map fst groupby].
  unfold floordiv, pymod.
  destruct (Z.eqb_spec epc 0); [lia|].
  cbn [rbind dict_get dict_set dict_items mapM fst snd dict_getitem].
  unfold dict_getitem. cbn [dict_get]. rewrite Z.eqb_refl. cbn [rbind].
  assert (getitem original_chunks (index / epc) = Ok chunk) as ->.
  { unfold getitem. assert ((index / epc <? 0) = false) as Hnonneg by (apply Z.ltb_ge; lia).
    rewrite Hnonneg. cbv beta iota zeta. by rewrite Hnonneg, Hchunk. }
  cbn [rbind].
  unfold update_elements_in_chunk, dict_of_items, dict_update, dict_items.
  cbn [fold_left dict_set fst snd rbind].
  rewrite Hupdate. done.
Qed.

Lemma get_appended_chunks_packs_witness :
  ∃ chunks zeros,
    get_appended_chunks [A16; B16; C16] 0 = Ok chunks
    ∧ Forall (λ chunk, len chunk = CHUNK_SIZE) chunks
    ∧ (zeros < 32)%nat
    ∧ concat chunks = concat (drop (Z.to_nat 0) [A16; B16; C16]) ++ replicate zeros x00.
Proof.
  apply (get_appended_chunks_packs [A16; B16; C16] 16 0).
  - reflexivity.
  - reflexivity.
  - discriminate.
  - repeat constructor.
Defined.

Lemma get_num_padding_elements_spec_witness :
  get_num_padding_elements 2 3 16 = Ok ((2 * CHUNK_SIZE - 3 * 16) / 16).
Proof. apply (get_num_padding_elements_spec 2 3 16). discriminate. Defined.

Lemma get_updated_chunks_single_update_witness :
  ∃ updated_chunk,
    get_updated_chunks [(1, D16)] [] [A16 ++ B16; C16 ++ replicate 16 x00] 3 1
    = Ok [(1 / (CHUNK_SIZE / len D16), updated_chunk)]
    ∧ slot_replaced (A16 ++ B16) (1 mod (CHUNK_SIZE / len D16)) D16 updated_chunk.
Proof.
  apply (get_updated_chunks_single_update [A16 ++ B16; C16 ++ replicate 16 x00] 1 D16
           (A16 ++ B16) 3 1).
  - reflexivity.
  - reflexivity.
  - discriminate.
  - reflexivity.
  - reflexivity.
Defined.

(** ** Dirty evolvers *)

(** X7.  [is_dirty()] is true exactly when an update or an append has been
    recorded, and it leaves the heap as it is. *)
Theorem is_dirty_iff_recorded_edit {TElement : Type} (h : Heap TElement) (e : nat)
  (ev : Evolver TElement) :
  evolvers h !! e = Some ev →
  ∃ dirty, Evolver_is_dirty e h = (Ok dirty, h)
           ∧ (dirty = true ↔ _updated_elements ev ≠ [] ∨ _appended_elements ev ≠ []).
Proof.
  intros Hev. unfold Evolver_is_dirty, bind, get_evolver, ret. rewrite Hev.
  eexists. split; [done|].
  destruct (_updated_elements ev), (_appended_elements ev); intuition congruence.
Qed.

Lemma is_dirty_iff_recorded_edit_witness :
  ∃ dirty, Evolver_is_dirty 0%nat example_heap_appended = (Ok dirty, example_heap_appended)
           ∧ (dirty = true ↔ @nil (Z * Z) ≠ [] ∨ [8] ≠ []).
Proof.
  apply (is_dirty_iff_recorded_edit example_heap_appended 0%nat
           {| evolver_class := ResizableHashableStructureEvolver;
              _original_structure := 0%nat;
              _updated_elements := [];
              _appended_elements := [8] |}).
  reflexivity.
Defined.

(** * Evolvers, call by call *)

Section EvolverCalls.

Context {TElement : Type}.
Implicit Types (h : Heap TElement) (s : Structure TElement) (ev : Evolver TElement).

Lemma Evolver_persistent_evolvers e h :
  evolvers (snd (Evolver_persistent (TElement:=TElement) e h)) = evolvers h.
Proof.
  unfold Evolver_persistent, Evolver_is_dirty, sedes, Structure_len, elements, hash_tree,
    Structure_init, new_structure, bind, get_evolver, get_structure, ret, lift.
  repeat (case_match; simplify_eq/=; try done).
Qed.

Lemma do_call_cell h e ev s call :
  evolvers h !! e = Some ev →
  structures h !! _original_structure ev = Some s →
  evolvers (snd (do_call e call h)) !! e = Some (cell_after (len (_elements s)) ev call)
  ∧ structures (snd (do_call e call h)) !! _original_structure ev = Some s.
Proof.
  intros Hev Hs.
  split; [|eapply heap_step_structure; [apply preserves_do_call|done]].
  assert (e < length (evolvers h))%nat as Hlt by by eapply lookup_lt_Some.
  destruct call as [index|index element| | | |element|elements]; simpl.
  - unfold bind. pose proof (readonly_Evolver_getitem e index h) as Hro.
    destruct (Evolver_getitem e index h) as [[x|err] h1]; simpl in *; by subst.
  - rewrite (Evolver_setitem_eq h e ev s) by done.
    destruct (_ && _); simpl; [|done]. by rewrite list_lookup_insert_eq.
  - unfold bind. pose proof (readonly_Evolver_len e h) as Hro.
    destruct (Evolver_len e h) as [[x|err] h1]; simpl in *; by subst.
  - unfold bind. pose proof (readonly_Evolver_is_dirty e h) as Hro.
    destruct (Evolver_is_dirty e h) as [[x|err] h1]; simpl in *; by subst.
  - unfold bind. pose proof (Evolver_persistent_evolvers e h) as Hk.
    destruct (Evolver_persistent e h) as [[x|err] h1]; simpl in *; by rewrite Hk.
  - unfold ResizableEvolver_append. rewrite (ResizableEvolver_extend_eq h e ev) by done.
    destruct (evolver_class ev); simpl; [done|]. by rewrite list_lookup_insert_eq.
  - rewrite (ResizableEvolver_extend_eq h e ev) by done.
    destruct (evolver_class ev); simpl; [done|]. by rewrite list_lookup_insert_eq.
Qed.

Lemma cell_after_facts n ev call :
  NoDup (map fst (_updated_elements ev)) →
  Forall (λ kv, 0 ≤ fst kv < n) (_updated_elements ev) →
  let ev' := cell_after n ev call in
  _original_structure ev' = _original_structure ev
  ∧ evolver_class ev' = evolver_class ev
  ∧ NoDup (map fst (_updated_elements ev'))
  ∧ Forall (λ kv, 0 ≤ fst kv < n) (_updated_elements ev')
  ∧ (∀ index, dict_get (_updated_elements ev') index
              = match last_set n [call] index with
                | Some v => Some v
                | None => dict_get (_updated_elements ev) index
                end)
  ∧ _appended_elements ev'
    = _appended_elements ev
      ++ match evolver_class ev with
         | HashableStructureEvolver => []
         | ResizableHashableStructureEvolver => staged_appends [call]
         end.
Proof.
  intros Hnd Hkeys.
  destruct call as [index|index element| | | |element|elements]; simpl;
    try (split_and!; [done..|by destruct (evolver_class ev); rewrite app_nil_r]).
  - destruct (Z.leb_spec 0 index) as [Hlo|Hlo]; simpl.
    2: { split_and!; try done.
         { intros i. by rewrite andb_false_r. }
         by destruct (evolver_class ev); rewrite app_nil_r. }
    destruct (Z.ltb_spec index n) as [Hhi|Hhi]; simpl.
    2: { split_and!; try done.
         { intros i. by rewrite andb_false_r. }
         by destruct (evolver_class ev); rewrite app_nil_r. }
    split_and!; try done.
    + by apply dict_set_NoDup.
    + apply Forall_forall. intros [k v] Hin.
      destruct (decide (k = index)) as [->|Hne]; [simpl; lia|].
      assert (dict_get (dict_set (_updated_elements ev) index element) k = Some v) as Hget.
      { apply dict_get_elem; [by apply dict_set_NoDup|done]. }
      rewrite dict_get_set_ne in Hget by done.
      apply dict_get_Some_elem in Hget.
      rewrite Forall_forall in Hkeys. by apply (Hkeys (k, v)).
    + intros i. rewrite andb_true_r.
      destruct (Z.eqb_spec index i) as [->|Hne].
      * by rewrite dict_get_set_eq.
      * by rewrite dict_get_set_ne.
    + by destruct (evolver_class ev); rewrite app_nil_r.
  - destruct (evolver_class ev) eqn:Hc; simpl; rewrite ?Hc, ?app_nil_r; done.
  - destruct (evolver_class ev) eqn:Hc; simpl; rewrite ?Hc, ?app_nil_r; done.
Qed.

Lemma last_set_cons n (call : EvolverCall TElement) rest index :
  last_set n (call :: rest) index
  = match last_set n rest index with
    | Some v => Some v
    | None => last_set n [call] index
    end.
Proof. simpl. by destruct (last_set n rest index). Qed.

Lemma run_calls_cell h e ev s calls :
  evolvers h !! e = Some ev →
  structures h !! _original_structure ev = Some s →
  NoDup (map fst (_updated_elements ev)) →
  Forall (λ kv, 0 ≤ fst kv < len (_elements s)) (_updated_elements ev) →
  ∃ ev', evolvers (run_calls e calls h) !! e = Some ev'
    ∧ structures (run_calls e calls h) !! _original_structure ev = Some s
    ∧ _original_structure ev' = _original_structure ev
    ∧ evolver_class ev' = evolver_class ev
    ∧ NoDup (map fst (_updated_elements ev'))
    ∧ Forall (λ kv, 0 ≤ fst kv < len (_elements s)) (_updated_elements ev')
    ∧ (∀ index, dict_get (_updated_elements ev') index
                = match last_set (len (_elements s)) calls index with
                  | Some v => Some v
                  | None => dict_get (_updated_elements ev) index
                  end)
    ∧ _appended_elements ev'
      = _appended_elements ev
        ++ match evolver_class ev with
           | HashableStructureEvolver => []
           | ResizableHashableStructureEvolver => staged_appends calls
           end.
Proof.
  revert h ev. induction calls as [|call rest IH]; intros h ev Hev Hs Hnd Hkeys.
  - exists ev. simpl. split_and!; try done.
    by destruct (evolver_class ev); rewrite app_nil_r.
  - simpl run_calls.
    destruct (do_call_cell h e ev s call Hev Hs) as [Hev1 Hs1].
    destruct (cell_after_facts (len (_elements s)) ev call Hnd Hkeys)
      as (Ho1 & Hc1 & Hnd1 & Hkeys1 & Hget1 & Happ1).
    rewrite <- Ho1 in Hs1.
    destruct (IH _ _ Hev1 Hs1 Hnd1 Hkeys1)
      as (ev' & Hev' & Hs' & Ho' & Hc' & Hnd' & Hkeys' & Hget' & Happ').
    exists ev'. rewrite Ho1 in *. split_and!; try done; try congruence.
    + intros index. rewrite Hget', Hget1, (last_set_cons _ call rest).
      by destruct (last_set (len (_elements s)) rest index).
    + rewrite Happ', Happ1, Hc1. destruct (evolver_class ev); simpl.
      * by rewrite !app_nil_r.
      * by rewrite <- app_assoc, app_nil_r.
Qed.

Lemma Structure_evolver_eq h l s :
  structures h !! l = Some s →
  Structure_evolver l h
  = (Ok (length (evolvers h)),
     {| structures := structures h;
        evolvers := evolvers h ++ [{| evolver_class := evolver_class_of (__class__ s);
                                      _original_structure := l;
                                      _updated_elements := [];
                                      _appended_elements := [] |}] |}).
Proof.
  intros Hs. unfold Structure_evolver, Evolver_init, new_evolver, bind, get_structure.
  rewrite Hs. by destruct (__class__ s).
Qed.

(** X8.  Reads see the last accepted write: on the evolver that [evolver()]
    returns for a structure [s], after any sequence of calls, [e[index]] is
    the value of the last assignment [e[index] = v] among them that was in
    range ([0 <= index < len(s)]), and [s[index]] (with Python's indexing,
    [IndexError] included) when there was none.  Appends, reads, rejected
    assignments and [persistent()] in between do not matter. *)
Theorem evolver_reads_last_write h l s calls index :
  structures h !! l = Some s →
  let e := length (evolvers h) in
  let h' := run_calls e calls (snd (Structure_evolver l h)) in
  Evolver_getitem e index h'
  = (match last_set (len (_elements s)) calls index with
     | Some v => Ok v
     | None => getitem (_elements s) index
     end, h').
Proof.
  intros Hs e h'. subst e h'. rewrite (Structure_evolver_eq h l s Hs). simpl.
  set (ev0 := {| evolver_class := evolver_class_of (__class__ s);
                 _original_structure := l;
                 _updated_elements := [];
                 _appended_elements := ([] : list TElement) |}).
  set (h0 := {| structures := structures h; evolvers := evolvers h ++ [ev0] |}).
  destruct (run_calls_cell h0 (length (evolvers h)) ev0 s calls)
    as (ev' & Hev' & Hs' & Ho' & _ & _ & _ & Hget' & _);
    [by apply list_lookup_middle|done|constructor|constructor|].
  rewrite <- Ho' in Hs'.
  rewrite (Evolver_getitem_eq _ _ ev' s index Hev' Hs'), Hget'. simpl.
  by destruct (last_set _ _ _).
Qed.

(** X9.  The state an evolver keeps: after any sequence of calls on the
    evolver that [evolver()] returns for [s], the evolver still refers to [s]
    and has the class chosen by the class of [s]; the keys of
    [_updated_elements] are distinct and within [0, len(s)), and it maps every
    index to the value of the last accepted assignment; [_appended_elements]
    holds the elements handed to [append] and [extend], in call order, for a
    list and stays empty for a vector. *)
Theorem evolver_staged_state h l s calls :
  structures h !! l = Some s →
  let e := length (evolvers h) in
  let h' := run_calls e calls (snd (Structure_evolver l h)) in
  ∃ ev', evolvers h' !! e = Some ev'
    ∧ _original_structure ev' = l
    ∧ evolver_class ev' = evolver_class_of (__class__ s)
    ∧ NoDup (dict_keys (_updated_elements ev'))
    ∧ Forall (λ k, 0 ≤ k < len (_elements s)) (dict_keys (_updated_elements ev'))
    ∧ (∀ index, dict_get (_updated_elements ev') index
                = last_set (len (_elements s)) calls index)
    ∧ _appended_elements ev'
      = match __class__ s with
        | HashableVector => []
        | HashableList => staged_appends calls
        end.
Proof.
  intros Hs e h'. subst e h'. rewrite (Structure_evolver_eq h l s Hs). simpl.
  set (ev0 := {| evolver_class := evolver_class_of (__class__ s);
                 _original_structure := l;
                 _updated_elements := [];
                 _appended_elements := ([] : list TElement) |}).
  set (h0 := {| structures := structures h; evolvers := evolvers h ++ [ev0] |}).
  destruct (run_calls_cell h0 (length (evolvers h)) ev0 s calls)
    as (ev' & Hev' & Hs' & Ho' & Hc' & Hnd' & Hkeys' & Hget' & Happ');
    [by apply list_lookup_middle|done|constructor|constructor|].
  exists ev'. split_and!; try done.
  - unfold dict_keys. by apply Forall_fmap.
  - intros index. rewrite Hget'. simpl. by destruct (last_set _ _ _).
  - rewrite Happ'. simpl. by destruct (__class__ s).
Qed.

End EvolverCalls.

(** * Chunks as sequences of slots *)

(** ** The slots of a chunk *)

Lemma chunk_slots (E N : nat) (chunk : list byte) :
  length chunk = (N * E)%nat →
  ∃ slots, chunk = concat slots ∧ Forall (λ s, length s = E) slots ∧ length slots = N.
Proof.
  revert chunk. induction N as [|N IH]; intros chunk Hlen.
  - exists []. destruct chunk; [|done]. split_and!; [done|constructor|done].
  - destruct (IH (drop E chunk)) as (slots & Hcat & Hall & Hn).
    { rewrite length_drop. lia. }
    exists (take E chunk :: slots). split_and!.
    + simpl. by rewrite <- Hcat, take_drop.
    + constructor; [|done]. rewrite length_take. lia.
    + simpl. by rewrite Hn.
Qed.

Lemma chunk_slots_Z (chunk : list byte) (es : Z) :
  0 < es → len chunk mod es = 0 →
  ∃ slots, chunk = concat slots
           ∧ Forall (λ s, length s = Z.to_nat es) slots
           ∧ len slots = len chunk / es.
Proof.
  intros Hes Hmod.
  assert (len chunk = es * (len chunk / es)) as Hdiv.
  { rewrite (Z.div_mod (len chunk) es) at 1 by lia. lia. }
  assert (0 ≤ len chunk / es) as Hq.
  { apply Z.div_pos; [apply len_nonneg|done]. }
  destruct (chunk_slots (Z.to_nat es) (Z.to_nat (len chunk / es)) chunk)
    as (slots & Hcat & Hall & Hn).
  { unfold len in *. apply Nat2Z.inj. rewrite Nat2Z.inj_mul, !Z2Nat.id by lia. lia. }
  exists slots. split_and!; [done..|]. unfold len at 1. lia.
Qed.

Lemma slot_of_concat (E : nat) (slots : list (list byte)) (k : nat) (s : list byte) :
  Forall (λ s, length s = E) slots → slots !! k = Some s →
  take E (drop (k * E) (concat slots)) = s.
Proof.
  intros Hall Hk. rewrite (drop_concat_uniform E) by done.
  rewrite (drop_S slots s k Hk). simpl.
  rewrite Forall_forall in Hall.
  assert (length s = E) as <-.
  { apply Hall. by eapply list_elem_of_lookup_2. }
  by rewrite take_app_length.
Qed.

(** X10.  Replacements in a chunk compose: for two elements of one size that
    divides the chunk length and two slots in range, replacing one slot and
    then the other succeeds and keeps the length of the chunk; on different
    slots the two replacements commute; on the same slot the second one wins. *)
Theorem update_element_in_chunk_compose (chunk : list byte) (i j : Z) (e1 e2 : list byte) :
  len e1 ≠ 0 → len e2 = len e1 → len chunk mod len e1 = 0 →
  0 ≤ i < len chunk / len e1 → 0 ≤ j < len chunk / len e1 →
  (∃ result, (let* c := update_element_in_chunk chunk i e1 in
              update_element_in_chunk c j e2) = Ok result
             ∧ len result = len chunk)
  ∧ (i ≠ j →
     (let* c := update_element_in_chunk chunk i e1 in update_element_in_chunk c j e2)
     = (let* c := update_element_in_chunk chunk j e2 in update_element_in_chunk c i e1))
  ∧ (let* c := update_element_in_chunk chunk i e1 in update_element_in_chunk c i e2)
    = update_element_in_chunk chunk i e2.
Proof.
  intros He1 He2 Hmod Hi Hj.
  pose proof (len_nonneg e1) as Hn1.
  destruct (chunk_slots_Z chunk (len e1)) as (slots & -> & Hall & Hn); [lia|done|].
  set (E := Z.to_nat (len e1)) in *.
  assert (0 < E)%nat as HE by (subst E; lia).
  assert (length e1 = E) as Hl1 by (subst E; unfold len; lia).
  assert (length e2 = E) as Hl2 by (subst E; unfold len in *; lia).
  rewrite <- Hn in Hi, Hj.
  assert (∀ k e, 0 ≤ k < len slots → length e = E →
            Forall (λ s, length s = E) (<[Z.to_nat k := e]> slots)
            ∧ 0 ≤ j < len (<[Z.to_nat k := e]> slots)
            ∧ 0 ≤ i < len (<[Z.to_nat k := e]> slots)) as Hins.
  { intros k e Hk Hl. split; [by apply Forall_insert|].
    unfold len in *. rewrite length_insert. lia. }
  destruct (Hins i e1 Hi Hl1) as (Ha1 & Hj1 & Hi1).
  destruct (Hins j e2 Hj Hl2) as (Ha2 & Hj2 & Hi2).
  rewrite !(update_element_in_chunk_slots E slots) by done. simpl.
  rewrite !(update_element_in_chunk_slots E) by done.
  split_and!.
  - eexists. split; [done|].
    rewrite !(len_concat_uniform E) by (try done; by apply Forall_insert).
    unfold len. by rewrite !length_insert.
  - intros Hne. do 2 f_equal. apply list_insert_insert_ne. lia.
  - by rewrite list_insert_insert_eq.
Qed.

Lemma update_element_in_chunk_compose_witness :
  update_element_in_chunk (list_byte_of_string "aabbcc") 2 (list_byte_of_string "yy")
  = Ok (list_byte_of_string "aabbyy")
  ∧ (let* c := update_element_in_chunk (list_byte_of_string "aabbcc") 0
                 (list_byte_of_string "xx") in
     update_element_in_chunk c 2 (list_byte_of_string "yy"))
    = (let* c := update_element_in_chunk (list_byte_of_string "aabbcc") 2
                   (list_byte_of_string "yy") in
       update_element_in_chunk c 0 (list_byte_of_string "xx")).
Proof.
  split; [reflexivity|].
  apply (update_element_in_chunk_compose (list_byte_of_string "aabbcc") 0 2
           (list_byte_of_string "xx") (list_byte_of_string "yy"));
    vm_compute; first [discriminate | reflexivity | split; [discriminate|reflexivity]].
Defined.

Lemma dict_get_perm {V} (d1 d2 : list (Z * V)) k :
  NoDup (map fst d1) → d1 ≡ₚ d2 → dict_get d1 k = dict_get d2 k.
Proof.
  intros Hnd Hperm.
  assert (NoDup (map fst d2)) as Hnd2 by (by rewrite <- Hperm).
  destruct (dict_get d1 k) as [v|] eqn:H1.
  - symmetry. apply dict_get_elem; [done|]. rewrite <- Hperm. by apply dict_get_Some_elem.
  - destruct (dict_get d2 k) as [v|] eqn:H2; [|done].
    apply dict_get_Some_elem in H2. rewrite <- Hperm in H2.
    apply dict_get_elem in H2; [|done]. congruence.
Qed.

(** X11.  [update_elements_in_chunk] does not depend on the order of the
    dictionary: for updates with distinct slot indices in range and elements of
    one size that divides the chunk length, every ordering of the items gives
    the same chunk, of the same length, in which each updated slot holds its
    element and every other slot is unchanged. *)
Theorem update_elements_in_chunk_order (chunk : list byte) (es : Z)
  (updates updates' : list (Z * list byte)) :
  0 < es → len chunk mod es = 0 →
  NoDup (dict_keys updates) → updates ≡ₚ updates' →
  Forall (λ kv, 0 ≤ fst kv < len chunk / es ∧ len (snd kv) = es) updates →
  ∃ result,
    update_elements_in_chunk chunk updates = Ok result
    ∧ update_elements_in_chunk chunk updates' = Ok result
    ∧ len result = len chunk
    ∧ ∀ k, 0 ≤ k < len chunk / es →
        take (Z.to_nat es) (drop (Z.to_nat (k * es)) result)
        = match dict_get updates k with
          | Some element => element
          | None => take (Z.to_nat es) (drop (Z.to_nat (k * es)) chunk)
          end.
Proof.
  intros Hes Hmod Hnd Hperm Hups.
  destruct (chunk_slots_Z chunk es) as (slots & -> & Hall & Hn); [done..|].
  set (E := Z.to_nat es) in *.
  assert (0 < E)%nat as HE by (subst E; lia).
  rewrite <- Hn in *.
  assert (Forall (λ kv, 0 ≤ fst kv < len slots ∧ length (snd kv) = E) updates) as Hups1.
  { eapply Forall_impl; [exact Hups|]. intros kv [? Hl]. split; [done|].
    subst E. unfold len in Hl. lia. }
  assert (Forall (λ kv, 0 ≤ fst kv < len slots ∧ length (snd kv) = E) updates') as Hups2.
  { by rewrite <- Hperm. }
  assert (NoDup (map fst updates')) as Hnd' by (unfold dict_keys in Hnd; by rewrite <- Hperm).
  assert (Forall (λ kv : Z * list byte, 0 ≤ fst kv) updates) as Hk1.
  { eapply Forall_impl; [exact Hups1|]. intros kv [? _]. lia. }
  assert (Forall (λ kv : Z * list byte, 0 ≤ fst kv) updates') as Hk2.
  { eapply Forall_impl; [exact Hups2|]. intros kv [? _]. lia. }
  assert (insert_all slots updates = insert_all slots updates') as Heq.
  { apply list_eq. intros i. destruct (decide (i < length slots)%nat) as [Hlt|Hge].
    - rewrite !insert_all_lookup by done. by rewrite (dict_get_perm updates updates').
    - rewrite !lookup_ge_None_2; [done|rewrite insert_all_length; lia..]. }
  rewrite !(update_elements_in_chunk_slots E) by done.
  assert (Forall (λ s, length s = E) (insert_all slots updates)) as Hall'.
  { apply insert_all_Forall; [done|]. eapply Forall_impl; [exact Hups1|]. by intros kv [_ ?]. }
  exists (concat (insert_all slots updates)). split_and!; [done|by rewrite Heq| |].
  - rewrite !(len_concat_uniform E) by done. unfold len. by rewrite insert_all_length.
  - intros k Hk.
    replace (Z.to_nat (k * es)) with (Z.to_nat k * E)%nat by (subst E; lia).
    assert (Z.to_nat k < length slots)%nat as Hlt by (unfold len in Hk; lia).
    destruct (lookup_lt_is_Some_2 slots (Z.to_nat k) Hlt) as [s0 Hs0].
    pose proof (insert_all_lookup slots updates (Z.to_nat k) Hnd Hk1 Hlt) as Hlk.
    rewrite Z2Nat.id in Hlk by lia.
    rewrite (slot_of_concat E slots (Z.to_nat k) s0) by done.
    destruct (dict_get updates k) as [element|] eqn:Hget.
    + by apply (slot_of_concat E).
    + apply (slot_of_concat E); [done|]. by rewrite Hlk.
Qed.

Lemma update_elements_in_chunk_order_witness :
  update_elements_in_chunk (list_byte_of_string "aabbcc")
    [(2, list_byte_of_string "yy"); (0, list_byte_of_string "xx")]
  = Ok (list_byte_of_string "xxbbyy")
  ∧ update_elements_in_chunk (list_byte_of_string "aabbcc")
      [(0, list_byte_of_string "xx"); (2, list_byte_of_string "yy")]
    = Ok (list_byte_of_string "xxbbyy").
Proof.
  destruct (update_elements_in_chunk_order (list_byte_of_string "aabbcc") 2
              [(2, list_byte_of_string "yy"); (0, list_byte_of_string "xx")]
              [(0, list_byte_of_string "xx"); (2, list_byte_of_string "yy")])
    as (result & H1 & H2 & _).
  - reflexivity.
  - reflexivity.
  - unfold dict_keys. simpl. apply NoDup_cons.
    split; [rewrite list_elem_of_singleton; discriminate|apply NoDup_singleton].
  - apply perm_swap.
  - repeat constructor; vm_compute; discriminate.
  - split; [reflexivity|]. rewrite H2, <- H1. reflexivity.
Defined.

(** * Degenerate sizes and the editing methods *)

(** ** Element sizes that no chunk can hold *)

Lemma groupby_raises (key : Z → Result Z) (err : PyError) (seq : list Z) :
  (∀ x, key x = Raise err) → seq ≠ [] → groupby key seq = Raise err.
Proof.
  intros Hkey Hne. unfold groupby. destruct seq as [|x rest]; [done|]. simpl.
  rewrite Hkey. simpl. clear Hne. induction rest as [|y rest IH]; [done|]. simpl. apply IH.
Qed.

Lemma dict_set_nonempty {V} (d : list (Z * V)) k v : dict_set d k v ≠ [].
Proof. destruct d as [|[k' v'] rest]; simpl; [done|]. by destruct (k' =? k). Qed.

Lemma dict_update_nonempty {V} (d items : list (Z * V)) :
  d ≠ [] ∨ items ≠ [] → dict_update d items ≠ [].
Proof.
  unfold dict_update. revert d. induction items as [|[k v] rest IH]; intros d Hne; simpl.
  - by destruct Hne.
  - apply IH. left. apply dict_set_nonempty.
Qed.

Lemma updated_chunks_loop_zero (effective : list (Z * list byte)) chunks :
  effective ≠ [] → updated_chunks_loop effective chunks 0 = Raise ZeroDivisionError.
Proof.
  intros Hne. unfold updated_chunks_loop.
  rewrite (groupby_raises _ ZeroDivisionError); [done|done|].
  unfold dict_keys. by destruct effective.
Qed.

(** X12.  Element sizes that no chunk can hold.  When the element that
    determines the size (the first appended element, the first updated
    element, or the first appended element that fits the padding) is empty or
    longer than [CHUNK_SIZE]: [get_appended_chunks] raises
    [ZeroDivisionError] for an empty element and returns no chunk at all for a
    longer one, dropping the elements; [get_updated_chunks] raises
    [ZeroDivisionError] in both cases. *)
Theorem chunking_rejects_unusable_element_sizes (some_element : list byte) :
  len some_element = 0 ∨ CHUNK_SIZE < len some_element →
  (∀ rest p, p < len (some_element :: rest) →
     get_appended_chunks (some_element :: rest) p
     = if len some_element =? 0 then Raise ZeroDivisionError else Ok [])
  ∧ (∀ index updated appended chunks n p,
       get_updated_chunks ((index, some_element) :: updated) appended chunks n p
       = Raise ZeroDivisionError)
  ∧ (∀ appended chunks n p rest,
       slice_to appended p = some_element :: rest →
       get_updated_chunks [] appended chunks n p = Raise ZeroDivisionError).
Proof.
  intros Hsize.
  assert (floordiv CHUNK_SIZE (len some_element)
          = if len some_element =? 0 then Raise ZeroDivisionError else Ok 0) as Hdiv.
  { unfold floordiv. destruct (Z.eqb_spec (len some_element) 0) as [|Hne]; [done|].
    f_equal. apply Z.div_small. unfold CHUNK_SIZE in *. lia. }
  split_and!.
  - intros rest p Hp. unfold get_appended_chunks.
    destruct (Z.leb_spec (len (some_element :: rest)) p) as [|_]; [lia|].
    cbn [getitem]. unfold getitem. simpl. rewrite Hdiv.
    by destruct (len some_element =? 0).
  - intros index updated appended chunks n p. rewrite get_updated_chunks_unfold. simpl.
    rewrite Hdiv. destruct (len some_element =? 0); [done|]. simpl.
    apply updated_chunks_loop_zero. apply dict_update_nonempty. by left.
  - intros appended chunks n p rest Hslice. rewrite get_updated_chunks_unfold, Hslice. simpl.
    rewrite Hdiv. destruct (len some_element =? 0); [done|]. simpl.
    apply updated_chunks_loop_zero. apply dict_update_nonempty. right.
    unfold dict_items, dict_of_items. apply dict_update_nonempty. right.
    by rewrite enumerate_cons.
Qed.

Lemma chunking_rejects_unusable_element_sizes_witness :
  get_appended_chunks [replicate 48 xaa; replicate 48 xbb] 0 = Ok []
  ∧ get_updated_chunks [(0, replicate 48 xaa)] [] [ZERO_BYTES32; ZERO_BYTES32] 1 0
    = Raise ZeroDivisionError.
Proof.
  destruct (chunking_rejects_unusable_element_sizes (replicate 48 xaa)) as (Ha & Hu & _).
  - right. reflexivity.
  - split; [|apply Hu]. apply (Ha [replicate 48 xbb] 0). reflexivity.
Defined.

(** ** What the editing methods of a structure return *)

Section StructureEdits.

Context {TElement : Type}.
Implicit Types (h : Heap TElement) (s : Structure TElement) (ev : Evolver TElement).

Lemma Evolver_persistent_dirty h e ev s :
  evolvers h !! e = Some ev →
  structures h !! _original_structure ev = Some s →
  _updated_elements ev ≠ [] ∨ _appended_elements ev ≠ [] →
  Evolver_persistent e h = (Raise TypeError, h).
Proof.
  intros Hev Hs Hdirty.
  unfold Evolver_persistent, Evolver_is_dirty, sedes, Structure_len, elements, hash_tree,
    bind, get_evolver, get_structure, ret, lift.
  rewrite Hev. cbv beta iota.
  destruct (_updated_elements ev) as [|u us] eqn:Hu;
    [destruct (_appended_elements ev) as [|a app] eqn:Ha; [by destruct Hdirty|]|];
    cbn [negb]; heap_eval; reflexivity.
Qed.

Lemma Evolver_persistent_clean h e ev :
  evolvers h !! e = Some ev →
  _updated_elements ev = [] → _appended_elements ev = [] →
  Evolver_persistent e h = (Ok (_original_structure ev), h).
Proof.
  intros Hev Hu Ha.
  unfold Evolver_persistent, Evolver_is_dirty, bind, get_evolver, ret.
  rewrite Hev. cbv beta iota. rewrite Hu, Ha. cbn [negb]. by rewrite Hev.
Qed.

Lemma partition2_mset_args (pairs : list (Z * TElement)) :
  partition2 (mset_args pairs)
  = map (λ pair, (ArgIndex (fst pair), ArgValue (snd pair))) pairs.
Proof. induction pairs as [|[i v] rest IH]; simpl; [done|]. by rewrite <- IH. Qed.

Lemma len_mset_args (pairs : list (Z * TElement)) :
  len (mset_args pairs) = 2 * len pairs.
Proof.
  unfold len. induction pairs as [|[i v] rest IH]; [done|].
  change (mset_args ((i, v) :: rest)) with (ArgIndex i :: ArgValue v :: mset_args rest).
  cbn [length]. lia.
Qed.

(** The assignments of [mset], run on an evolver: they stop at the first
    index out of range. *)
Lemma for_each_setitem h e ev s (pairs : list (Z * TElement)) :
  evolvers h !! e = Some ev →
  structures h !! _original_structure ev = Some s →
  let run :=
    for_each (λ pair : MsetArg TElement * MsetArg TElement,
                match pair with
                | (ArgIndex index, ArgValue value) => Evolver_setitem e index value
                | _ => raise TypeError
                end)
             (map (λ pair, (ArgIndex (fst pair), ArgValue (snd pair))) pairs) h in
  structures (snd run) = structures h
  ∧ length (evolvers (snd run)) = length (evolvers h)
  ∧ if forallb (λ pair, (0 <=? fst pair) && (fst pair <? len (_elements s))) pairs
    then fst run = Ok tt
         ∧ ∃ ev', evolvers (snd run) !! e = Some ev'
                  ∧ _original_structure ev' = _original_structure ev
                  ∧ _appended_elements ev' = _appended_elements ev
                  ∧ (pairs ≠ [] ∨ _updated_elements ev ≠ [] → _updated_elements ev' ≠ [])
                  ∧ (pairs = [] → ev' = ev)
    else fst run = Raise IndexError.
Proof.
  revert h ev. induction pairs as [|[i v] rest IH]; intros h ev Hev Hs; simpl.
  - split_and!; [done..|]. exists ev. split_and!; try done. by intros [|].
  - unfold bind. rewrite (Evolver_setitem_eq h e ev s) by done.
    destruct ((0 <=? i) && (i <? len (_elements s))); simpl; [|done].
    set (ev1 := {| evolver_class := evolver_class ev;
                   _original_structure := _original_structure ev;
                   _updated_elements := dict_set (_updated_elements ev) i v;
                   _appended_elements := _appended_elements ev |}).
    set (h1 := {| structures := structures h; evolvers := <[e:=ev1]> (evolvers h) |}).
    assert (evolvers h1 !! e = Some ev1) as Hev1.
    { simpl. apply list_lookup_insert_eq. by eapply lookup_lt_Some. }
    destruct (IH h1 ev1 Hev1 Hs) as (Hst & Hlen & Hrun).
    split_and!; [done|by rewrite Hlen; simpl; rewrite length_insert|].
    destruct (forallb _ rest); [|done].
    destruct Hrun as (Hok & ev' & Hev' & Ho' & Ha' & Hu' & _).
    split; [done|]. exists ev'. split_and!; try done.
    intros _. apply Hu'. right. simpl. apply dict_set_nonempty.
Qed.

Lemma Structure_mset_run h l s (pairs : list (Z * TElement)) :
  structures h !! l = Some s →
  ∃ h', Structure_mset l (mset_args pairs) h
        = (if forallb (λ pair, (0 <=? fst pair) && (fst pair <? len (_elements s))) pairs
           then match pairs with [] => Ok l | _ :: _ => Raise TypeError end
           else Raise IndexError, h')
        ∧ structures h' = structures h.
Proof.
  intros Hs. unfold Structure_mset.
  rewrite len_mset_args, Z.mul_comm, Z.mod_mul by lia. simpl.
  unfold bind. rewrite (Structure_evolver_eq h l s Hs).
  set (ev0 := {| evolver_class := evolver_class_of (__class__ s);
                 _original_structure := l;
                 _updated_elements := [];
                 _appended_elements := ([] : list TElement) |}).
  set (h0 := {| structures := structures h; evolvers := evolvers h ++ [ev0] |}).
  set (e := length (evolvers h)).
  assert (evolvers h0 !! e = Some ev0) as Hev0 by by apply list_lookup_middle.
  rewrite partition2_mset_args.
  destruct (for_each_setitem h0 e ev0 s pairs Hev0 Hs) as (Hst & _ & Hrun).
  destruct (for_each _ _ h0) as [[[]|err] h1] eqn:Hfe; simpl in *.
  - destruct (forallb _ pairs); [|discriminate].
    destruct Hrun as (_ & ev' & Hev' & Ho' & Ha' & Hu' & Hnil).
    destruct pairs as [|pair rest].
    + rewrite (Hnil eq_refl) in Hev'.
      rewrite (Evolver_persistent_clean h1 e ev0) by done. by exists h1.
    + rewrite (Evolver_persistent_dirty h1 e ev' s); [by exists h1|done| |].
      * by rewrite Ho', Hst.
      * left. apply Hu'. by left.
  - destruct (forallb _ pairs); [by destruct Hrun|]. exists h1. by simplify_eq.
Qed.

(** X13.  What [mset] returns: with an index out of range it raises
    [IndexError]; with all indices in range and at least one pair it raises
    [TypeError] (the call of [persistent()] on a dirty evolver); with no pair
    it returns the structure itself.  No structure is created or changed in
    any case.  [set(index, value)] is [mset(index, value)].  An odd number of
    arguments raises [TypeError] before an evolver is created. *)
Theorem mset_outcome h l s (pairs : list (Z * TElement)) :
  structures h !! l = Some s →
  fst (Structure_mset l (mset_args pairs) h)
  = (if forallb (λ pair, (0 <=? fst pair) && (fst pair <? len (_elements s))) pairs
     then match pairs with [] => Ok l | _ :: _ => Raise TypeError end
     else Raise IndexError)
  ∧ structures (snd (Structure_mset l (mset_args pairs) h)) = structures h
  ∧ (∀ index value,
       fst (Structure_set l index value h)
       = Raise (if (0 <=? index) && (index <? len (_elements s)) then TypeError
                else IndexError))
  ∧ (∀ args, len args mod 2 ≠ 0 → Structure_mset l args h = (Raise TypeError, h)).
Proof.
  intros Hs. split_and!.
  - by destruct (Structure_mset_run h l s pairs Hs) as (h' & -> & Hst).
  - by destruct (Structure_mset_run h l s pairs Hs) as (h' & -> & Hst).
  - intros index value.
    destruct (Structure_mset_run h l s [(index, value)] Hs) as (h' & Hrun & _).
    change (mset_args [(index, value)]) with [ArgIndex index; ArgValue value] in Hrun.
    unfold Structure_set. rewrite Hrun. simpl.
    by destruct ((0 <=? index) && (index <? len (_elements s))).
  - intros args Hodd. unfold Structure_mset.
    by destruct (Z.eqb_spec (len args mod 2) 0).
Qed.




End StructureEdits.

(** ** Chunk indices and padding *)

Lemma get_updated_chunks_single (original_chunks : list (list byte)) (index : Z)
  (element : list byte) (n p : Z) :
  0 < len element → CHUNK_SIZE mod len element = 0 →
  get_updated_chunks [(index, element)] [] original_chunks n p
  = (let* chunk := getitem original_chunks (index / (CHUNK_SIZE / len element)) in
     let* updated_chunk :=
       update_element_in_chunk chunk (index mod (CHUNK_SIZE / len element)) element in
     Ok [(index / (CHUNK_SIZE / len element), updated_chunk)]).
Proof.
  intros Hes Hmod.
  set (epc := CHUNK_SIZE / len element) in *.
  assert (0 < epc) as Hepc.
  { subst epc. pose proof (Z.div_mod CHUNK_SIZE (len element) ltac:(lia)) as Hdm.
    rewrite Hmod in Hdm. unfold CHUNK_SIZE in *. nia. }
  unfold get_updated_chunks.
  assert (slice_to (A:=list byte) [] p = []) as ->.
  { unfold slice_to. destruct (p <? 0); by rewrite take_nil. }
  cbn [dict_values map snd]. unfold floordiv at 1.
  destruct (Z.eqb_spec (len element) 0); [lia|]. fold epc. cbn [rbind].
  cbn [enumerate imap dict_of_items dict_update fold_left dict_items dict_merge dict_keys
       map fst groupby].
  unfold floordiv, pymod.
  destruct (Z.eqb_spec epc 0); [lia|].
  cbn [rbind dict_get dict_set dict_items mapM fst snd dict_getitem].
  unfold dict_getitem. cbn [dict_get]. rewrite Z.eqb_refl. cbn [rbind].
  destruct (getitem original_chunks (index / epc)) as [chunk|err]; [|done]. cbn [rbind].
  unfold update_elements_in_chunk, dict_of_items, dict_update, dict_items.
  cbn [fold_left dict_set fst snd rbind].
  by destruct (update_element_in_chunk chunk (index mod epc) element).
Qed.

(** X15.  An update whose chunk does not exist: for one updated element of a
    size that divides [CHUNK_SIZE], [get_updated_chunks] raises [IndexError]
    when the chunk index [index // elements_per_chunk] is at or beyond the
    number of original chunks, or below its negation. *)
Theorem get_updated_chunks_missing_chunk (original_chunks : list (list byte)) (index : Z)
  (element : list byte) (n p : Z) :
  0 < len element → CHUNK_SIZE mod len element = 0 →
  len original_chunks ≤ index / (CHUNK_SIZE / len element)
  ∨ index / (CHUNK_SIZE / len element) < - len original_chunks →
  get_updated_chunks [(index, element)] [] original_chunks n p = Raise IndexError.
Proof.
  intros Hes Hmod Hout. rewrite get_updated_chunks_single by done.
  rewrite getitem_out_of_range; [done|]. tauto.
Qed.

Lemma get_updated_chunks_missing_chunk_witness :
  get_updated_chunks [(4, D16)] [] [A16 ++ B16; C16 ++ replicate 16 x00] 3 1
  = Raise IndexError.
Proof.
  apply (get_updated_chunks_missing_chunk [A16 ++ B16; C16 ++ replicate 16 x00] 4 D16 3 1).
  - reflexivity.
  - reflexivity.
  - left. vm_compute. discriminate.
Defined.

(** X16.  The padding counts the free slots: when the chunks are the chunks
    packed from elements of one size that divides [CHUNK_SIZE],
    [get_num_padding_elements] returns the number [p] of elements that still
    fit into the last chunk: the elements and [p] more fill the chunks
    exactly, [p] is at most the number of elements per chunk, and less than
    that unless there is no element at all. *)
Theorem padding_counts_free_slots (element_size : Z)
  (elements chunks : list (list byte)) :
  0 < element_size → CHUNK_SIZE mod element_size = 0 →
  Forall (λ element, len element = element_size) elements →
  packed_chunks elements = Ok chunks →
  ∃ num_padding_elements,
    get_num_padding_elements (len chunks) (len elements) element_size
    = Ok num_padding_elements
    ∧ len elements + num_padding_elements = CHUNK_SIZE / element_size * len chunks
    ∧ 0 ≤ num_padding_elements ≤ CHUNK_SIZE / element_size
    ∧ (elements ≠ [] → num_padding_elements < CHUNK_SIZE / element_size).
Proof.
  intros Hes Hmod Hsizes Hpacked.
  destruct (element_size_nat element_size Hes Hmod) as (HE & HN & HNE).
  set (E := Z.to_nat element_size) in *. set (N := Z.to_nat (CHUNK_SIZE / element_size)) in *.
  destruct (packed_chunks_groups E N HE HN HNE elements (Forall_len_length _ _ Hsizes))
    as (groups & m & Hrun & Hlen & Hsize & Hcat & Hm1 & Hm2).
  rewrite Hrun in Hpacked. injection Hpacked as <-.
  assert (CHUNK_SIZE / element_size = Z.of_nat N) as HNZ.
  { subst N. rewrite Z2Nat.id; [done|]. apply Z.div_pos; [done|lia]. }
  assert (element_size = Z.of_nat E) as HEZ by (subst E; lia).
  assert (N * length groups = length elements + m)%nat as Hcount.
  { apply (f_equal length) in Hcat.
    rewrite (length_concat_uniform N), length_app, length_replicate in Hcat by done. lia. }
  assert (CHUNK_SIZE = Z.of_nat N * Z.of_nat E) as H32 by (unfold CHUNK_SIZE; lia).
  exists (Z.of_nat m). rewrite HNZ. split; [|split; [|split]].
  - unfold get_num_padding_elements, floordiv.
    destruct (Z.eqb_spec element_size 0); [lia|]. f_equal.
    unfold len. rewrite length_map, H32, HEZ.
    replace (Z.of_nat (length groups) * (Z.of_nat N * Z.of_nat E)
             - Z.of_nat (length elements) * Z.of_nat E)
      with (Z.of_nat m * Z.of_nat E) by nia.
    apply Z.div_mul. lia.
  - unfold len. rewrite length_map. lia.
  - destruct (decide (elements = [])) as [Hnil|Hne].
    + specialize (Hm2 Hnil). lia.
    + specialize (Hm1 Hne). lia.
  - intros Hne. specialize (Hm1 Hne). lia.
Qed.

Lemma padding_counts_free_slots_witness :
  ∃ num_padding_elements,
    get_num_padding_elements (len [A16 ++ B16; C16 ++ replicate 16 x00]) (len [A16; B16; C16]) 16
    = Ok num_padding_elements
    ∧ len [A16; B16; C16] + num_padding_elements
      = CHUNK_SIZE / 16 * len [A16 ++ B16; C16 ++ replicate 16 x00]
    ∧ 0 ≤ num_padding_elements ≤ CHUNK_SIZE / 16
    ∧ ([A16; B16; C16] ≠ [] → num_padding_elements < CHUNK_SIZE / 16).
Proof.
  apply (padding_counts_free_slots 16 [A16; B16; C16] [A16 ++ B16; C16 ++ replicate 16 x00]).
  - reflexivity.
  - reflexivity.
  - repeat constructor.
  - reflexivity.
Defined.

(** ** Evaluations on the concrete list *)

Lemma evolver_reads_last_write_witness :
  structures example_heap !! 0%nat = Some example_list
  ∧ fst (Evolver_getitem 0%nat 0 (run_calls 0%nat example_calls example_heap_evolver)) = Ok 4
  ∧ fst (Evolver_getitem 0%nat (-1) (run_calls 0%nat example_calls example_heap_evolver))
    = Ok 7.
Proof.
  split; [reflexivity|]. split.
  - exact (f_equal fst (evolver_reads_last_write example_heap 0%nat example_list
                          example_calls 0 eq_refl)).
  - exact (f_equal fst (evolver_reads_last_write example_heap 0%nat example_list
                          example_calls (-1) eq_refl)).
Defined.

Lemma evolver_staged_state_witness :
  ∃ ev', evolvers (run_calls 0%nat example_calls example_heap_evolver) !! 0%nat = Some ev'
         ∧ _updated_elements ev' = [(0, 4)]
         ∧ _appended_elements ev' = [8; 2; 3].
Proof.
  destruct (evolver_staged_state example_heap 0%nat example_list example_calls eq_refl)
    as (ev' & Hev' & _ & _ & _ & _ & _ & Happ).
  exists ev'. split; [exact Hev'|]. split; [|exact Happ].
  vm_compute in Hev'. by injection Hev' as <-.
Defined.

Lemma mset_outcome_witness :
  fst (Structure_mset 0%nat (mset_args [(0, 9); (1, 5)]) example_heap) = Raise IndexError
  ∧ fst (Structure_set 0%nat 0 9 example_heap) = Raise TypeError.
Proof.
  destruct (mset_outcome example_heap 0%nat example_list [(0, 9); (1, 5)] eq_refl)
    as (Hmset & _ & Hset & _).
  split; [exact Hmset|exact (Hset 0 9)].
Defined.


(** * Serialization ([ssz/sedes]) *)

(** ** Reading serialized data *)

Lemma slice_take_drop {A} (seq : list A) (start stop : Z) :
  0 ≤ start → start ≤ stop → stop ≤ len seq →
  slice seq start stop = take (Z.to_nat (stop - start)) (drop (Z.to_nat start) seq).
Proof.
  intros H0 H1 H2. unfold slice.
  destruct (Z.ltb_spec stop 0); [lia|]. destruct (Z.ltb_spec start 0); [lia|].
  by rewrite !Z.min_l by lia.
Qed.

Section SedesBaseFacts.

Import SedesBase.

Lemma consume_bytes_ok (data : list byte) (start_index num_bytes : Z) :
  0 ≤ start_index → 0 ≤ num_bytes → start_index + num_bytes ≤ len data →
  consume_bytes data start_index num_bytes
  = Returns (take (Z.to_nat num_bytes) (drop (Z.to_nat start_index) data),
             start_index + num_bytes).
Proof.
  intros H0 H1 H2. unfold consume_bytes. rewrite Z.gtb_ltb.
  destruct (Z.ltb_spec start_index 0); [lia|]. destruct (Z.ltb_spec num_bytes 0); [lia|].
  destruct (Z.ltb_spec (len data) (start_index + num_bytes)); [lia|].
  rewrite slice_take_drop by lia. do 3 f_equal. lia.
Qed.

Lemma consume_bytes_short (data : list byte) (start_index num_bytes : Z) :
  0 ≤ start_index → 0 ≤ num_bytes → len data < start_index + num_bytes →
  consume_bytes data start_index num_bytes = Raises DeserializationError.
Proof.
  intros H0 H1 H2. unfold consume_bytes. rewrite Z.gtb_ltb.
  destruct (Z.ltb_spec start_index 0); [lia|]. destruct (Z.ltb_spec num_bytes 0); [lia|].
  by destruct (Z.ltb_spec (len data) (start_index + num_bytes)); [|lia].
Qed.

Lemma consume_bytes_middle (before content after : list byte) :
  consume_bytes (before ++ content ++ after) (len before) (len content)
  = Returns (content, len before + len content).
Proof.
  rewrite consume_bytes_ok.
  - unfold len. rewrite !Nat2Z.id, drop_app_length, take_app_length. done.
  - apply len_nonneg.
  - apply len_nonneg.
  - unfold len. rewrite !length_app. lia.
Qed.

Lemma deserialize_ltb {S D : Type} (self : BaseSedes S D) (data : list byte) :
  deserialize self data
  = (let+ segment := deserialize_segment self data 0 in
     if 0 <? len data - snd segment then Raises DeserializationError
     else if len data - snd segment <? 0 then Raises InvariantException
     else Returns (fst segment)).
Proof.
  unfold deserialize. destruct (deserialize_segment self data 0) as [segment|]; [|done].
  simpl. by rewrite Z.gtb_ltb.
Qed.

(** X17.  [consume_bytes]: a negative start index or number of bytes raises
    [ValueError]; a read that would pass the end of the data raises
    [DeserializationError]; otherwise it returns exactly [num_bytes] bytes,
    the ones standing at [start_index] in the data, and the index right after
    them. *)
Theorem consume_bytes_spec (data : list byte) (start_index num_bytes : Z) :
  (start_index < 0 ∨ num_bytes < 0 →
   consume_bytes data start_index num_bytes = Raises (Builtin ValueError))
  ∧ (0 ≤ start_index → 0 ≤ num_bytes → len data < start_index + num_bytes →
     consume_bytes data start_index num_bytes = Raises DeserializationError)
  ∧ (0 ≤ start_index → 0 ≤ num_bytes → start_index + num_bytes ≤ len data →
     ∃ content,
       consume_bytes data start_index num_bytes = Returns (content, start_index + num_bytes)
       ∧ len content = num_bytes
       ∧ data = take (Z.to_nat start_index) data ++ content
                ++ drop (Z.to_nat (start_index + num_bytes)) data).
Proof.
  split_and!.
  - intros Hneg. unfold consume_bytes. rewrite Z.gtb_ltb.
    destruct (Z.ltb_spec start_index 0); [done|].
    destruct (Z.ltb_spec num_bytes 0); [done|lia].
  - apply consume_bytes_short.
  - intros H0 H1 H2. eexists. split; [by apply consume_bytes_ok|]. split.
    + unfold len in *. rewrite length_take, length_drop. lia.
    + replace (Z.to_nat (start_index + num_bytes))
        with (Z.to_nat start_index + Z.to_nat num_bytes)%nat by lia.
      rewrite <- drop_drop. by rewrite take_drop, take_drop.
Qed.

(** X18.  Two reads in a row are one read: if [consume_bytes] returns
    [first] from [start_index] and then [second] from the continuation index,
    reading both lengths at once from [start_index] returns [first + second]
    and the same final index. *)
Theorem consume_bytes_consecutive (data : list byte) (start_index m n : Z)
  (first second : list byte) (middle_index end_index : Z) :
  consume_bytes data start_index m = Returns (first, middle_index) →
  consume_bytes data middle_index n = Returns (second, end_index) →
  consume_bytes data start_index (m + n) = Returns (first ++ second, end_index).
Proof.
  unfold consume_bytes at 1 2. rewrite !Z.gtb_ltb.
  destruct (Z.ltb_spec start_index 0); [done|]. destruct (Z.ltb_spec m 0); [done|].
  destruct (Z.ltb_spec (len data) (start_index + m)); [done|].
  intros [= <- <-].
  destruct (Z.ltb_spec (start_index + m) 0); [done|]. destruct (Z.ltb_spec n 0); [done|].
  destruct (Z.ltb_spec (len data) (start_index + m + n)); [done|].
  intros [= <- <-].
  rewrite consume_bytes_ok by lia. rewrite !slice_take_drop by lia.
  f_equal. f_equal; [|lia].
  replace (Z.to_nat (start_index + m - start_index)) with (Z.to_nat m) by lia.
  replace (Z.to_nat (start_index + m + n - (start_index + m))) with (Z.to_nat n) by lia.
  replace (Z.to_nat (m + n)) with (Z.to_nat m + Z.to_nat n)%nat by lia.
  replace (Z.to_nat (start_index + m)) with (Z.to_nat start_index + Z.to_nat m)%nat by lia.
  rewrite <- drop_drop. by rewrite take_take_drop.
Qed.

(** *** Basic sedes *)

Lemma BasicSedes_init_inv {S D : Type} (length : Z) (sc : S → Outcome (list byte))
  (dc : list byte → Outcome D) (self : BasicSedes S D) :
  BasicSedes_init length sc dc = Returns self →
  0 < length ∧ sedes_length self = length
  ∧ serialize_content self = sc ∧ deserialize_content self = dc.
Proof.
  unfold BasicSedes_init. destruct (Z.leb_spec length 0); [done|]. by intros [= <-].
Qed.

(** X19.  A basic sedes accepts exactly [length] bytes: for a sedes built by
    [__init__] (so [length > 0]), [deserialize] raises [DeserializationError]
    on shorter data, returns [deserialize_content(data)] on data of [length]
    bytes, and on longer data decodes the first [length] bytes and then
    raises [DeserializationError] for the superfluous ones. *)
Theorem basic_deserialize_exact_length {S D : Type} (length : Z)
  (sc : S → Outcome (list byte)) (dc : list byte → Outcome D) (self : BasicSedes S D)
  (data : list byte) :
  BasicSedes_init length sc dc = Returns self →
  deserialize (Basic_sedes self) data
  = if len data <? length then Raises DeserializationError
    else
      let+ value := dc (take (Z.to_nat length) data) in
      if length <? len data then Raises DeserializationError else Returns value.
Proof.
  intros (Hpos & Hlen & Hsc & Hdc)%BasicSedes_init_inv.
  rewrite deserialize_ltb. simpl. unfold Basic_deserialize_segment. rewrite Hlen, Hdc.
  destruct (Z.ltb_spec (len data) length) as [Hshort|Hlong].
  - by rewrite consume_bytes_short by lia.
  - rewrite consume_bytes_ok by lia. simpl. rewrite drop_0.
    destruct (dc (take (Z.to_nat length) data)) as [value|err]; [|done]. simpl.
    rewrite Z.add_0_l.
    destruct (Z.ltb_spec length (len data)).
    + by destruct (Z.ltb_spec 0 (len data - length)); [|lia].
    + destruct (Z.ltb_spec 0 (len data - length)); [lia|].
      by destruct (Z.ltb_spec (len data - length) 0); [lia|].
Qed.

Lemma Basic_reads_back {T : Type} (self : BasicSedes T T) (value : T)
  (serialized : list byte) :
  0 < sedes_length self →
  serialize_content self value = Returns serialized →
  len serialized = sedes_length self →
  deserialize_content self serialized = Returns value →
  reads_back (Basic_sedes self) value serialized.
Proof.
  intros Hpos Hser Hlen Hde. split_and!; [done| |].
  - intros ->. unfold len in Hlen. simpl in Hlen. lia.
  - intros before after. simpl. unfold Basic_deserialize_segment.
    rewrite <- Hlen, consume_bytes_middle. simpl. by rewrite Hde.
Qed.

(** *** Tuples *)

Section Tuples.

Context {T : Type}.
Implicit Types (self : Tuple T T) (value : list T) (parts : list (list byte)).

Lemma Tuple_deserialize_content_ltb self (content : list byte) :
  Tuple_deserialize_content self content
  = (let+ looped :=
       Tuple_deserialize_elements self content (Z.to_nat (number_of_elements self)) 0 in
     if len content <? snd looped then Raises InvariantException
     else if snd looped <? len content then Raises DeserializationError
     else Returns (fst looped)).
Proof.
  unfold Tuple_deserialize_content.
  destruct (Tuple_deserialize_elements _ _ _ _) as [looped|]; [|done].
  simpl. by rewrite Z.gtb_ltb.
Qed.

Lemma omapM_serialize (sedes : BaseSedes T T) value parts :
  Forall2 (reads_back sedes) value parts → omapM (serialize sedes) value = Returns parts.
Proof.
  induction 1 as [|v b value parts (Hser & _ & _) _ IH]; simpl; [done|].
  by rewrite Hser, IH.
Qed.

Lemma Tuple_deserialize_elements_spec self value parts :
  Forall2 (reads_back (element_sedes self)) value parts →
  ∀ before after,
    Tuple_deserialize_elements self (before ++ concat parts ++ after)
      (List.length value) (len before)
    = Returns (value, len before + len (concat parts)).
Proof.
  induction 1 as [|v b value parts (Hser & Hne & Hread) _ IH]; intros before after.
  - simpl. do 2 f_equal. unfold len. simpl. lia.
  - cbn [Tuple_deserialize_elements List.length concat].
    rewrite <- (app_assoc b). rewrite Hread. simpl.
    assert (0 < len b) as Hpos.
    { unfold len. destruct b; [done|simpl; lia]. }
    destruct (Z.leb_spec (len before + len b) (len before)); [lia|].
    specialize (IH (before ++ b) after).
    rewrite <- !app_assoc in IH.
    replace (len (before ++ b)) with (len before + len b) in IH
      by (unfold len; rewrite length_app; lia).
    rewrite IH. simpl. do 2 f_equal. unfold len. rewrite !length_app. lia.
Qed.

Lemma Tuple_content_reads_back self value parts :
  len value = number_of_elements self →
  Forall2 (reads_back (element_sedes self)) value parts →
  Tuple_serialize_content self value = Returns (concat parts)
  ∧ Tuple_deserialize_content self (concat parts) = Returns value
  ∧ ∀ extra, extra ≠ [] →
      Tuple_deserialize_content self (concat parts ++ extra) = Raises DeserializationError.
Proof.
  intros Hlen Hparts.
  assert (Z.to_nat (number_of_elements self) = List.length value) as Hcount
    by (unfold len in Hlen; lia).
  split_and!.
  - unfold Tuple_serialize_content. rewrite Hlen, Z.eqb_refl. simpl.
    by rewrite (omapM_serialize _ value parts).
  - rewrite Tuple_deserialize_content_ltb, Hcount.
    pose proof (Tuple_deserialize_elements_spec self value parts Hparts [] []) as Hrun.
    simpl in Hrun. rewrite app_nil_r in Hrun.
    change (len (@nil byte)) with 0 in Hrun. rewrite Z.add_0_l in Hrun.
    rewrite Hrun. simpl.
    by rewrite !Z.ltb_irrefl.
  - intros extra Hne. rewrite Tuple_deserialize_content_ltb, Hcount.
    pose proof (Tuple_deserialize_elements_spec self value parts Hparts [] extra) as Hrun.
    simpl in Hrun. change (len (@nil byte)) with 0 in Hrun. rewrite Z.add_0_l in Hrun.
    rewrite Hrun. simpl.
    assert (len (concat parts) < len (concat parts ++ extra)) as Hlt.
    { unfold len. rewrite length_app. destruct extra; [done|simpl; lia]. }
    destruct (Z.ltb_spec (len (concat parts ++ extra)) (len (concat parts))); [lia|].
    by destruct (Z.ltb_spec (len (concat parts)) (len (concat parts ++ extra))); [|lia].
Qed.

(** X20.  The content of a tuple round-trips: when every element is
    serialized to a non-empty string from which the element sedes reads it
    back wherever it stands, [serialize_content] of a value with
    [number_of_elements] elements returns the concatenation of these strings,
    [deserialize_content] of that returns the value, and
    [deserialize_content] of that followed by anything else raises
    [DeserializationError]. *)
Theorem tuple_content_roundtrip self value parts :
  len value = number_of_elements self →
  Forall2 (reads_back (element_sedes self)) value parts →
  Tuple_serialize_content self value = Returns (concat parts)
  ∧ Tuple_deserialize_content self (concat parts) = Returns value
  ∧ ∀ extra, extra ≠ [] →
      Tuple_deserialize_content self (concat parts ++ extra) = Raises DeserializationError.
Proof. apply Tuple_content_reads_back. Qed.

(** X21.  A tuple of [n] elements of a basic sedes is serialized to the
    concatenation of its elements, and [deserialize] of that returns the value
    for [n = 1] only: [get_fixed_length] returns the length of one element, so
    [deserialize_segment] hands one element's bytes to [deserialize_content],
    and for every other [n], the empty tuple included,
    [DeserializationError] is raised. *)
Theorem fixed_size_tuple_roundtrip (LENGTH_PREFIX_SIZE : Z)
  (validate_content_length : list byte → Outcome unit)
  (get_length_prefix : list byte → Outcome (list byte))
  (length : Z) (sc : T → Outcome (list byte)) (dc : list byte → Outcome T)
  (basic : BasicSedes T T) (n : Z) value parts :
  BasicSedes_init length sc dc = Returns basic →
  len value = n →
  Forall2 (λ v b, sc v = Returns b ∧ len b = length ∧ dc b = Returns v) value parts →
  let sedes :=
    Composite_sedes LENGTH_PREFIX_SIZE validate_content_length get_length_prefix
      (Tuple_composite {| number_of_elements := n; element_sedes := Basic_sedes basic |}) in
  serialize sedes value = Returns (concat parts)
  ∧ deserialize sedes (concat parts)
    = if n =? 1 then Returns value else Raises DeserializationError.
Proof.
  intros (Hpos & Hlen & Hsc & Hdc)%BasicSedes_init_inv Hn Hparts sedes.
  set (self := {| number_of_elements := n; element_sedes := Basic_sedes basic |}) in *.
  assert (Forall2 (reads_back (element_sedes self)) value parts) as Hreads.
  { eapply Forall2_impl; [exact Hparts|]. intros v b (Hs & Hl & Hd). simpl.
    apply Basic_reads_back; congruence. }
  destruct (Tuple_content_reads_back self value parts Hn Hreads) as (Hser & Hde & _).
  assert (Tuple_is_variable_length self = false) as Hfixed.
  { unfold Tuple_is_variable_length. simpl. by rewrite andb_false_r. }
  split.
  - subst sedes. simpl. unfold Composite_serialize. simpl. by rewrite Hser, Hfixed.
  - subst sedes. rewrite deserialize_ltb. simpl.
    unfold Composite_deserialize_segment. simpl.
    unfold Tuple_get_fixed_length. rewrite Hfixed. simpl. rewrite Hlen.
    destruct Hparts as [|v0 b0 value parts (Hs0 & Hl0 & Hd0) Hparts].
    { (* the empty tuple *)
      simpl in Hn. subst n. simpl. by rewrite consume_bytes_short by (unfold len; simpl; lia). }
    destruct Hparts as [|v1 b1 value parts (Hs1 & Hl1 & Hd1) Hparts].
    { (* one element *)
      simpl in Hn. subst n. simpl in *. rewrite app_nil_r in *.
      rewrite consume_bytes_ok by lia. simpl.
      rewrite drop_0, take_ge by (unfold len in Hl0; lia).
      rewrite Hde. simpl. rewrite Hl0, Z.add_0_l, Z.sub_diag. done. }
    (* two elements or more *)
    assert (2 ≤ n) as Hn2 by (unfold len in Hn; simpl in Hn; lia).
    destruct (Z.eqb_spec n 1); [lia|].
    rewrite consume_bytes_ok; [|lia|lia|].
    2: { unfold len in *. simpl. rewrite length_app. lia. }
    simpl. rewrite drop_0.
    rewrite take_app_length' by (unfold len in Hl0; lia).
    rewrite Tuple_deserialize_content_ltb. simpl number_of_elements.
    assert (∃ count, Z.to_nat n = S (S count)) as [count ->]
      by (exists (Z.to_nat n - 2)%nat; lia).
    cbn [Tuple_deserialize_elements]. simpl element_sedes. simpl deserialize_segment.
    unfold Basic_deserialize_segment. rewrite Hlen, Hdc.
    rewrite consume_bytes_ok by lia. simpl.
    rewrite drop_0, take_ge by (unfold len in Hl0; lia). rewrite Hd0. simpl.
    destruct (Z.leb_spec (0 + length) 0); [lia|].
    by rewrite consume_bytes_short by lia.
Qed.

End Tuples.

(** *** Length-prefixed composites *)

(** X22.  Reading a length-prefixed value: for a composite sedes of variable
    length and a prefix of [LENGTH_PREFIX_SIZE] bytes that holds the length of
    the content in little-endian order, [deserialize_segment] started at the
    prefix returns [deserialize_content(content)] and the index right after
    the content, whatever surrounds them; it raises [DeserializationError]
    when the content is cut short; and [deserialize] returns the value when
    nothing follows the content and raises [DeserializationError] when
    something does. *)
Theorem composite_deserialize_segment_frame {S D : Type} (LENGTH_PREFIX_SIZE : Z)
  (validate_content_length : list byte → Outcome unit)
  (get_length_prefix : list byte → Outcome (list byte))
  (self : CompositeSedes S D) (prefix content : list byte) :
  composite_is_variable_length self = true →
  len prefix = LENGTH_PREFIX_SIZE →
  from_bytes_little prefix = len content →
  (∀ before after,
     Composite_deserialize_segment LENGTH_PREFIX_SIZE self
       (before ++ prefix ++ content ++ after) (len before)
     = (let+ value := composite_deserialize_content self content in
        Returns (value, len before + LENGTH_PREFIX_SIZE + len content)))
  ∧ (∀ before missing, 0 < missing ≤ len content →
       Composite_deserialize_segment LENGTH_PREFIX_SIZE self
         (before ++ prefix ++ take (Z.to_nat (len content - missing)) content) (len before)
       = Raises DeserializationError)
  ∧ (∀ extra,
       deserialize
         (Composite_sedes LENGTH_PREFIX_SIZE validate_content_length get_length_prefix self)
         (prefix ++ content ++ extra)
       = (let+ value := composite_deserialize_content self content in
          match extra with
          | [] => Returns value
          | _ :: _ => Raises DeserializationError
          end)).
Proof.
  intros Hvar Hprefix Hlen.
  assert (∀ before after,
            Composite_deserialize_segment LENGTH_PREFIX_SIZE self
              (before ++ prefix ++ content ++ after) (len before)
            = (let+ value := composite_deserialize_content self content in
               Returns (value, len before + LENGTH_PREFIX_SIZE + len content))) as Hframe.
  { intros before after. unfold Composite_deserialize_segment. rewrite Hvar. simpl.
    rewrite <- Hprefix. rewrite consume_bytes_middle. simpl. rewrite Hlen.
    rewrite (app_assoc before prefix).
    replace (len before + len prefix) with (len (before ++ prefix))
      by (unfold len; rewrite length_app; lia).
    rewrite consume_bytes_middle. simpl.
    by destruct (composite_deserialize_content self content). }
  split_and!; [done| |].
  - intros before missing Hmissing. unfold Composite_deserialize_segment. rewrite Hvar. simpl.
    rewrite <- Hprefix. rewrite consume_bytes_middle. simpl. rewrite Hlen.
    rewrite consume_bytes_short; [done| | |].
    + pose proof (len_nonneg before). pose proof (len_nonneg prefix). lia.
    + apply len_nonneg.
    + unfold len in *. rewrite !length_app, length_take. lia.
  - intros extra. rewrite deserialize_ltb. simpl.
    pose proof (Hframe [] extra) as Hrun. simpl in Hrun.
    change (len (@nil byte)) with 0 in Hrun. rewrite Hrun.
    destruct (composite_deserialize_content self content) as [value|err]; [|done]. simpl.
    rewrite Z.add_0_l.
    replace (len (prefix ++ content ++ extra) - (LENGTH_PREFIX_SIZE + len content))
      with (len extra) by (unfold len in *; rewrite !length_app; lia).
    destruct extra as [|x extra]; [done|].
    by destruct (Z.ltb_spec 0 (len (x :: extra))); [|unfold len in *; simpl in *; lia].
Qed.

(** X23.  A composite sedes of variable length round-trips when the length
    prefix does: if the content of a value passes [validate_content_length],
    [get_length_prefix] returns [LENGTH_PREFIX_SIZE > 0] bytes that hold the
    length of the content in little-endian order, and [deserialize_content]
    reads the value back from the content, then [serialize] returns the prefix
    followed by the content, [deserialize] of that returns the value, and
    [deserialize_segment] reads the value back wherever the serialization
    stands in a longer string. *)
Theorem composite_variable_length_roundtrip {T : Type} (LENGTH_PREFIX_SIZE : Z)
  (validate_content_length : list byte → Outcome unit)
  (get_length_prefix : list byte → Outcome (list byte))
  (self : CompositeSedes T T) (value : T) (prefix content : list byte) :
  composite_is_variable_length self = true →
  composite_serialize_content self value = Returns content →
  validate_content_length content = Returns tt →
  get_length_prefix content = Returns prefix →
  0 < LENGTH_PREFIX_SIZE → len prefix = LENGTH_PREFIX_SIZE →
  from_bytes_little prefix = len content →
  composite_deserialize_content self content = Returns value →
  let sedes :=
    Composite_sedes LENGTH_PREFIX_SIZE validate_content_length get_length_prefix self in
  serialize sedes value = Returns (prefix ++ content)
  ∧ deserialize sedes (prefix ++ content) = Returns value
  ∧ reads_back sedes value (prefix ++ content).
Proof.
  intros Hvar Hser Hvalid Hprefix Hpos Hlen Hdecode Hde sedes.
  assert (serialize sedes value = Returns (prefix ++ content)) as Hserialize.
  { subst sedes. simpl. unfold Composite_serialize.
    rewrite Hser. simpl. rewrite Hvar. simpl. by rewrite Hvalid, Hprefix. }
  assert (∀ before after,
            deserialize_segment sedes (before ++ (prefix ++ content) ++ after) (len before)
            = Returns (value, len before + len (prefix ++ content))) as Hsegment.
  { intros before after. subst sedes. simpl. unfold Composite_deserialize_segment.
    rewrite Hvar. simpl. rewrite <- Hlen, <- app_assoc.
    rewrite consume_bytes_middle. simpl. rewrite Hdecode.
    rewrite (app_assoc before prefix).
    replace (len before + len prefix) with (len (before ++ prefix))
      by (unfold len; rewrite length_app; lia).
    rewrite consume_bytes_middle. simpl. rewrite Hde. simpl.
    do 2 f_equal. unfold len. rewrite !length_app. lia. }
  split_and!; [done| |].
  - rewrite deserialize_ltb.
    pose proof (Hsegment [] []) as Hrun. rewrite app_nil_l, app_nil_r in Hrun.
    change (len (@nil byte)) with 0 in Hrun. rewrite Hrun. simpl.
    rewrite Z.add_0_l, Z.sub_diag. done.
  - split_and!; [done| |done].
    intros Hnil. apply (f_equal len) in Hnil. unfold len in *.
    rewrite length_app in Hnil. simpl in Hnil. lia.
Qed.

End SedesBaseFacts.

(** ** Evaluations on concrete sedes *)

Section SedesBaseExamples.

Import SedesBase.

Lemma consume_bytes_consecutive_witness :
  consume_bytes (list_byte_of_string "abcdef") 1 4
  = Returns (list_byte_of_string "bcde", 5).
Proof.
  apply (consume_bytes_consecutive (list_byte_of_string "abcdef") 1 1 3
           (list_byte_of_string "b") (list_byte_of_string "cde") 2 5); reflexivity.
Defined.

Lemma basic_deserialize_exact_length_witness :
  deserialize (Basic_sedes uint8) [x2a] = Returns 42
  ∧ deserialize (Basic_sedes uint8) [] = Raises DeserializationError
  ∧ deserialize (Basic_sedes uint8) [x2a; x00] = Raises DeserializationError.
Proof.
  split_and!.
  - apply (basic_deserialize_exact_length 1 (serialize_content uint8)
             (deserialize_content uint8) uint8 [x2a] eq_refl).
  - apply (basic_deserialize_exact_length 1 (serialize_content uint8)
             (deserialize_content uint8) uint8 [] eq_refl).
  - apply (basic_deserialize_exact_length 1 (serialize_content uint8)
             (deserialize_content uint8) uint8 [x2a; x00] eq_refl).
Defined.

Lemma composite_deserialize_segment_frame_witness :
  Composite_deserialize_segment 4 byte_string
    ([xff] ++ to_bytes_little 4 2 ++ list_byte_of_string "hi" ++ list_byte_of_string "!") 1
  = Returns (list_byte_of_string "hi", 7).
Proof.
  destruct (composite_deserialize_segment_frame 4 (λ _, Returns tt)
              (λ content, Returns (to_bytes_little 4 (len content)))
              byte_string (to_bytes_little 4 2) (list_byte_of_string "hi"))
    as (Hframe & _ & _); [reflexivity..|].
  apply (Hframe [xff] (list_byte_of_string "!")).
Defined.

Lemma uint8_reads_back (value : Z) :
  0 ≤ value < 256 → reads_back (Basic_sedes uint8) value (to_bytes_little 1 value).
Proof.
  intros Hvalue. apply Basic_reads_back; try reflexivity.
  - simpl. destruct (Z.leb_spec 0 value); [|lia]. by destruct (Z.ltb_spec value 256); [|lia].
  - simpl. f_equal. rewrite byte_of_Z_to_N. rewrite Z.mod_small by lia. lia.
Qed.

Lemma tuple_content_roundtrip_witness :
  Tuple_serialize_content uint8_pair [7; 200] = Returns [x07; xc8]
  ∧ Tuple_deserialize_content uint8_pair [x07; xc8] = Returns [7; 200].
Proof.
  destruct (tuple_content_roundtrip uint8_pair [7; 200] [[x07]; [xc8]]) as (Hser & Hde & _).
  - reflexivity.
  - constructor; [apply uint8_reads_back; lia|].
    constructor; [apply uint8_reads_back; lia|]. constructor.
  - split; [exact Hser|exact Hde].
Defined.

Lemma fixed_size_tuple_roundtrip_witness :
  deserialize
    (Composite_sedes 4 (λ _, Returns tt) (λ content, Returns (to_bytes_little 4 (len content)))
       (Tuple_composite uint8_pair))
    [x07; xc8]
  = Raises DeserializationError.
Proof.
  apply (fixed_size_tuple_roundtrip 4 (λ _, Returns tt)
           (λ content, Returns (to_bytes_little 4 (len content)))
           1 (serialize_content uint8) (deserialize_content uint8) uint8 2
           [7; 200] [[x07]; [xc8]]).
  - reflexivity.
  - reflexivity.
  - repeat constructor.
Defined.

Lemma composite_variable_length_roundtrip_witness :
  deserialize
    (Composite_sedes 4 (λ _, Returns tt) (λ content, Returns (to_bytes_little 4 (len content)))
       byte_string)
    (to_bytes_little 4 2 ++ list_byte_of_string "hi")
  = Returns (list_byte_of_string "hi").
Proof.
  apply (composite_variable_length_roundtrip 4 (λ _, Returns tt)
           (λ content, Returns (to_bytes_little 4 (len content)))
           byte_string (list_byte_of_string "hi") (to_bytes_little 4 2)
           (list_byte_of_string "hi")); reflexivity.
Defined.

End SedesBaseExamples.

(** ** Offsets ([ssz/sedes/basic.py]) *)

Section SedesBasicFacts.

Import SedesBasic.

Context {Item : Type}.
Variable OFFSET_SIZE : Z.
Variable encode_offset : Z → Outcome (list byte).
Variable encode : Z → list byte.
Hypothesis Hencode : ∀ offset, encode_offset offset = Returns (encode offset).

Implicit Types (pairs : list (Item * ItemSedes Item)) (parts : list (list byte)).

Lemma accumulate_offsets (x : list byte) (rest : list (list byte)) base :
  match x :: rest with
  | _ :: _ => accumulate Z.add (map len (slice_to (x :: rest) (-1))) base
  | [] => []
  end
  = base :: match rest with
            | _ :: _ => accumulate Z.add (map len (slice_to rest (-1))) (base + len x)
            | [] => []
            end.
Proof.
  unfold slice_to. simpl.
  destruct rest as [|y rest]; [done|].
  replace (Z.to_nat (len (x :: y :: rest) + -1)) with (S (length rest))
    by (unfold len; simpl; lia).
  replace (Z.to_nat (len (y :: rest) + -1)) with (length rest)
    by (unfold len; simpl; lia).
  done.
Qed.

Lemma offsets_of_cons x rest base :
  offsets_of (x :: rest) base = base :: offsets_of rest (base + len x).
Proof. apply accumulate_offsets. Qed.

Lemma omapM_variable_section pairs parts :
  serialized_by pairs parts →
  omapM (λ pair, serialize (snd pair) (fst pair))
        (List.filter (λ pair, negb (is_fixed_sized (snd pair))) pairs)
  = Returns (variable_section pairs parts).
Proof.
  induction 1 as [|[item sedes] part pairs parts Hser _ IH]; simpl; [done|].
  simpl in Hser. destruct (is_fixed_sized sedes); simpl; [done|]. by rewrite Hser, IH.
Qed.

Lemma fixed_size_section_run pairs parts base extra :
  serialized_by pairs parts →
  fixed_size_section encode_offset pairs
    (offsets_of (variable_section pairs parts) base ++ extra)
  = Returns (fixed_section encode pairs parts base, extra).
Proof using Hencode.
  intros Hser. revert base.
  induction Hser as [|[item sedes] part pairs parts Hser _ IH]; intros base; [done|].
  cbn [fixed_size_section variable_section fixed_section]. simpl in Hser.
  destruct (is_fixed_sized sedes).
  - rewrite Hser. cbn [obind fst snd]. by rewrite IH.
  - rewrite offsets_of_cons. cbn [app]. rewrite Hencode. cbn [obind fst snd]. by rewrite IH.
Qed.

Lemma fixed_section_length pairs parts base :
  serialized_by pairs parts → length (fixed_section encode pairs parts base) = length pairs.
Proof.
  intros Hser. revert base.
  induction Hser as [|[item sedes] part pairs parts _ _ IH]; intros base; simpl; [done|].
  destruct (is_fixed_sized sedes); simpl; by rewrite IH.
Qed.

Lemma compute_fixed_size_section_length pairs parts base :
  serialized_by pairs parts →
  (∀ offset, len (encode offset) = OFFSET_SIZE) →
  Forall2 (λ pair part, is_fixed_sized (snd pair) = true →
                        get_fixed_size (snd pair) = Returns (len part)) pairs parts →
  _compute_fixed_size_section_length OFFSET_SIZE (map snd pairs)
  = Returns (len (concat (fixed_section encode pairs parts base))).
Proof.
  intros Hser Hlen Hsizes. unfold _compute_fixed_size_section_length.
  assert (omapM (λ sedes : ItemSedes Item,
                   if is_fixed_sized sedes then get_fixed_size sedes
                   else Returns OFFSET_SIZE) (map snd pairs)
          = Returns (map len (fixed_section encode pairs parts base))) as ->.
  { revert base Hsizes.
    induction Hser as [|[item sedes] part pairs parts _ _ IH]; intros base Hsizes; simpl;
      [done|].
    apply Forall2_cons in Hsizes as [Hsize Hsizes]. simpl in Hsize.
    destruct (is_fixed_sized sedes) eqn:Hfixed; simpl.
    - rewrite (Hsize eq_refl). simpl. by rewrite (IH base).
    - rewrite (IH (base + len part)) by done. simpl. by rewrite Hlen. }
  simpl. f_equal. unfold len.
  induction (fixed_section encode pairs parts base) as [|x l IH]; simpl; [done|].
  rewrite length_app, IH. lia.
Qed.

Lemma variable_part_at pairs parts base k pair part :
  serialized_by pairs parts →
  pairs !! k = Some pair → parts !! k = Some part → is_fixed_sized (snd pair) = false →
  ∃ offset,
    fixed_section encode pairs parts base !! k = Some (encode offset)
    ∧ base ≤ offset
    ∧ take (length part)
           (drop (Z.to_nat (offset - base)) (concat (variable_section pairs parts))) = part.
Proof.
  intros Hser. revert base k.
  induction Hser as [|[item0 sedes0] part0 pairs parts _ _ IH];
    intros base k Hpair Hpart Hvar; [done|].
  destruct k as [|k]; simpl in *.
  - simplify_eq. simpl in Hvar. rewrite Hvar. simpl. exists base. split_and!; [done|lia|].
    rewrite Z.sub_diag. change (Z.to_nat 0) with 0%nat. rewrite drop_0. by rewrite take_app_length.
  - destruct (is_fixed_sized sedes0); simpl.
    + by apply IH.
    + destruct (IH (base + len part0) k Hpair Hpart Hvar) as (offset & Hk & Hge & Htake).
      exists offset. pose proof (len_nonneg part0). split_and!; [done|lia|].
      replace (Z.to_nat (offset - base))
        with (length part0 + Z.to_nat (offset - (base + len part0)))%nat
        by (unfold len in *; lia).
      by rewrite drop_app_add.
Qed.

Lemma fixed_part_at pairs parts base k pair part :
  serialized_by pairs parts →
  pairs !! k = Some pair → parts !! k = Some part → is_fixed_sized (snd pair) = true →
  fixed_section encode pairs parts base !! k = Some part.
Proof.
  intros Hser. revert base k.
  induction Hser as [|[item0 sedes0] part0 pairs parts _ _ IH];
    intros base k Hpair Hpart Hfixed; [done|].
  destruct k as [|k]; simpl in *.
  - simplify_eq. simpl in Hfixed. by rewrite Hfixed.
  - destruct (is_fixed_sized sedes0); simpl; by apply IH.
Qed.

End SedesBasicFacts.

Section SerializeOffsets.

Import SedesBasic.

Context {Item : Type}.
Implicit Types (pairs : list (Item * ItemSedes Item)) (parts : list (list byte)).

Lemma serialize_sections_layout (OFFSET_SIZE : Z)
  (encode_offset : Z → Outcome (list byte)) (encode : Z → list byte) pairs parts :
  (∀ offset, encode_offset offset = Returns (encode offset)
             ∧ len (encode offset) = OFFSET_SIZE) →
  Forall2 (λ pair part, serialize (snd pair) (fst pair) = Returns part
                        ∧ (is_fixed_sized (snd pair) = true →
                           get_fixed_size (snd pair) = Returns (len part)))
          pairs parts →
  ∃ fixed_size_section_length output,
    _compute_fixed_size_section_length OFFSET_SIZE (map snd pairs)
    = Returns fixed_size_section_length
    ∧ serialize_sections encode_offset pairs fixed_size_section_length = Returns output
    ∧ output = concat (fixed_section encode pairs parts fixed_size_section_length)
               ++ concat (variable_section pairs parts)
    ∧ len (concat (fixed_section encode pairs parts fixed_size_section_length))
      = fixed_size_section_length
    ∧ ∀ (k : nat) pair part, pairs !! k = Some pair → parts !! k = Some part →
        if is_fixed_sized (snd pair)
        then fixed_section encode pairs parts fixed_size_section_length !! k = Some part
        else ∃ offset,
               fixed_section encode pairs parts fixed_size_section_length !! k
               = Some (encode offset)
               ∧ fixed_size_section_length ≤ offset
               ∧ take (length part) (drop (Z.to_nat offset) output) = part.
Proof.
  intros Henc Hall.
  assert (∀ offset, encode_offset offset = Returns (encode offset)) as Hencode
    by (intros; apply Henc).
  assert (∀ offset, len (encode offset) = OFFSET_SIZE) as Hlen by (intros; apply Henc).
  assert (serialized_by pairs parts) as Hser.
  { eapply Forall2_impl; [exact Hall|]. by intros pair part [? _]. }
  assert (Forall2 (λ pair part, is_fixed_sized (snd pair) = true →
                                get_fixed_size (snd pair) = Returns (len part))
                  pairs parts) as Hsizes.
  { eapply Forall2_impl; [exact Hall|]. by intros pair part [_ ?]. }
  (* the length of the fixed section does not depend on the offsets in it *)
  assert (∀ base base', len (concat (fixed_section encode pairs parts base))
                        = len (concat (fixed_section encode pairs parts base'))) as Hindep.
  { intros base base'.
    pose proof (compute_fixed_size_section_length OFFSET_SIZE encode pairs parts base
                  Hser Hlen Hsizes) as H1.
    pose proof (compute_fixed_size_section_length OFFSET_SIZE encode pairs parts base'
                  Hser Hlen Hsizes) as H2.
    congruence. }
  set (F := len (concat (fixed_section encode pairs parts 0))).
  assert (len (concat (fixed_section encode pairs parts F)) = F) as HF by apply Hindep.
  exists F, (concat (fixed_section encode pairs parts F)
             ++ concat (variable_section pairs parts)).
  split_and!; [| |done|done|].
  - by apply compute_fixed_size_section_length.
  - unfold serialize_sections. rewrite (omapM_variable_section pairs parts Hser). simpl.
    pose proof (fixed_size_section_run encode_offset encode Hencode pairs parts F [] Hser)
      as Hrun.
    rewrite app_nil_r in Hrun. unfold offsets_of in Hrun. rewrite Hrun. simpl.
    by rewrite concat_app.
  - intros k pair part Hpair Hpart.
    destruct (is_fixed_sized (snd pair)) eqn:Hfixed.
    + by apply (fixed_part_at encode pairs parts F k pair part).
    + destruct (variable_part_at encode pairs parts F k pair part Hser Hpair Hpart Hfixed)
        as (offset & Hk & Hge & Htake).
      exists offset. split_and!; [done..|].
      replace (Z.to_nat offset)
        with (length (concat (fixed_section encode pairs parts F)) + Z.to_nat (offset - F))%nat
        by (unfold len in HF; lia).
      by rewrite drop_app_add.
Qed.

(** X24.  Offsets point at the parts: when every item is serialized by its
    sedes, items of fixed size to as many bytes as [get_fixed_size] says, and
    [encode_offset] returns [OFFSET_SIZE] bytes, [serialize] of a non-empty
    value returns the fixed size section followed by the variable size
    section; the fixed size section has the computed length and holds, for an
    item of fixed size, its serialization, and for any other item an encoded
    offset at which the output holds the serialization of that item.  The
    result is the same whether the value has no cache attribute, an empty one
    (which is then filled with the length of the fixed size section) or one
    that holds that length. *)
Theorem serialize_offsets_point_at_parts (OFFSET_SIZE : Z)
  (encode_offset : Z → Outcome (list byte)) (encode : Z → list byte)
  (_get_item_sedes_pairs : list Item → Outcome (list (Item * ItemSedes Item)))
  (_validate_serializable : list Item → Outcome unit)
  (value : list Item) pairs parts :
  value ≠ [] →
  _validate_serializable value = Returns tt →
  _get_item_sedes_pairs value = Returns pairs →
  (∀ offset, encode_offset offset = Returns (encode offset)
             ∧ len (encode offset) = OFFSET_SIZE) →
  Forall2 (λ pair part, serialize (snd pair) (fst pair) = Returns part
                        ∧ (is_fixed_sized (snd pair) = true →
                           get_fixed_size (snd pair) = Returns (len part)))
          pairs parts →
  let run := Composite_serialize OFFSET_SIZE encode_offset _get_item_sedes_pairs
               _validate_serializable value in
  ∃ fixed_size_section_length output,
    run NoAttribute = (Returns output, NoAttribute)
    ∧ run CacheNone = (Returns output, Cached fixed_size_section_length)
    ∧ run (Cached fixed_size_section_length)
      = (Returns output, Cached fixed_size_section_length)
    ∧ output = concat (fixed_section encode pairs parts fixed_size_section_length)
               ++ concat (variable_section pairs parts)
    ∧ len (concat (fixed_section encode pairs parts fixed_size_section_length))
      = fixed_size_section_length
    ∧ ∀ (k : nat) pair part, pairs !! k = Some pair → parts !! k = Some part →
        if is_fixed_sized (snd pair)
        then fixed_section encode pairs parts fixed_size_section_length !! k = Some part
        else ∃ offset,
               fixed_section encode pairs parts fixed_size_section_length !! k
               = Some (encode offset)
               ∧ fixed_size_section_length ≤ offset
               ∧ take (length part) (drop (Z.to_nat offset) output) = part.
Proof.
  intros Hne Hvalid Hpairs Henc Hall run.
  destruct (serialize_sections_layout OFFSET_SIZE encode_offset encode pairs parts Henc Hall)
    as (F & output & Hcompute & Hrun & Hout & HF & Hparts).
  exists F, output. subst run. unfold Composite_serialize.
  rewrite Hvalid, Hpairs.
  assert ((len value =? 0) = false) as ->.
  { apply Z.eqb_neq. unfold len. destruct value; [done|simpl; lia]. }
  rewrite Hcompute. simpl. rewrite Hrun. done.
Qed.

End SerializeOffsets.

Section SedesBasicExample.

Import SedesBasic.

Lemma serialize_offsets_point_at_parts_witness :
  Composite_serialize 4 encode_offset4 (λ value, Returns (zip value example_sedes))
    (λ _, Returns tt) example_value CacheNone
  = (Returns (list_byte_of_string "a" ++ to_bytes_little 4 10 ++ list_byte_of_string "b"
              ++ to_bytes_little 4 13 ++ list_byte_of_string "xyzuv"),
     Cached 10).
Proof.
  destruct (serialize_offsets_point_at_parts 4 encode_offset4 (to_bytes_little 4)
              (λ value, Returns (zip value example_sedes)) (λ _, Returns tt)
              example_value (zip example_value example_sedes) example_value)
    as (F & output & _ & Hrun & _ & Hout & HF & _).
  - discriminate.
  - reflexivity.
  - reflexivity.
  - intros offset. split; [reflexivity|]. unfold len. by rewrite length_to_bytes_little.
  - repeat constructor; discriminate.
  - rewrite Hrun. vm_compute in HF. subst F. rewrite Hout. reflexivity.
Defined.

End SedesBasicExample.
